(** * deps: resolution, extraction and lock-file reconciliation

    A shallow embedding of the Go sources [github.go] (ref resolution),
    the lock-file / archive module ([loadLockFile], [saveLockFile],
    [updateDependency], [downloadRepo], [extractTarball]) and the command
    handlers ([handleGet], [handleCheck], [handleInstall], [handleUpdate]),
    followed by the properties of the written specification that were
    checked against them. *)

From Stdlib Require Import ZArith Ascii String.
From stdpp Require Import base option list gmap strings fin_maps.

Local Open Scope string_scope.
Local Open Scope list_scope.

(** ** Byte strings

    Go strings are byte sequences; [string] (a list of 8-bit characters)
    models them directly.  Only the functions of package [strings] and the
    two regular expressions used by the sources are embedded. *)

Module Str.

(** [strings.Contains(s, sep)] for a one-byte [sep]. *)
Fixpoint Contains (s : string) (sep : ascii) : bool :=
  match s with
  | EmptyString => false
  | String c s' => Ascii.eqb c sep || Contains s' sep
  end.

(** [strings.Split(s, sep)] for a one-byte [sep]: always at least one
    field, the empty string splits into one empty field. *)
Fixpoint Split (s : string) (sep : ascii) : list string :=
  match s with
  | EmptyString => [EmptyString]
  | String c s' =>
      if Ascii.eqb c sep then EmptyString :: Split s' sep
      else match Split s' sep with
           | [] => [String c EmptyString]
           | f :: fs => String c f :: fs
           end
  end.

(** [strings.HasPrefix(s, p)]. *)
Definition HasPrefix (s p : string) : bool := String.prefix p s.

(** [s[n:]] for [n <= len(s)]. *)
Fixpoint skip (n : nat) (s : string) : string :=
  match n, s with
  | O, _ => s
  | S n', String _ s' => skip n' s'
  | S _, EmptyString => EmptyString
  end.

(** [strings.TrimPrefix(s, p)]. *)
Definition TrimPrefix (s p : string) : string :=
  if HasPrefix s p then skip (String.length p) s else s.

(** [s[:n]]: a slice expression past the end of the string panics; the
    panic is [None]. *)
Definition slice_to (n : nat) (s : string) : option string :=
  if (n <=? String.length s)%nat then Some (String.substring 0 n s) else None.

Definition is_empty (s : string) : bool :=
  match s with EmptyString => true | _ => false end.

(** [s[:len(s)-1]] of a non-empty string. *)
Fixpoint drop_last (s : string) : string :=
  match s with
  | EmptyString => EmptyString
  | String c EmptyString => EmptyString
  | String c s' => String c (drop_last s')
  end.

(** The character class [[a-f0-9]]. *)
Definition lower_hex (c : ascii) : bool :=
  let n := nat_of_ascii c in
  ((48 <=? n) && (n <=? 57) || (97 <=? n) && (n <=? 102))%nat.

Fixpoint all_chars (f : ascii -> bool) (s : string) : bool :=
  match s with
  | EmptyString => true
  | String c s' => f c && all_chars f s'
  end.

End Str.

(** ** Paths and the file system

    A cleaned path is a rootedness flag and the list of its segments, as
    [filepath.Clean] leaves them: no empty segment, no [.], and [..] only
    as leading segments of a relative path. *)

Abbreviation path := (bool * list string)%type.

Module Path.

(** One step of [filepath.Clean], on the reversed list of the segments
    kept so far. *)
Definition push (rooted : bool) (acc : list string) (seg : string) : list string :=
  if String.eqb seg "" || String.eqb seg "." then acc
  else if String.eqb seg ".." then
    match acc with
    | [] => if rooted then [] else [".."]
    | top :: acc' => if String.eqb top ".." then ".." :: acc else acc'
    end
  else seg :: acc.

Definition clean_segs (rooted : bool) (segs : list string) : list string :=
  rev (fold_left (push rooted) segs []).

(** [filepath.Clean(s)]. *)
Definition Clean (s : string) : path :=
  let rooted := Str.HasPrefix s "/" in
  (rooted, clean_segs rooted (Str.Split s "/")).

(** [filepath.Join(a, b)]: the non-empty elements joined by a separator,
    then cleaned. *)
Definition JoinStr (a b : string) : path :=
  if Str.is_empty a then Clean b
  else if Str.is_empty b then Clean a
  else Clean (a ++ "/" ++ b).

(** [filepath.Join(p, name)] where [p] is already clean. *)
Definition Join (p : path) (name : string) : path :=
  (p.1, rev (fold_left (push p.1) (Str.Split name "/") (rev p.2))).

(** [filepath.Dir(p)] of a clean path. *)
Definition Dir (p : path) : path := (p.1, removelast p.2).

End Path.


(** Nodes carry the mode bits the system call that made them wrote.
    Permission checks, the process umask, what a new node inherits from
    its directory, symbolic links and aliasing between rooted and relative
    names are not part of the model.  Names are judged as Linux judges
    them: no NUL byte, at most [NAME_MAX] bytes in a segment, fewer than
    [PATH_MAX] bytes in a path. *)
Inductive node : Type :=
  | DirNode (perm : Z)
  | FileNode (perm : Z) (data : string).

#[export] Instance node_eq_dec : EqDecision node.
Proof. solve_decision. Defined.

Inductive errno : Type := ENOENT | ENOTDIR | EISDIR | ENAMETOOLONG | EINVAL | ENOSPC.

Abbreviation filesys := (gmap path node).

Module FS.

Definition NAME_MAX : nat := 255.
Definition PATH_MAX : nat := 4096.

Definition has_nul (s : string) : bool := Str.Contains s Ascii.zero.

Definition long_name (s : string) : bool := (NAME_MAX <? String.length s)%nat.

(** The length of the string a cleaned path stands for: the segments and
    the separators between them, [/] alone for the root and [.] alone for
    the working directory. *)
Definition path_length (p : path) : nat :=
  match p.2 with
  | [] => 1
  | s :: l =>
      (if p.1 then 1 else 0) + String.length s
      + fold_right (λ t n, S (String.length t) + n) 0 l
  end.

(** What is refused before the name is resolved: a NUL byte (by the Go
    runtime, without a system call) and a string that does not fit into
    [PATH_MAX] bytes with its terminator. *)
Definition refused (p : path) : option errno :=
  if existsb has_nul p.2 then Some EINVAL
  else if (PATH_MAX <=? path_length p)%nat then Some ENAMETOOLONG
  else None.

(** The working directory, the root and the ancestors of the working
    directory exist and are directories. *)
Definition anchor (segs : list string) : bool := forallb (String.eqb "..") segs.

Definition node_at (fs : filesys) (p : path) : option node :=
  if anchor p.2 then Some (DirNode 493) else fs !! p.

(** Path resolution, one segment at a time from the anchor: a segment is
    looked up in a directory, and not at all when it is too long. *)
Fixpoint walk (fs : filesys) (r : bool) (pre rest : list string) : errno + node :=
  match rest with
  | [] =>
      match node_at fs (r, pre) with
      | Some n => inr n
      | None => inl ENOENT
      end
  | s :: rest' =>
      match node_at fs (r, pre) with
      | Some (DirNode _) =>
          if long_name s then inl ENAMETOOLONG else walk fs r (pre ++ [s]) rest'
      | Some (FileNode _ _) => inl ENOTDIR
      | None => inl ENOENT
      end
  end.

(** [os.Stat(p)]. *)
Definition Stat (fs : filesys) (p : path) : errno + node :=
  match refused p with
  | Some e => inl e
  | None => walk fs p.1 [] p.2
  end.

(** The name of a directory about to be made, [s] being its last
    segment. *)
Definition mkdir_refused (p : path) (s : string) : option errno :=
  if has_nul s then Some EINVAL
  else if (PATH_MAX <=? path_length p)%nat || long_name s then Some ENAMETOOLONG
  else None.

(** [mkdir(2)] keeps the permission bits and the sticky bit. *)
Definition mkdir_mode (perm : Z) : Z := Z.land perm 1023.

(** [os.MkdirAll(p, perm)]: every missing directory on the way is made
    with [perm]; a regular file on the way is an error, and so is a name
    the system refuses, after the directories above it were made. *)
Fixpoint mkdir_walk (fs : filesys) (r : bool) (pre rest : list string) (perm : Z)
  : option errno * filesys :=
  match node_at fs (r, pre) with
  | Some (FileNode _ _) => (Some ENOTDIR, fs)
  | Some (DirNode _) =>
      match rest with
      | [] => (None, fs)
      | s :: rest' =>
          match mkdir_refused (r, pre ++ [s]) s with
          | Some e => (Some e, fs)
          | None => mkdir_walk fs r (pre ++ [s]) rest' perm
          end
      end
  | None =>
      let fs' := <[(r, pre) := DirNode (mkdir_mode perm)]> fs in
      match rest with
      | [] => (None, fs')
      | s :: rest' =>
          match mkdir_refused (r, pre ++ [s]) s with
          | Some e => (Some e, fs')
          | None => mkdir_walk fs' r (pre ++ [s]) rest' perm
          end
      end
  end.

Definition MkdirAll (fs : filesys) (p : path) (perm : Z) : option errno * filesys :=
  mkdir_walk fs p.1 [] p.2 perm.

Fixpoint seg_prefix (a b : list string) : bool :=
  match a, b with
  | [], _ => true
  | x :: a', y :: b' => String.eqb x y && seg_prefix a' b'
  | _ :: _, [] => false
  end.

(** [q] is [p] or lies below it. *)
Definition under (p q : path) : bool := Bool.eqb p.1 q.1 && seg_prefix p.2 q.2.

(** A name [os.RemoveAll] can reach: it opens the parent directory by its
    path and removes the last segment, and what lies below it, from
    there. *)
Definition removable (p : path) : bool :=
  negb (existsb has_nul p.2) && negb (existsb long_name p.2)
  && (path_length (p.1, removelast p.2) <? PATH_MAX)%nat.

(** [os.RemoveAll(p)]: removes [p] and everything below it; on the
    working directory itself it fails with EINVAL and removes nothing, as
    it does on a name it cannot reach (the error is dropped by the only
    caller). *)
Definition RemoveAll (fs : filesys) (p : path) : filesys :=
  match p with
  | (false, []) => fs
  | _ => if removable p then filter (λ kv, under p kv.1 = false) fs else fs
  end.

(** Writing [new] at offset 0 of a file holding [old], without
    truncation. *)
Definition overwrite (old new : string) : string :=
  new ++ Str.skip (String.length new) old.

(** What [open(2)] with O_CREAT checks before it looks at the file
    itself: the name, and the directory the file is to be in. *)
Definition open_checks (fs : filesys) (p : path) : option errno :=
  match refused p with
  | Some e => Some e
  | None =>
      match walk fs p.1 [] (removelast p.2) with
      | inl e => Some e
      | inr (FileNode _ _) => Some ENOTDIR
      | inr (DirNode _) =>
          match last p.2 with
          | Some s => if long_name s then Some ENAMETOOLONG else None
          | None => None
          end
      end
  end.

(** [os.OpenFile(p, O_CREATE|O_WRONLY, perm)], one write of [data] from
    the start of the file, and [Close].  An existing file keeps its
    mode bits and whatever lies beyond the written bytes. *)
Definition create_write (fs : filesys) (p : path) (perm : Z) (data : string)
  : option errno * filesys :=
  match open_checks fs p with
  | Some e => (Some e, fs)
  | None =>
      match node_at fs p with
      | Some (DirNode _) => (Some EISDIR, fs)
      | Some (FileNode pm old) => (None, <[p := FileNode pm (overwrite old data)]> fs)
      | None => (None, <[p := FileNode perm data]> fs)
      end
  end.

(** [os.ReadFile(p)]; [None] is any error. *)
Definition ReadFile (fs : filesys) (p : path) : option string :=
  match Stat fs p with
  | inr (FileNode _ data) => Some data
  | _ => None
  end.

(** [os.WriteFile(p, data, perm)]: open with O_WRONLY|O_CREATE|O_TRUNC,
    write, close.  When the file cannot be opened nothing has changed.
    Once it is open it is empty; [fault] is what the device does with the
    write and the close: [None] when both go through, [Some (n, e)] when
    one of them fails with [e] after [n] bytes reached the file. *)
Definition WriteFile (fs : filesys) (p : path) (data : string) (perm : Z)
    (fault : option (nat * errno)) : option errno * filesys :=
  match open_checks fs p with
  | Some e => (Some e, fs)
  | None =>
      let written (pm : Z) : option errno * filesys :=
        match fault with
        | None => (None, <[p := FileNode pm data]> fs)
        | Some (n, e) => (Some e, <[p := FileNode pm (String.substring 0 n data)]> fs)
        end in
      match node_at fs p with
      | Some (DirNode _) => (Some EISDIR, fs)
      | Some (FileNode pm _) => written pm
      | None => written perm
      end
  end.

End FS.

(** ** Data model *)

(** [type Dependency struct { Ref, SHA string }]. *)
Record Dependency : Type := { Ref : string; SHA : string }.

(** [type LockFile struct { Dependencies map[string]Dependency }].  A Go
    map value may be nil ([None]): it reads as the empty map and panics on
    assignment. *)
Record LockFile : Type := { Dependencies : option (gmap string Dependency) }.

Definition emptyLock : LockFile := {| Dependencies := Some ∅ |}.

(** Reading through a possibly nil map. *)
Definition deps_of (l : LockFile) : gmap string Dependency :=
  default ∅ (Dependencies l).

(** The [error] values the sources build or pass on. *)
Inductive error : Type :=
  | ErrInvalidURL
  | ErrInvalidSpec
  | ErrTransport
  | ErrStatus (code : Z)
  | ErrStatusBranch (code : Z)
  | ErrRead
  | ErrJSON
  | ErrBranchNotFound
  | ErrTagNotFound
  | ErrRefNotFound (ref : string)
  | ErrFS (e : errno)
  | ErrGzip
  | ErrTar
  | ErrCopy.

(** A Go result pair [(v, err)]. *)
Inductive result (A : Type) : Type :=
  | Ok (a : A)
  | Err (e : error).
Arguments Ok {A} a.
Arguments Err {A} e.

(** The answer of [http.Get]: a transport error, or a status code with the
    body as [io.ReadAll] returns it ([None] when reading fails). *)
Inductive http_result : Type :=
  | HttpFail
  | HttpResp (status : Z) (body : option string).

(** Archive entries as [tar.Reader] delivers them. *)
Inductive typeflag : Type := TypeReg | TypeDir | TypeXGlobalHeader | TypeOther.

Record Header : Type := { Typeflag : typeflag; Name : string; Mode : Z }.

(** An entry: its header, the bytes [io.Copy] moves from the reader into
    the file, and whether it does so without error, of the reader or of
    the file. *)
Record tar_entry : Type := { hdr : Header; content : string; content_ok : bool }.

(** A decoded stream: the entries [Next] returns, then [io.EOF]
    ([clean_eof]) or another error. *)
Record tar_stream : Type := { entries : list tar_entry; clean_eof : bool }.

(** One constructor per line the program prints. *)
Inductive msg : Type :=
  | MWarnLockParse
  | MErrParsingURLOf (url : string) (e : error)
  | MErrResolving (url ref : string) (e : error)
  | MNoUpdate (url ref sha8 : string)
  | MUpdateAvailable (url : string)
  | MCurrent (sha8 ref : string)
  | MLatest (sha8 ref : string)
  | MErrDownloadingUpdate (e : error)
  | MUpdated (url ref sha8 : string)
  | MDownloadedTo (p : path)
  | MErrParsingSpec (e : error)
  | MErrParsingURL (e : error)
  | MFetching (url ref : string)
  | MErrResolvingRef (e : error)
  | MResolvedTo (ref sha8 : string)
  | MErrDownloadingRepo (e : error)
  | MErrSaving (e : error)
  | MAdded (url ref sha8 : string)
  | MNoDependencies
  | MChecking (n : nat)
  | MCheckError (url : string) (e : error)
  | MCheckOk (url ref sha8 : string)
  | MCheckMissing (url : string)
  | MAllUpToDate
  | MNeedAttention
  | MInstallingAll (n : nat)
  | MAlreadyInstalled (url ref sha8 : string)
  | MInstalling (url ref sha8 : string)
  | MInstallErrURL (url : string) (e : error)
  | MInstallErrDownload (url : string) (e : error)
  | MInstalled (url ref sha8 : string)
  | MInstallComplete
  | MNotInLock (url : string)
  | MCheckingUpdates (n : nat).

(** Observable events, in program order. *)
Inductive event : Type :=
  | EvGet (url : string)
  | EvWriteFile (p : path) (data : string)
  | EvPrint (m : msg).

(** ** The world and the command monad *)

(** The file system, the [LockFile] objects allocated so far (a [*LockFile]
    is an index into [heap]) and the event trace. *)
Record World : Type := { fs : filesys; heap : list LockFile; trace : list event }.

Definition set_fs (w : World) (f : filesys) : World :=
  {| fs := f; heap := heap w; trace := trace w |}.
Definition set_heap (w : World) (h : list LockFile) : World :=
  {| fs := fs w; heap := h; trace := trace w |}.
Definition log (w : World) (evs : list event) : World :=
  {| fs := fs w; heap := heap w; trace := trace w ++ evs |}.

(** How a computation ends: normally, through [os.Exit], or in a panic. *)
Inductive outcome (A : Type) : Type :=
  | Ret (a : A)
  | Exit (code : Z)
  | Panic.
Arguments Ret {A} a.
Arguments Exit {A} code.
Arguments Panic {A}.

Definition M (A : Type) : Type := World -> outcome A * World.

#[export] Instance M_ret : MRet M := λ A a w, (Ret a, w).

#[export] Instance M_bind : MBind M := λ A B k c w,
  match c w with
  | (Ret a, w') => k a w'
  | (Exit n, w') => (Exit n, w')
  | (Panic, w') => (Panic, w')
  end.

Declare Scope cmd_scope.
Delimit Scope cmd_scope with cmd.
Notation "c1 ;; c2" := (mbind (M := M) (λ _, c2) c1)
  (at level 100, c2 at level 200, right associativity) : cmd_scope.
Local Open Scope cmd_scope.

Definition exit {A} (code : Z) : M A := λ w, (Exit code, w).
Definition panic {A} : M A := λ w, (Panic, w).
Definition print (m : msg) : M unit := λ w, (Ret tt, log w [EvPrint m]).

(** Lifting a file-system operation that may fail. *)
Definition fsop (op : filesys -> option errno * filesys) : M (result unit) := λ w,
  let '(e, f) := op (fs w) in
  (Ret (match e with Some e => Err (ErrFS e) | None => Ok tt end), set_fs w f).

(** [s[:8]]. *)
Definition first8 (s : string) : M string :=
  match Str.slice_to 8 s with
  | Some s8 => mret s8
  | None => panic
  end.

(** [&LockFile{...}], [*p] and [*p = v]. *)
Definition new (v : LockFile) : M nat := λ w,
  (Ret (length (heap w)), set_heap w (heap w ++ [v])).
Definition deref (p : nat) : M LockFile := λ w,
  match heap w !! p with
  | Some v => (Ret v, w)
  | None => (Panic, w)
  end.
Definition store (p : nat) (v : LockFile) : M unit := λ w,
  (Ret tt, set_heap w (<[p := v]> (heap w))).

(** [lockFile.Dependencies[k] = d]. *)
Definition map_assign (p : nat) (k : string) (d : Dependency) : M unit :=
  v ← deref p;
  match Dependencies v with
  | None => panic
  | Some m => store p {| Dependencies := Some (<[k := d]> m) |}
  end.

(** A [for] loop over a list whose body may end the program. *)
Fixpoint for_each {A} (l : list A) (body : A -> M unit) : M unit :=
  match l with
  | [] => mret tt
  | x :: l' => body x ;; for_each l' body
  end.

(** The same with one local variable carried through the iterations. *)
Fixpoint for_fold {A S} (l : list A) (s : S) (body : S -> A -> M S) : M S :=
  match l with
  | [] => mret s
  | x :: l' => s' ← body s x; for_fold l' s' body
  end.

(** What the program does not define itself: the remote API, the decoders
    of [encoding/json], [compress/gzip] and [archive/tar], the order in
    which the runtime ranges over a map, and what the device does when
    [os.WriteFile] writes [data] to the file at a path ([None]: the write
    and the close go through). *)
Class Platform : Type := {
  remote : string -> http_result;
  json_repo : string -> option string;
  json_branch : string -> option string;
  json_ref : string -> option string;
  json_lock : string -> LockFile -> LockFile * bool;
  json_indent : LockFile -> option string;
  targz : option string -> option tar_stream;
  range_order : gmap string Dependency -> list (string * Dependency);
  write_fault : path -> string -> option (nat * errno)
}.

(** ** github.go *)

(** [regexp.MatchString("^[a-f0-9]{40}$", ref)]. *)
Definition matchCommitSHA (ref : string) : bool :=
  (String.length ref =? 40)%nat && Str.all_chars Str.lower_hex ref.

(** The pattern [^github\.com/([^/]+)/([^/]+)/?$]: after the literal
    prefix, two non-empty fields without a slash and an optional final
    slash. *)
Definition parseGitHubURL (url : string) : result (string * string) :=
  if Str.HasPrefix url "github.com/" then
    match Str.Split (Str.TrimPrefix url "github.com/") "/" with
    | [owner; repo] | [owner; repo; ""] =>
        if Str.is_empty owner || Str.is_empty repo then Err ErrInvalidURL
        else Ok (owner, repo)
    | _ => Err ErrInvalidURL
    end
  else Err ErrInvalidURL.

Definition parseGitHubSpec (spec : string) : result (string * string) :=
  match Str.Split spec "@" with
  | [repoURL] => Ok (repoURL, "")
  | [repoURL; ref] => Ok (repoURL, ref)
  | _ => Err ErrInvalidSpec
  end.

Definition repoAPI (owner repo : string) : string :=
  "https://api.github.com/repos/" ++ owner ++ "/" ++ repo.
Definition branchAPI (owner repo branch : string) : string :=
  repoAPI owner repo ++ "/branches/" ++ branch.
Definition tagAPI (owner repo tag : string) : string :=
  repoAPI owner repo ++ "/git/refs/tags/" ++ tag.
Definition tarballAPI (owner repo sha : string) : string :=
  repoAPI owner repo ++ "/tarball/" ++ sha.

Section Program.

Context {P : Platform}.

(** [http.Get(url)]. *)
Definition httpGet (url : string) : M http_result := λ w,
  (Ret (remote url), log w [EvGet url]).

Definition getLatestCommitSHA (owner repo : string) : M (result (string * string)) :=
  resp ← httpGet (repoAPI owner repo);
  match resp with
  | HttpFail => mret (Err ErrTransport)
  | HttpResp status body =>
      if negb (status =? 200)%Z then mret (Err (ErrStatus status))
      else match body with
      | None => mret (Err ErrRead)
      | Some body =>
          match json_repo body with
          | None => mret (Err ErrJSON)
          | Some defaultBranch =>
              resp ← httpGet (branchAPI owner repo defaultBranch);
              match resp with
              | HttpFail => mret (Err ErrTransport)
              | HttpResp status body =>
                  if negb (status =? 200)%Z then mret (Err (ErrStatusBranch status))
                  else match body with
                  | None => mret (Err ErrRead)
                  | Some body =>
                      match json_branch body with
                      | None => mret (Err ErrJSON)
                      | Some sha => mret (Ok (sha, defaultBranch))
                      end
                  end
              end
          end
      end
  end.

Definition getBranchCommitSHA (owner repo branch : string)
  : M (result (string * string)) :=
  resp ← httpGet (branchAPI owner repo branch);
  match resp with
  | HttpFail => mret (Err ErrTransport)
  | HttpResp status body =>
      if negb (status =? 200)%Z then mret (Err ErrBranchNotFound)
      else match body with
      | None => mret (Err ErrRead)
      | Some body =>
          match json_branch body with
          | None => mret (Err ErrJSON)
          | Some sha => mret (Ok (sha, branch))
          end
      end
  end.

Definition getTagCommitSHA (owner repo tag : string) : M (result string) :=
  resp ← httpGet (tagAPI owner repo tag);
  match resp with
  | HttpFail => mret (Err ErrTransport)
  | HttpResp status body =>
      if negb (status =? 200)%Z then mret (Err ErrTagNotFound)
      else match body with
      | None => mret (Err ErrRead)
      | Some body =>
          match json_ref body with
          | None => mret (Err ErrJSON)
          | Some sha => mret (Ok sha)
          end
      end
  end.

Definition resolveRef (owner repo ref : string) : M (result (string * string)) :=
  if Str.is_empty ref then getLatestCommitSHA owner repo
  else if matchCommitSHA ref then mret (Ok (ref, ref))
  else
    b ← getBranchCommitSHA owner repo ref;
    match b with
    | Ok (sha, resolvedRef) => mret (Ok (sha, resolvedRef))
    | Err _ =>
        t ← getTagCommitSHA owner repo ref;
        match t with
        | Ok sha => mret (Ok (sha, ref))
        | Err _ => mret (Err (ErrRefNotFound ref))
        end
    end.

(** ** Lock file and archive module *)

Definition lockPath : path := Path.Clean ".deps.lock".

Definition readFile (p : path) : M (option string) := λ w,
  (Ret (FS.ReadFile (fs w) p), w).

(** [json.Unmarshal(data, lockFile)]: fills the object behind the
    pointer, also when it ends with an error. *)
Definition unmarshalLock (data : string) (p : nat) : M bool :=
  v ← deref p;
  let '(v', ok) := json_lock data v in
  store p v' ;;
  mret ok.

Definition loadLockFile : M nat :=
  lockFile ← new emptyLock;
  data ← readFile lockPath;
  match data with
  | None => mret lockFile
  | Some data =>
      ok ← unmarshalLock data lockFile;
      if (ok : bool) then mret lockFile
      else (print MWarnLockParse ;; new emptyLock)
  end.

(** [os.WriteFile(name, data, perm)]. *)
Definition writeFile (p : path) (data : string) (perm : Z) : M (result unit) := λ w,
  fsop (λ f, FS.WriteFile f p data perm (write_fault p data)) (log w [EvWriteFile p data]).

Definition saveLockFile (lockFile : nat) : M (result unit) :=
  v ← deref lockFile;
  match json_indent v with
  | None => mret (Err ErrJSON)
  | Some data => writeFile lockPath data 420
  end.

Definition getDepPath (repoURL : string) : path := Path.JoinStr ".deps" repoURL.

Inductive status : Type := StatusOk | StatusMissing.

Definition stat (p : path) : M (errno + node) := λ w, (Ret (FS.Stat (fs w) p), w).

(** Only a not-exist error of [os.Stat] counts as missing. *)
Definition checkDependency (repoURL : string) (dep : Dependency) : M (result status) :=
  st ← stat (getDepPath repoURL);
  match st with
  | inl ENOENT => mret (Ok StatusMissing)
  | _ => mret (Ok StatusOk)
  end.

(** [syscallMode] of package [os]: the permission bits of a [FileMode],
    and its set-uid, set-gid and sticky bits at the places the system call
    has them. *)
Definition syscallMode (i : Z) : Z :=
  Z.lor (Z.land i 511)
    (Z.lor (if Z.testbit i 23 then 2048 else 0)
       (Z.lor (if Z.testbit i 22 then 1024 else 0)
          (if Z.testbit i 20 then 512 else 0))).

(** [os.FileMode(header.Mode)], the conversion of an [int64] to a
    [uint32], as the system call receives it. *)
Definition FileMode (mode : Z) : Z := syscallMode (mode mod 2 ^ 32).

(** The root-directory detection of the extraction loop. *)
Definition detectRoot (rootDir name : string) : string :=
  if Str.is_empty rootDir && Str.Contains name "/" then
    match Str.Split name "/" with
    | part0 :: _ => if Str.Contains part0 "-" then part0 ++ "/" else rootDir
    | [] => rootDir
    end
  else rootDir.

Definition is_dir (t : typeflag) : bool :=
  match t with TypeDir => true | _ => false end.
Definition is_xglobal (t : typeflag) : bool :=
  match t with TypeXGlobalHeader => true | _ => false end.

(** The [switch header.Typeflag] of the extraction loop. *)
Definition writeEntry (target : path) (e : tar_entry) : M (result unit) :=
  match Typeflag (hdr e) with
  | TypeDir => fsop (λ f, FS.MkdirAll f target (FileMode (Mode (hdr e))))
  | TypeReg =>
      r ← fsop (λ f, FS.MkdirAll f (Path.Dir target) 493);
      match r with
      | Err err => mret (Err err)
      | Ok _ =>
          r ← fsop (λ f, FS.create_write f target (FileMode (Mode (hdr e))) (content e));
          match r with
          | Err err => mret (Err err)
          | Ok _ => if content_ok e then mret (Ok tt) else mret (Err ErrCopy)
          end
      end
  | _ => mret (Ok tt)
  end.

(** The [for] loop of [extractTarball], with its local [rootDir]. *)
Fixpoint extractEntries (destPath : path) (rootDir : string)
    (es : list tar_entry) (eof : bool) : M (result unit) :=
  match es with
  | [] => if eof then mret (Ok tt) else mret (Err ErrTar)
  | e :: es' =>
      let header := hdr e in
      if is_xglobal (Typeflag header) || String.eqb (Name header) "pax_global_header"
      then extractEntries destPath rootDir es' eof
      else
        let rootDir := detectRoot rootDir (Name header) in
        if is_dir (Typeflag header) && negb (Str.is_empty rootDir)
           && String.eqb (Name header) (Str.drop_last rootDir)
        then extractEntries destPath rootDir es' eof
        else if Str.is_empty rootDir || negb (Str.HasPrefix (Name header) rootDir)
        then extractEntries destPath rootDir es' eof
        else
          let name := Str.TrimPrefix (Name header) rootDir in
          if Str.is_empty name then extractEntries destPath rootDir es' eof
          else
            r ← writeEntry (Path.Join destPath name) e;
            match r with
            | Err err => mret (Err err)
            | Ok _ => extractEntries destPath rootDir es' eof
            end
  end.

Definition removeAll (p : path) : M unit := λ w,
  (Ret tt, set_fs w (FS.RemoveAll (fs w) p)).

(** [extractTarball(r, destPath)]; the destination arrives cleaned, as
    [getDepPath] produces it. *)
Definition extractTarball (r : option string) (destPath : path) : M (result unit) :=
  removeAll destPath ;;
  m ← fsop (λ f, FS.MkdirAll f destPath 493);
  match m with
  | Err err => mret (Err err)
  | Ok _ =>
      match targz r with
      | None => mret (Err ErrGzip)
      | Some tr => extractEntries destPath "" (entries tr) (clean_eof tr)
      end
  end.

Definition downloadRepo (owner repo sha repoURL : string) : M (result unit) :=
  m ← fsop (λ f, FS.MkdirAll f (Path.Clean ".deps") 493);
  match m with
  | Err err => mret (Err err)
  | Ok _ =>
      resp ← httpGet (tarballAPI owner repo sha);
      match resp with
      | HttpFail => mret (Err ErrTransport)
      | HttpResp status body =>
          if negb (status =? 200)%Z then mret (Err (ErrStatus status))
          else
            let depPath := getDepPath repoURL in
            x ← extractTarball body depPath;
            match x with
            | Err err => mret (Err err)
            | Ok _ => print (MDownloadedTo depPath) ;; mret (Ok tt)
            end
      end
  end.

Definition updateDependency (repoURL : string) (dep : Dependency) (lockFile : nat)
  : M bool :=
  match parseGitHubURL repoURL with
  | Err err => print (MErrParsingURLOf repoURL err) ;; mret false
  | Ok (owner, repo) =>
      r ← resolveRef owner repo (Ref dep);
      match r with
      | Err err => print (MErrResolving repoURL (Ref dep) err) ;; mret false
      | Ok (currentSHA, currentRef) =>
          if String.eqb currentSHA (SHA dep) then
            s ← first8 (SHA dep);
            print (MNoUpdate repoURL (Ref dep) s) ;;
            mret false
          else
            print (MUpdateAvailable repoURL) ;;
            s ← first8 (SHA dep);
            print (MCurrent s (Ref dep)) ;;
            c ← first8 currentSHA;
            print (MLatest c currentRef) ;;
            d ← downloadRepo owner repo currentSHA repoURL;
            match d with
            | Err err => print (MErrDownloadingUpdate err) ;; mret false
            | Ok _ =>
                map_assign lockFile repoURL {| Ref := Ref dep; SHA := currentSHA |} ;;
                c ← first8 currentSHA;
                print (MUpdated repoURL currentRef c) ;;
                mret true
            end
      end
  end.

(** ** Command handlers *)

(** [lockFile.Dependencies] read through the pointer. *)
Definition dependencies (lockFile : nat) : M (gmap string Dependency) :=
  v ← deref lockFile;
  mret (deps_of v).

Definition handleGet (repoSpec : string) : M unit :=
  match parseGitHubSpec repoSpec with
  | Err err => print (MErrParsingSpec err) ;; exit 1
  | Ok (repoURL, ref) =>
      match parseGitHubURL repoURL with
      | Err err => print (MErrParsingURL err) ;; exit 1
      | Ok (owner, repo) =>
          print (MFetching repoURL ref) ;;
          r ← resolveRef owner repo ref;
          match r with
          | Err err => print (MErrResolvingRef err) ;; exit 1
          | Ok (sha, resolvedRef) =>
              s ← first8 sha;
              print (MResolvedTo resolvedRef s) ;;
              d ← downloadRepo owner repo sha repoURL;
              match d with
              | Err err => print (MErrDownloadingRepo err) ;; exit 1
              | Ok _ =>
                  lockFile ← loadLockFile;
                  let originalRef := if Str.is_empty ref then resolvedRef else ref in
                  map_assign lockFile repoURL {| Ref := originalRef; SHA := sha |} ;;
                  x ← saveLockFile lockFile;
                  match x with
                  | Err err => print (MErrSaving err) ;; exit 1
                  | Ok _ =>
                      s ← first8 sha;
                      print (MAdded repoURL resolvedRef s)
                  end
              end
          end
      end
  end.

(** The body of the loop of [handleCheck]; [allGood] is its local
    variable. *)
Definition checkEntry (allGood : bool) (kv : string * Dependency) : M bool :=
  let '(repoURL, dep) := kv in
  c ← checkDependency repoURL dep;
  match c with
  | Err err => print (MCheckError repoURL err) ;; mret false
  | Ok StatusOk =>
      s ← first8 (SHA dep);
      print (MCheckOk repoURL (Ref dep) s) ;;
      mret allGood
  | Ok StatusMissing => print (MCheckMissing repoURL) ;; mret false
  end.

Definition handleCheck : M unit :=
  lockFile ← loadLockFile;
  deps ← dependencies lockFile;
  if (size deps =? 0)%nat then print MNoDependencies
  else
    print (MChecking (size deps)) ;;
    allGood ← for_fold (range_order deps) true checkEntry;
    if (allGood : bool) then print MAllUpToDate else print MNeedAttention.

(** The body of the loop of [handleInstall]. *)
Definition installEntry (kv : string * Dependency) : M unit :=
  let '(repoURL, dep) := kv in
  c ← checkDependency repoURL dep;
  match c with
  | Err err => print (MCheckError repoURL err)
  | Ok StatusOk =>
      s ← first8 (SHA dep);
      print (MAlreadyInstalled repoURL (Ref dep) s)
  | Ok StatusMissing =>
      s ← first8 (SHA dep);
      print (MInstalling repoURL (Ref dep) s) ;;
      match parseGitHubURL repoURL with
      | Err err => print (MInstallErrURL repoURL err)
      | Ok (owner, repo) =>
          d ← downloadRepo owner repo (SHA dep) repoURL;
          match d with
          | Err err => print (MInstallErrDownload repoURL err)
          | Ok _ =>
              s ← first8 (SHA dep);
              print (MInstalled repoURL (Ref dep) s)
          end
      end
  end.

Definition handleInstall : M unit :=
  lockFile ← loadLockFile;
  deps ← dependencies lockFile;
  if (size deps =? 0)%nat then print MNoDependencies
  else
    print (MInstallingAll (size deps)) ;;
    for_each (range_order deps) installEntry ;;
    print MInstallComplete.

(** The body of the loop of [handleUpdate]; [updated] is its local
    variable. *)
Definition updateEntry (lockFile : nat) (updated : bool) (kv : string * Dependency)
  : M bool :=
  u ← updateDependency kv.1 kv.2 lockFile;
  mret (if (u : bool) then true else updated).

Definition handleUpdate (specificRepo : string) : M unit :=
  lockFile ← loadLockFile;
  deps ← dependencies lockFile;
  if (size deps =? 0)%nat then print MNoDependencies
  else
    updated ←
      (if negb (Str.is_empty specificRepo) then
         match deps !! specificRepo with
         | None => print (MNotInLock specificRepo) ;; exit 1
         | Some dep => updateDependency specificRepo dep lockFile
         end
       else
         print (MCheckingUpdates (size deps)) ;;
         updated ← for_fold (range_order deps) false (updateEntry lockFile);
         (if (updated : bool) then mret tt else print MAllUpToDate) ;;
         mret updated);
    if (updated : bool) then
      x ← saveLockFile lockFile;
      match x with
      | Err err => print (MErrSaving err) ;; exit 1
      | Ok _ => mret tt
      end
    else mret tt.

End Program.

(** ** Notions of the specification *)

Definition hex_digits : list ascii := list_ascii_of_string "0123456789abcdef".

(** A commit identifier in the words of the specification: 40 lowercase
    hexadecimal characters. *)
Definition commit_id (ref : string) : Prop :=
  String.length ref = 40%nat ∧ ∀ c, c ∈ list_ascii_of_string ref → c ∈ hex_digits.

Section Spec.

Context {P : Platform}.

(** What the remote holds under a branch name: the tip identifier of the
    branch with exactly that name, if the lookup succeeds. *)
Definition branch_tip (owner repo name : string) : option string :=
  match remote (branchAPI owner repo name) with
  | HttpResp status (Some body) => if (status =? 200)%Z then json_branch body else None
  | _ => None
  end.

(** The same for the tag namespace. *)
Definition tag_target (owner repo name : string) : option string :=
  match remote (tagAPI owner repo name) with
  | HttpResp status (Some body) => if (status =? 200)%Z then json_ref body else None
  | _ => None
  end.

(** The Ledger a storage state holds: empty when the file cannot be
    read or does not parse. *)
Definition loaded (f : filesys) : LockFile :=
  match FS.ReadFile f lockPath with
  | None => emptyLock
  | Some data =>
      let '(v, ok) := json_lock data emptyLock in
      if ok then v else emptyLock
  end.

Definition ledger (f : filesys) : gmap string Dependency := deps_of (loaded f).

End Spec.

(** ** What a command may change

    A command keeps a relation between worlds when every run of it, however
    it ends, takes a world to a related one. *)

Definition steps {A} (R : World -> World -> Prop) (c : M A) : Prop :=
  ∀ w, R w (c w).2.

(** It never ends the program through [os.Exit]. *)
Definition never_exits {A} (c : M A) : Prop := ∀ w n, (c w).1 ≠ Exit n.

(** It always returns to its caller. *)
Definition returns {A} (c : M A) : Prop := ∀ w, ∃ a, (c w).1 = Ret a.

(** How it ends and what it does to the file system depend on the file
    system alone. *)
Definition fs_only {A} (c : M A) : Prop :=
  ∀ w1 w2, fs w1 = fs w2 → (c w1).1 = (c w2).1 ∧ fs (c w1).2 = fs (c w2).2.

(** The [LockFile] objects in memory are as they were. *)
Definition heap_kept (w w' : World) : Prop := heap w' = heap w.

(** The file system is as it was. *)
Definition fs_kept (w w' : World) : Prop := fs w' = fs w.

(** The paths in [S] hold what they held. *)
Definition fs_kept_at (S : path -> Prop) (w w' : World) : Prop :=
  ∀ p, S p → fs w' !! p = fs w !! p.

(** The trace has grown by events that all satisfy [ok]. *)
Definition trace_ext (ok : event -> Prop) (w w' : World) : Prop :=
  ∃ evs, trace w' = trace w ++ evs ∧ Forall ok evs.

Definition is_save (e : event) : bool :=
  match e with EvWriteFile _ _ => true | _ => false end.

Definition is_get (e : event) : bool :=
  match e with EvGet _ => true | _ => false end.

(** The events of [w'] that [w] did not have yet. *)
Definition new_events (w w' : World) : list event :=
  drop (length (trace w)) (trace w').

(** A relative path inside the dependency directory [.deps]. *)
Definition in_deps (p : path) : bool :=
  negb p.1 && match p.2 with s :: _ => String.eqb s ".deps" | [] => false end.

(** An entry name without a parent-directory segment. *)
Definition local_name (name : string) : Prop := ".." ∉ Str.Split name "/".

Definition local_stream (tr : tar_stream) : Prop :=
  ∀ e, e ∈ entries tr → local_name (Name (hdr e)).

(** The events a command may add besides printing: requests to the URLs
    in [U], and no write of the lock file. *)
Definition calls (U : string -> Prop) (e : event) : Prop :=
  match e with
  | EvGet u => U u
  | EvWriteFile _ _ => False
  | EvPrint _ => True
  end.

Definition only_calls (U : string -> Prop) : World -> World -> Prop :=
  trace_ext (calls U).

(** The conjunction of two frame relations. *)
Definition both (R1 R2 : World -> World -> Prop) (w w' : World) : Prop :=
  R1 w w' ∧ R2 w w'.

(** Paths outside the dependency directory. *)
Abbreviation outside := (λ p : path, in_deps p = false).

(** A world with nothing in it. *)
Definition blank : World := {| fs := ∅; heap := []; trace := [] |}.

Section Remote.

Context {P : Platform}.

(** Every archive the remote serves has only local entry names. *)
Definition local_remote : Prop :=
  ∀ url status body tr,
    remote url = HttpResp status body → targz body = Some tr → local_stream tr.

(** What [resolveRef] answers against this remote, and the requests it
    makes on the way; neither depends on the world it runs in
    ([resolveRef_run]). *)
Definition resolution (owner repo ref : string) : result (string * string) :=
  match (resolveRef owner repo ref blank).1 with
  | Ret r => r
  | _ => Err ErrTransport
  end.

Definition resolution_calls (owner repo ref : string) : list event :=
  trace (resolveRef owner repo ref blank).2.

(** What a download at [sha] into the directory of the key [repoURL] does
    in a storage state: its result and the state it leaves behind; neither
    depends on the rest of the world ([downloadRepo_fetched]). *)
Definition fetched (owner repo sha repoURL : string) (f : filesys)
  : result unit * filesys :=
  let r := downloadRepo owner repo sha repoURL {| fs := f; heap := []; trace := [] |} in
  (match r.1 with Ret x => x | _ => Err ErrTransport end, fs r.2).

End Remote.

(** ** The archive layout in the words of the specification *)

(** A metadata entry: skipped before anything else is looked at. *)
Definition is_meta (e : tar_entry) : bool :=
  is_xglobal (Typeflag (hdr e)) || String.eqb (Name (hdr e)) "pax_global_header".

Definition first_segment (name : string) : string :=
  match Str.Split name "/" with
  | s :: _ => s
  | [] => ""
  end.

(** The first entry, metadata aside, whose name contains a separator. *)
Definition first_nested (es : list tar_entry) : option tar_entry :=
  List.find (λ e, negb (is_meta e) && Str.Contains (Name (hdr e)) "/") es.

(** The entries that fall under the wrapper directory, its own entry
    excluded. *)
Definition kept (wrapper : string) (e : tar_entry) : bool :=
  negb (is_meta e)
  && Str.HasPrefix (Name (hdr e)) (wrapper +:+ "/")
  && negb (String.eqb (Name (hdr e)) (wrapper +:+ "/")).

(** Writing every given entry below [dest], at its name less its first
    [n] bytes, until an operation fails. *)
Fixpoint write_stripped (dest : path) (n : nat) (es : list tar_entry) (eof : bool)
  : M (result unit) :=
  match es with
  | [] => if eof then mret (Ok tt) else mret (Err ErrTar)
  | e :: es' =>
      r ← writeEntry (Path.Join dest (Str.skip n (Name (hdr e)))) e;
      match r with
      | Err err => mret (Err err)
      | Ok _ => write_stripped dest n es' eof
      end
  end.

(** ** Reconciliation *)

(** Events other than a write of the lock file. *)
Abbreviation no_save := (λ e : event, is_save e = false).

(** The number of times the lock file was written. *)
Definition saves (evs : list event) : nat := length (List.filter is_save evs).

(** The entries an update addresses: all of them, or the one named. *)
Definition targeted (target k : string) : Prop := target = "" ∨ target = k.

Section Reconcile.

Context {P : Platform}.

(** The remote now resolves the entry's ref to another identifier than the
    one recorded. *)
Definition changed (k : string) (d : Dependency) : Prop :=
  ∃ owner repo sha cref,
    parseGitHubURL k = Ok (owner, repo) ∧
    resolution owner repo (Ref d) = Ok (sha, cref) ∧
    sha ≠ SHA d.

(** The remote resolves the entry's ref to the recorded identifier. *)
Definition in_sync (k : string) (d : Dependency) : Prop :=
  ∃ owner repo cref,
    parseGitHubURL k = Ok (owner, repo) ∧
    resolution owner repo (Ref d) = Ok (SHA d, cref).

(** The update of the entry comes to print the first 8 bytes of an
    identifier that has fewer: the key is a repository address, the ref
    resolves, and the recorded identifier or the one the ref resolves to
    is shorter than 8 bytes. *)
Definition short_on_update (k : string) (d : Dependency) : Prop :=
  ∃ owner repo sha cref,
    parseGitHubURL k = Ok (owner, repo) ∧
    resolution owner repo (Ref d) = Ok (sha, cref) ∧
    ((String.length (SHA d) < 8)%nat ∨ (String.length sha < 8)%nat).

(** The reports an update makes for an entry whose key is no repository
    address or whose ref does not resolve; neither has the identifier. *)
Definition reported_without_sha (k : string) (d : Dependency) (evs : list event) : Prop :=
  (∀ e, parseGitHubURL k = Err e → EvPrint (MErrParsingURLOf k e) ∈ evs) ∧
  (∀ owner repo e, parseGitHubURL k = Ok (owner, repo) →
                   resolution owner repo (Ref d) = Err e →
                   EvPrint (MErrResolving k (Ref d) e) ∈ evs).

(** What an update adds to the trace for an entry in sync: the requests of
    the resolution, then the report that no update is available. *)
Definition sync_events (kv : string * Dependency) : list event :=
  match parseGitHubURL kv.1 with
  | Ok (owner, repo) =>
      resolution_calls owner repo (Ref kv.2)
      ++ [EvPrint (MNoUpdate kv.1 (Ref kv.2) (String.substring 0 8 (SHA kv.2)))]
  | Err _ => []
  end.

End Reconcile.

(** ** A concrete platform

    A small remote and toy codecs, used to run the program on concrete
    inputs. *)

Module Demo.

Fixpoint assoc {A} (l : list (string * A)) (k : string) : option A :=
  match l with
  | [] => None
  | (k', v) :: l' => if String.eqb k k' then Some v else assoc l' k
  end.

(** The lock-file codec: records [key,ref,sha] separated by [;]; the
    word [null] stands for a JSON null map. *)
Fixpoint decode_records (recs : list string) (m : gmap string Dependency)
  : gmap string Dependency * bool :=
  match recs with
  | [] => (m, true)
  | r :: recs' =>
      if Str.is_empty r then decode_records recs' m
      else match Str.Split r "," with
           | [k; ref; sha] => decode_records recs' (<[k := {| Ref := ref; SHA := sha |}]> m)
           | _ => (m, false)
           end
  end.

Definition decode_lock (data : string) (v : LockFile) : LockFile * bool :=
  if String.eqb data "null" then ({| Dependencies := None |}, true)
  else
    let '(m, ok) := decode_records (Str.Split data ";") (deps_of v) in
    ({| Dependencies := Some m |}, ok).

Definition encode_lock (v : LockFile) : option string :=
  match Dependencies v with
  | None => Some "null"
  | Some m =>
      Some (fold_right (λ kv acc, kv.1 +:+ "," +:+ Ref kv.2 +:+ "," +:+ SHA kv.2 +:+ ";" +:+ acc)
              "" (map_to_list m))
  end.

(** Bodies are served verbatim: a JSON answer is its own payload, an
    archive is looked up by the name in the body.  The device takes every
    write. *)
Definition platform (api : list (string * http_result))
    (archives : list (string * tar_stream)) : Platform :=
  {| remote := λ url, default HttpFail (assoc api url);
     json_repo := Some;
     json_branch := Some;
     json_ref := Some;
     json_lock := decode_lock;
     json_indent := encode_lock;
     targz := λ body, b ← body; assoc archives b;
     range_order := map_to_list;
     write_fault := λ _ _, None |}.

(** The same platform on a device that takes [n] bytes of a write and
    then is full. *)
Definition full_after (n : nat) (P : Platform) : Platform :=
  {| remote := remote; json_repo := json_repo; json_branch := json_branch;
     json_ref := json_ref; json_lock := json_lock; json_indent := json_indent;
     targz := targz; range_order := range_order;
     write_fault := λ _ _, Some (n, ENOSPC) |}.

Definition world (f : filesys) : World := {| fs := f; heap := []; trace := [] |}.

Definition sha_a : string := "aaaaaaaaaaaaaaaaaaaaaaaaaaaaaaaaaaaaaaaa".
Definition sha_b : string := "bbbbbbbbbbbbbbbbbbbbbbbbbbbbbbbbbbbbbbbb".

Definition reg (name : string) (data : string) : tar_entry :=
  {| hdr := {| Typeflag := TypeReg; Name := name; Mode := 420 |};
     content := data; content_ok := true |}.
Definition dir (name : string) : tar_entry :=
  {| hdr := {| Typeflag := TypeDir; Name := name; Mode := 493 |};
     content := ""; content_ok := true |}.

(** The archive of the specification's example. *)
Definition example_archive : tar_stream :=
  {| entries := [reg "repo-abc123/src/a.txt" "hello"; dir "repo-abc123/"];
     clean_eof := true |}.

(** An archive that names the same file twice. *)
Definition twice_archive : tar_stream :=
  {| entries := [reg "repo-abc123/a.txt" "hello world"; reg "repo-abc123/a.txt" "bye"];
     clean_eof := true |}.

(** An archive with an entry that climbs out of the destination. *)
Definition climbing_archive : tar_stream :=
  {| entries := [reg "repo-abc123/../../../../.deps.lock"
                    ("github.com/x/y,main," +:+ sha_b +:+ ";")];
     clean_eof := true |}.

(** The same, cut short after that entry. *)
Definition truncated_climbing_archive : tar_stream :=
  {| entries := entries climbing_archive; clean_eof := false |}.

(** A name of 256 bytes, one more than a directory takes. *)
Fixpoint repeat_byte (c : ascii) (n : nat) : string :=
  match n with
  | O => ""
  | S n' => String c (repeat_byte c n')
  end.

Definition long_owner : string := repeat_byte "a" 256.

Definition lock_one : filesys :=
  {[ lockPath := FileNode 420 ("github.com/o/r,main," +:+ sha_a +:+ ";") ]}.

End Demo.

(** ** Further notions *)

(** Outside the tree below [dest] every path is as it was, or it was
    absent, lies on the way to [dest] and is now a directory. *)
Definition tree_only (dest : path) (w w' : World) : Prop :=
  ∀ p, FS.under dest p = false →
    fs w' !! p = fs w !! p ∨
    (fs w !! p = None ∧ FS.under p dest = true ∧ ∃ pm, fs w' !! p = Some (DirNode pm)).

(** The entry that fixes the wrapper: the first one, metadata aside,
    whose name contains a separator and whose first segment contains a
    hyphen. *)
Definition wrapper_entry (es : list tar_entry) : option tar_entry :=
  List.find (λ e, negb (is_meta e) && Str.Contains (Name (hdr e)) "/"
                  && Str.Contains (first_segment (Name (hdr e))) "-") es.

(** A name the system takes: no NUL byte, no segment longer than
    [NAME_MAX], and room for the whole path. *)
Definition name_taken (p : path) : bool :=
  negb (existsb FS.has_nul p.2) && negb (existsb FS.long_name p.2)
  && (FS.path_length p <? FS.PATH_MAX)%nat.

(** The directory of a key is reported missing: [os.Stat] fails with a
    not-exist error. *)
Definition missing (f : filesys) (k : string) : bool :=
  match FS.Stat f (getDepPath k) with
  | inl ENOENT => true
  | _ => false
  end.

(** The line [handleCheck] prints for an entry. *)
Definition check_report (f : filesys) (kv : string * Dependency) : event :=
  if missing f kv.1 then EvPrint (MCheckMissing kv.1)
  else EvPrint (MCheckOk kv.1 (Ref kv.2) (String.substring 0 8 (SHA kv.2))).

(** The lines with which [handleInstall] closes an entry. *)
Definition install_report (k : string) (e : event) : Prop :=
  (∃ ref s8, e = EvPrint (MAlreadyInstalled k ref s8)) ∨
  (∃ ref s8, e = EvPrint (MInstalled k ref s8)) ∨
  (∃ err, e = EvPrint (MInstallErrURL k err)) ∨
  (∃ err, e = EvPrint (MInstallErrDownload k err)).

(** ** The command line *)

(** [showUsage()]: the lines it prints. *)
Definition showUsage (version : string) : list string :=
  [ "deps " +:+ version +:+ " - Language agnostic dependency manager";
    "";
    "Usage:";
    "  deps get github.com/user/repo[@ref]   Add a dependency";
    "  deps check                            Check dependency status";
    "  deps install                          Install missing dependencies";
    "  deps update [github.com/user/repo]    Update dependencies";
    "  deps version                          Show version";
    "  deps help                             Show this help" ].

Section Main.

Context {P : Platform}.

(** [main()], for the build's [version] and the argument vector
    [os.Args].  The lines [main] prints itself are returned apart from the
    world: no branch both prints and runs a handler. *)
Definition main (version : string) (args : list string)
  : World -> list string * (outcome unit * World) := λ w,
  match args with
  | [] | [_] => (showUsage version, (Exit 1, w))
  | _ :: command :: rest =>
      if String.eqb command "version" || String.eqb command "--version"
         || String.eqb command "-v"
      then (["deps " +:+ version], (Ret tt, w))
      else if String.eqb command "help" || String.eqb command "--help"
              || String.eqb command "-h"
      then (showUsage version, (Ret tt, w))
      else if String.eqb command "get" then
        match rest with
        | [] => (["Usage: deps get github.com/user/repo[@ref]"], (Exit 1, w))
        | repoSpec :: _ => ([], handleGet repoSpec w)
        end
      else if String.eqb command "check" then ([], handleCheck w)
      else if String.eqb command "install" then ([], handleInstall w)
      else if String.eqb command "update" then
        ([], handleUpdate (match rest with [] => "" | repoURL :: _ => repoURL end) w)
      else (("Unknown command: " +:+ command) :: showUsage version, (Exit 1, w))
  end.

End Main.

(** Events whose requests all go to addresses in [U]. *)
Definition gets (U : string -> Prop) (e : event) : Prop :=
  match e with
  | EvGet u => U u
  | _ => True
  end.

(** Directories stay directories. *)
Definition dirs_kept (w w' : World) : Prop :=
  ∀ q pm, FS.node_at (fs w) q = Some (DirNode pm) →
          FS.node_at (fs w') q = Some (DirNode pm).

(** * Properties *)

(** ** Running commands *)

Lemma log_log (w : World) (e1 e2 : list event) : log (log w e1) e2 = log w (e1 ++ e2).
Proof. unfold log; simpl. by rewrite app_assoc. Qed.

Lemma log_nil (w : World) : log w [] = w.
Proof. destruct w; unfold log; simpl. by rewrite app_nil_r. Qed.

Lemma bind_run {A B} (c : M A) (k : A -> M B) (w : World) :
  (c ≫= k) w =
  match c w with
  | (Ret a, w') => k a w'
  | (Exit n, w') => (Exit n, w')
  | (Panic, w') => (Panic, w')
  end.
Proof. reflexivity. Qed.

Lemma bind_ret_run {A B} (c : M A) (k : A -> M B) (w w' : World) (a : A) :
  c w = (Ret a, w') → (c ≫= k) w = k a w'.
Proof. intros E. by rewrite bind_run, E. Qed.

Ltac exec :=
  unfold mbind, M_bind, mret, M_ret, print, exit, panic, fsop, new, deref, store,
    httpGet, readFile, stat, removeAll, writeFile, set_heap, set_fs, log in *;
  simpl in *.

(** ** Strings *)

Lemma lower_hex_digit (c : ascii) : Str.lower_hex c = true ↔ c ∈ hex_digits.
Proof.
  split.
  - destruct c as [[] [] [] [] [] [] [] []]; vm_compute; intros E;
      first [ discriminate E | repeat first [ apply list_elem_of_here | apply list_elem_of_further ] ].
  - intros E. unfold hex_digits in E. simpl in E.
    repeat (apply elem_of_cons in E as [-> | E]; [ reflexivity | ]).
    by apply elem_of_nil in E.
Qed.

Lemma all_chars_spec (f : ascii -> bool) (s : string) :
  Str.all_chars f s = true ↔ ∀ c, c ∈ list_ascii_of_string s → f c = true.
Proof.
  induction s as [| a s IH]; simpl.
  - split; [ intros _ c E; by apply elem_of_nil in E | done ].
  - rewrite andb_true_iff, IH. split.
    + intros [Ha Hs] c E. apply elem_of_cons in E as [-> | E]; auto.
    + intros H. split; [ apply H; left | intros c E; apply H; by right ].
Qed.

Lemma matchCommitSHA_spec (ref : string) : matchCommitSHA ref = true ↔ commit_id ref.
Proof.
  unfold matchCommitSHA, commit_id.
  rewrite andb_true_iff, Nat.eqb_eq, all_chars_spec.
  split; intros [L H]; (split; [ exact L | intros c E; apply lower_hex_digit; auto ]).
Qed.

Lemma commit_id_not_empty (ref : string) : commit_id ref → Str.is_empty ref = false.
Proof. intros [L _]. by destruct ref. Qed.

Lemma is_empty_false (s : string) : s ≠ "" → Str.is_empty s = false.
Proof. by destruct s. Qed.

Lemma is_empty_true (s : string) : Str.is_empty s = true ↔ s = "".
Proof. by destruct s. Qed.

(** ** Ref resolution *)

Section Resolve.

Context {P : Platform}.

Lemma getBranchCommitSHA_run (owner repo branch : string) (w : World) :
  ∃ r, getBranchCommitSHA owner repo branch w
       = (Ret r, log w [EvGet (branchAPI owner repo branch)]) ∧
       match branch_tip owner repo branch with
       | Some sha => r = Ok (sha, branch)
       | None => ∃ e, r = Err e
       end.
Proof.
  unfold getBranchCommitSHA, branch_tip, httpGet. rewrite bind_run.
  destruct (remote _) as [| status [body |]]; simpl; eauto.
  - destruct (status =? 200)%Z; simpl; eauto.
    destruct (json_branch body); eauto.
  - destruct (status =? 200)%Z; simpl; eauto.
Qed.

Lemma getTagCommitSHA_run (owner repo tag : string) (w : World) :
  ∃ r, getTagCommitSHA owner repo tag w
       = (Ret r, log w [EvGet (tagAPI owner repo tag)]) ∧
       match tag_target owner repo tag with
       | Some sha => r = Ok sha
       | None => ∃ e, r = Err e
       end.
Proof.
  unfold getTagCommitSHA, tag_target, httpGet. rewrite bind_run.
  destruct (remote _) as [| status [body |]]; simpl; eauto.
  - destruct (status =? 200)%Z; simpl; eauto.
    destruct (json_ref body); eauto.
  - destruct (status =? 200)%Z; simpl; eauto.
Qed.

End Resolve.

(** C1.  For every owner, repository and ref made of 40 lowercase
    hexadecimal characters, [resolveRef] returns the ref unchanged both as
    content identifier and as canonical ref; it does not fail and leaves
    the world as it found it, so the trace gains no remote call. *)
Theorem resolveRef_commit_id `{Platform} (owner repo ref : string) (w : World) :
  commit_id ref →
  resolveRef owner repo ref w = (Ret (Ok (ref, ref)), w).
Proof.
  intros C. unfold resolveRef.
  rewrite (commit_id_not_empty _ C).
  apply matchCommitSHA_spec in C. by rewrite C.
Qed.

Lemma resolveRef_commit_id_witness :
  commit_id Demo.sha_a ∧
  resolveRef (P := Demo.platform [] []) "o" "r" Demo.sha_a (Demo.world ∅)
  = (Ret (Ok (Demo.sha_a, Demo.sha_a)), Demo.world ∅).
Proof.
  assert (C : commit_id Demo.sha_a) by (apply matchCommitSHA_spec; reflexivity).
  split; [ exact C | exact (resolveRef_commit_id "o" "r" Demo.sha_a (Demo.world ∅) C) ].
Defined.

(** C2.  For a ref that is neither empty nor a commit identifier,
    [resolveRef] first looks the name up as a branch; a branch of that name
    wins and no tag lookup is made.  Only when the branch lookup fails is
    the tag lookup made: its target is returned with the tag name as
    canonical ref, and when it fails too the result is the ref-not-found
    error. *)
Theorem resolveRef_branch_then_tag `{Platform} (owner repo ref : string) (w : World) :
  ref ≠ "" → ¬ commit_id ref →
  resolveRef owner repo ref w =
  match branch_tip owner repo ref with
  | Some sha => (Ret (Ok (sha, ref)), log w [EvGet (branchAPI owner repo ref)])
  | None =>
      (Ret (match tag_target owner repo ref with
            | Some sha => Ok (sha, ref)
            | None => Err (ErrRefNotFound ref)
            end),
       log w [EvGet (branchAPI owner repo ref); EvGet (tagAPI owner repo ref)])
  end.
Proof.
  intros NE NC. unfold resolveRef.
  rewrite (is_empty_false _ NE).
  destruct (matchCommitSHA ref) eqn:E; [ by apply matchCommitSHA_spec in E | ].
  destruct (getBranchCommitSHA_run owner repo ref w) as (b & Eb & Hb).
  rewrite (bind_ret_run _ _ _ _ _ Eb).
  destruct (branch_tip owner repo ref) as [sha |].
  - by subst b.
  - destruct Hb as [e ->].
    destruct (getTagCommitSHA_run owner repo ref
                (log w [EvGet (branchAPI owner repo ref)])) as (t & Et & Ht).
    rewrite (bind_ret_run _ _ _ _ _ Et), log_log.
    destruct (tag_target owner repo ref) as [sha |].
    + by subst t.
    + by destruct Ht as [e' ->].
Qed.

(** The scenario of the specification: [v1.0] exists only as a tag. *)
Lemma resolveRef_branch_then_tag_witness :
  let P := Demo.platform [(tagAPI "o" "r" "v1.0", HttpResp 200 (Some Demo.sha_a))] [] in
  "v1.0" ≠ "" ∧ ¬ commit_id "v1.0" ∧
  resolveRef "o" "r" "v1.0" (Demo.world ∅)
  = (Ret (Ok (Demo.sha_a, "v1.0")),
     log (Demo.world ∅) [EvGet (branchAPI "o" "r" "v1.0"); EvGet (tagAPI "o" "r" "v1.0")]).
Proof.
  intros P.
  assert (NE : "v1.0" ≠ "") by discriminate.
  assert (NC : ¬ commit_id "v1.0") by (intros [L _]; discriminate L).
  split; [ exact NE | split; [ exact NC | ] ].
  rewrite (resolveRef_branch_then_tag "o" "r" "v1.0" (Demo.world ∅) NE NC).
  reflexivity.
Defined.

(** ** Loading the lock file *)

Section Load.

Context {P : Platform}.

Lemma lookup_fresh (h : list LockFile) (v : LockFile) :
  (h ++ [v]) !! length h = Some v.
Proof. by rewrite lookup_app_r, Nat.sub_diag. Qed.

Lemma insert_fresh (h : list LockFile) (v v' : LockFile) :
  <[length h := v']> (h ++ [v]) = h ++ [v'].
Proof. by rewrite insert_app_r_alt, Nat.sub_diag by lia. Qed.

Lemma loadLockFile_run (w : World) :
  ∃ p h evs,
    loadLockFile w
    = (Ret p, {| fs := fs w; heap := heap w ++ h; trace := trace w ++ evs |}) ∧
    (heap w ++ h) !! p = Some (loaded (fs w)) ∧
    (length (heap w) ≤ p)%nat ∧
    (evs = [] ∨ evs = [EvPrint MWarnLockParse] ∧ loaded (fs w) = emptyLock).
Proof.
  unfold loadLockFile, loaded, unmarshalLock. exec.
  destruct (FS.ReadFile (fs w) lockPath) as [data |]; simpl.
  - rewrite lookup_fresh.
    destruct (json_lock data emptyLock) as [v' ok]; simpl.
    rewrite insert_fresh.
    destruct ok; simpl.
    + exists (length (heap w)), [v'], []. rewrite app_nil_r.
      split_and!; auto. apply lookup_fresh.
    + exists (length (heap w ++ [v'])), [v'; emptyLock], [EvPrint MWarnLockParse].
      replace (heap w ++ [v'; emptyLock]) with ((heap w ++ [v']) ++ [emptyLock])
        by by rewrite <- app_assoc.
      split_and!; auto.
      * apply lookup_fresh.
      * rewrite length_app. lia.
  - exists (length (heap w)), [emptyLock], []. rewrite app_nil_r.
    split_and!; auto. apply lookup_fresh.
Qed.

End Load.

(** C8.  Loading never fails the caller: in every storage state
    [loadLockFile] returns normally, without touching the file system.
    When the file cannot be read (in particular when it is absent) the
    Ledger returned is empty and nothing is printed; when the file does not
    parse, the Ledger returned is a fresh empty one, whatever the decoder
    had filled in before it gave up, and the only sign is the printed
    warning. *)
Theorem loadLockFile_never_fails `{Platform} (w : World) :
  ∃ p w',
    loadLockFile w = (Ret p, w') ∧
    fs w' = fs w ∧
    (FS.ReadFile (fs w) lockPath = None →
       heap w' !! p = Some emptyLock ∧ trace w' = trace w) ∧
    (∀ data, FS.ReadFile (fs w) lockPath = Some data →
       (json_lock data emptyLock).2 = false →
       heap w' !! p = Some emptyLock ∧ trace w' = trace w ++ [EvPrint MWarnLockParse]).
Proof.
  unfold loadLockFile, unmarshalLock. exec.
  destruct (FS.ReadFile (fs w) lockPath) as [data |] eqn:R; simpl.
  - rewrite lookup_fresh.
    destruct (json_lock data emptyLock) as [v' ok] eqn:J; simpl.
    rewrite insert_fresh.
    destruct ok; simpl.
    + eexists _, _. split; [ reflexivity | ]. simpl.
      split_and!; [ done | done | ].
      intros d [= <-]. rewrite J. done.
    + eexists _, _. split; [ reflexivity | ]. simpl.
      split_and!; [ done | done | ].
      intros _ _ _. split; [ | done ].
      apply lookup_fresh.
  - eexists _, _. split; [ reflexivity | ]. simpl.
    split_and!; [ done | | done ].
    intros _. split; [ apply lookup_fresh | done ].
Qed.

(** A lock file whose second record is malformed: the decoder keeps the
    first record and reports an error; the caller gets an empty Ledger. *)
Lemma loadLockFile_never_fails_witness :
  let P := Demo.platform [] [] in
  let w := Demo.world {[ lockPath := FileNode 420 "a,b,c;bad" ]} in
  json_lock "a,b,c;bad" emptyLock
  = ({| Dependencies := Some {[ "a" := {| Ref := "b"; SHA := "c" |} ]} |}, false) ∧
  ∃ p w', loadLockFile w = (Ret p, w') ∧
          heap w' !! p = Some emptyLock ∧ trace w' = [EvPrint MWarnLockParse].
Proof.
  intros P w. split; [ reflexivity | ].
  destruct (loadLockFile_never_fails w) as (p & w' & E & _ & _ & H).
  exists p, w'. split; [ exact E | ].
  exact (H "a,b,c;bad" eq_refl eq_refl).
Defined.

(** ** The file system *)

Lemma seg_prefix_head (a b : list string) (s : string) :
  FS.seg_prefix (s :: a) b = true → head b = Some s.
Proof.
  destruct b as [| y b]; simpl; [ done | ].
  rewrite andb_true_iff, String.eqb_eq. by intros [-> _].
Qed.

Lemma in_deps_head (p : path) :
  in_deps p = true ↔ p.1 = false ∧ head p.2 = Some ".deps".
Proof.
  destruct p as [r [| s l]]; unfold in_deps; simpl.
  - rewrite andb_false_r. split; [ done | by intros [_ ?] ].
  - rewrite andb_true_iff, negb_true_iff, String.eqb_eq.
    split; intros [? E]; split; auto; congruence.
Qed.

Lemma under_in_deps (q p : path) :
  in_deps q = true → FS.under q p = true → in_deps p = true.
Proof.
  intros Hq Hu. apply in_deps_head in Hq as [Hr Hh]. apply in_deps_head.
  unfold FS.under in Hu. apply andb_true_iff in Hu as [Hb Hs].
  apply Bool.eqb_prop in Hb.
  destruct q as [r [| s l]]; simpl in *; [ done | ].
  injection Hh as ->. split; [ congruence | by eapply seg_prefix_head ].
Qed.

Lemma RemoveAll_frame (f : filesys) (q p : path) :
  FS.under q p = false → FS.RemoveAll f q !! p = f !! p.
Proof.
  intros Hu. unfold FS.RemoveAll.
  assert (E : filter (λ kv : path * node, FS.under q kv.1 = false) f !! p = f !! p).
  { rewrite map_lookup_filter. destruct (f !! p) as [n |]; simpl; [ | done ].
    by rewrite option_guard_True. }
  destruct q as [[] [| ? ?]]; auto; by destruct (FS.removable _).
Qed.

Lemma mkdir_walk_frame (perm : Z) (r : bool) (p : path) (rest pre : list string)
    (f : filesys) :
  (∀ l, l `prefix_of` rest → p = (r, pre ++ l) → FS.anchor (pre ++ l) = true) →
  (FS.mkdir_walk f r pre rest perm).2 !! p = f !! p.
Proof.
  revert pre f. induction rest as [| s rest IH]; intros pre f H; simpl.
  - unfold FS.node_at; simpl. destruct (FS.anchor pre) eqn:A; [ done | ].
    destruct (f !! (r, pre)) as [[] |] eqn:L; simpl; try done.
    apply lookup_insert_ne. intros <-.
    specialize (H [] (prefix_nil _)). rewrite app_nil_r in H.
    rewrite H in A; done.
  - assert (H' : ∀ l, l `prefix_of` rest → p = (r, (pre ++ [s]) ++ l) →
                      FS.anchor ((pre ++ [s]) ++ l) = true).
    { intros l Hl. rewrite <- app_assoc. simpl. apply H. by apply prefix_cons. }
    assert (New : (<[(r, pre) := DirNode (FS.mkdir_mode perm)]> f) !! p = f !! p
                  ∨ FS.anchor pre = true).
    { destruct (FS.anchor pre) eqn:A; [ by right | left ].
      apply lookup_insert_ne. intros <-.
      specialize (H [] (prefix_nil _)). rewrite app_nil_r in H.
      rewrite H in A; done. }
    unfold FS.node_at; simpl. destruct (FS.anchor pre) eqn:A.
    { destruct (FS.mkdir_refused _ _); [ done | by apply IH ]. }
    destruct New as [New | ?]; [ | done ].
    destruct (f !! (r, pre)) as [[] |] eqn:L; simpl; try done;
      destruct (FS.mkdir_refused _ _); simpl; try done.
    + by apply IH.
    + by rewrite IH.
Qed.

Lemma MkdirAll_frame (f : filesys) (q p : path) (perm : Z) :
  in_deps q = true ∨ q.2 = [] → in_deps p = false →
  (FS.MkdirAll f q perm).2 !! p = f !! p.
Proof.
  intros Hq Hp. unfold FS.MkdirAll. apply mkdir_walk_frame.
  intros l Hl ->. simpl in *.
  destruct l as [| s l]; [ done | ].
  destruct Hq as [Hq | Hq].
  - apply in_deps_head in Hq as [Hr Hh].
    destruct Hl as [k Hk]. rewrite Hk in Hh. simpl in Hh. injection Hh as ->.
    rewrite Hr in Hp. unfold in_deps in Hp. simpl in Hp. done.
  - destruct Hl as [k Hk]. rewrite Hk in Hq. done.
Qed.

Lemma create_write_frame (f : filesys) (t p : path) (perm : Z) (data : string) :
  p ≠ t → (FS.create_write f t perm data).2 !! p = f !! p.
Proof.
  intros N. unfold FS.create_write.
  destruct (FS.open_checks f t) as [e |]; simpl; try done.
  destruct (FS.node_at f t) as [[|] |]; simpl; try done;
    by apply lookup_insert_ne.
Qed.

Lemma WriteFile_frame (f : filesys) (t p : path) (perm : Z) (data : string)
    (fault : option (nat * errno)) :
  p ≠ t → (FS.WriteFile f t data perm fault).2 !! p = f !! p.
Proof.
  intros N. unfold FS.WriteFile.
  destruct (FS.open_checks f t) as [e |]; simpl; try done.
  destruct (FS.node_at f t) as [[|] |], fault as [[n e] |]; simpl; try done;
    by apply lookup_insert_ne.
Qed.

(** ** Paths *)

Lemma Split_not_nil (s : string) (c : ascii) : Str.Split s c ≠ [].
Proof.
  induction s as [| a s IH]; simpl; [ done | ].
  destruct (Ascii.eqb a c); [ done | ]. by destruct (Str.Split s c).
Qed.

Lemma append_cons (a : ascii) (p s : string) : String a p +:+ s = String a (p +:+ s).
Proof. reflexivity. Qed.

Lemma append_nil (s : string) : "" +:+ s = s.
Proof. reflexivity. Qed.

Lemma Split_app (p t : string) (c : ascii) :
  Str.Split (p +:+ String c t) c = Str.Split p c ++ Str.Split t c.
Proof.
  induction p as [| a p IH]; rewrite ?append_cons, ?append_nil; simpl.
  - by rewrite Ascii.eqb_refl.
  - destruct (Ascii.eqb a c); [ by rewrite IH | ].
    rewrite IH. pose proof (Split_not_nil p c).
    by destruct (Str.Split p c).
Qed.

Lemma prefix_skip (p s : string) :
  String.prefix p s = true → s = p +:+ Str.skip (String.length p) s.
Proof.
  revert s. induction p as [| a p IH]; intros s; [ by destruct s | ].
  destruct s as [| b s]; simpl; [ done | ].
  destruct (Ascii.ascii_dec a b) as [-> | N]; [ | done ].
  intros E. rewrite append_cons. f_equal. by apply IH.
Qed.

Lemma append_assoc (a b c : string) : (a +:+ b) +:+ c = a +:+ (b +:+ c).
Proof.
  induction a as [| x a IH]; rewrite ?append_cons, ?append_nil; [ done | by rewrite IH ].
Qed.

(** Stripping a prefix that ends in a slash only drops leading segments. *)
Lemma Split_TrimPrefix (name p0 : string) :
  Str.HasPrefix name (p0 +:+ "/") = true →
  Str.Split name "/" = Str.Split p0 "/" ++ Str.Split (Str.TrimPrefix name (p0 +:+ "/")) "/".
Proof.
  intros H. unfold Str.TrimPrefix. rewrite H.
  unfold Str.HasPrefix in H. apply prefix_skip in H.
  rewrite H at 1. rewrite append_assoc. apply Split_app.
Qed.

Lemma local_TrimPrefix (name p0 : string) :
  Str.HasPrefix name (p0 +:+ "/") = true → local_name name →
  local_name (Str.TrimPrefix name (p0 +:+ "/")).
Proof.
  intros H L. unfold local_name in *. rewrite (Split_TrimPrefix _ _ H) in L.
  intros E. apply L. apply elem_of_app. by right.
Qed.

Lemma push_bottom (r : bool) (seg : string) (acc l : list string) (b : string) :
  seg ≠ ".." → acc = l ++ [b] → ∃ l', Path.push r acc seg = l' ++ [b].
Proof.
  intros N ->. unfold Path.push.
  destruct (String.eqb seg "" || String.eqb seg "."); [ by exists l | ].
  destruct (String.eqb_spec seg ".."); [ done | ].
  by exists (seg :: l).
Qed.

Lemma fold_push_bottom (r : bool) (segs : list string) (acc l : list string) (b : string) :
  ".." ∉ segs → acc = l ++ [b] → ∃ l', fold_left (Path.push r) segs acc = l' ++ [b].
Proof.
  revert acc l. induction segs as [| s segs IH]; intros acc l N E; simpl.
  - by exists l.
  - destruct (push_bottom r s acc l b) as [l' E']; [ | done | ].
    + intros ->. apply N. left.
    + eapply IH; [ | exact E' ]. intros X. apply N. by right.
Qed.

Lemma Join_in_deps (dest : path) (name : string) :
  in_deps dest = true → local_name name → in_deps (Path.Join dest name) = true.
Proof.
  intros D L. apply in_deps_head in D as [Hr Hh]. apply in_deps_head.
  unfold Path.Join; simpl. split; [ done | ].
  destruct dest as [r [| s l]]; simpl in *; [ done | ]. injection Hh as ->.
  destruct (fold_push_bottom r (Str.Split name "/") (rev l ++ [".deps"]) (rev l) ".deps")
    as [l' E]; [ done | done | ].
  rewrite E, rev_app_distr. done.
Qed.

Lemma Dir_in_deps (t : path) :
  in_deps t = true → in_deps (Path.Dir t) = true ∨ (Path.Dir t).2 = [].
Proof.
  intros D. apply in_deps_head in D as [Hr Hh].
  destruct t as [r [| s [| s' l]]]; simpl in *; [ done | by right | ].
  left. apply in_deps_head. simpl. done.
Qed.


(** ** Frame reasoning *)

Section Steps.

Context {R : World -> World -> Prop} `{!PreOrder R}.

Lemma steps_ret {A} (a : A) : steps R (mret a).
Proof. intros w. reflexivity. Qed.

Lemma steps_exit {A} (n : Z) : steps R (exit (A := A) n).
Proof. intros w. reflexivity. Qed.

Lemma steps_panic {A} : steps R (panic (A := A)).
Proof. intros w. reflexivity. Qed.

Lemma steps_bind {A B} (c : M A) (k : A -> M B) :
  steps R c → (∀ a, steps R (k a)) → steps R (c ≫= k).
Proof.
  intros Hc Hk w. rewrite bind_run.
  specialize (Hc w). destruct (c w) as [[a | n |] w1]; simpl in *; auto.
  etrans; [ exact Hc | apply Hk ].
Qed.


Lemma steps_for_fold {A S} (l : list A) (s : S) (body : S -> A -> M S) :
  (∀ s x, x ∈ l → steps R (body s x)) → steps R (for_fold l s body).
Proof.
  revert s. induction l as [| x l IH]; intros s H; simpl.
  - apply steps_ret.
  - apply steps_bind; [ apply H; left | intros s'; apply IH ].
    intros s0 y Hy. apply H. by right.
Qed.

Lemma steps_deref (p : nat) : steps R (deref p).
Proof. intros w. unfold deref. destruct (heap w !! p); reflexivity. Qed.

Lemma steps_first8 (s : string) : steps R (first8 s).
Proof. unfold first8. destruct (Str.slice_to 8 s); [ apply steps_ret | apply steps_panic ]. Qed.

Lemma steps_readFile (p : path) : steps R (readFile p).
Proof. intros w. reflexivity. Qed.

Lemma steps_stat (p : path) : steps R (stat p).
Proof. intros w. reflexivity. Qed.

End Steps.

#[export] Instance heap_kept_pre : PreOrder heap_kept.
Proof. split; [ by intros w | intros a b c; unfold heap_kept; congruence ]. Qed.

#[export] Instance fs_kept_pre : PreOrder fs_kept.
Proof. split; [ by intros w | intros a b c; unfold fs_kept; congruence ]. Qed.

#[export] Instance fs_kept_at_pre (S : path -> Prop) : PreOrder (fs_kept_at S).
Proof.
  split; [ by intros w | ].
  intros a b c H1 H2 p Hp. by rewrite H2, H1.
Qed.

#[export] Instance trace_ext_pre (ok : event -> Prop) : PreOrder (trace_ext ok).
Proof.
  split.
  - intros w. exists []. by rewrite app_nil_r.
  - intros a b c (e1 & E1 & F1) (e2 & E2 & F2). exists (e1 ++ e2).
    split; [ by rewrite E2, E1, app_assoc | by apply Forall_app ].
Qed.

Lemma never_exits_bind {A B} (c : M A) (k : A -> M B) :
  never_exits c → (∀ a, never_exits (k a)) → never_exits (c ≫= k).
Proof.
  intros Hc Hk w n. rewrite bind_run.
  specialize (Hc w). destruct (c w) as [[a | m |] w1]; simpl in *.
  - apply Hk.
  - by destruct (Hc m).
  - done.
Qed.

Lemma never_exits_ret {A} (a : A) : never_exits (mret a).
Proof. by intros w n. Qed.

Lemma never_exits_panic {A} : never_exits (panic (A := A)).
Proof. by intros w n. Qed.

Lemma returns_never_exits {A} (c : M A) : returns c → never_exits c.
Proof. intros H w n. destruct (H w) as [a E]. by rewrite E. Qed.

Lemma returns_ret {A} (a : A) : returns (mret a).
Proof. intros w. by exists a. Qed.

Lemma returns_bind {A B} (c : M A) (k : A -> M B) :
  returns c → (∀ a, returns (k a)) → returns (c ≫= k).
Proof.
  intros Hc Hk w. rewrite bind_run.
  destruct (Hc w) as [a E]. destruct (c w) as [o w1]; simpl in E; subst o.
  apply Hk.
Qed.

Lemma never_exits_for_each {A} (l : list A) (body : A -> M unit) :
  (∀ x, never_exits (body x)) → never_exits (for_each l body).
Proof.
  intros H. induction l as [| x l IH]; simpl.
  - apply never_exits_ret.
  - apply never_exits_bind; auto.
Qed.

Lemma never_exits_for_fold {A S} (l : list A) (s : S) (body : S -> A -> M S) :
  (∀ s x, never_exits (body s x)) → never_exits (for_fold l s body).
Proof.
  intros H. revert s. induction l as [| x l IH]; intros s; simpl.
  - apply never_exits_ret.
  - apply never_exits_bind; auto.
Qed.

#[export] Instance both_pre (R1 R2 : World -> World -> Prop)
  `{!PreOrder R1} `{!PreOrder R2} : PreOrder (both R1 R2).
Proof.
  split.
  - intros w. split; reflexivity.
  - intros a b c [H1 H2] [H3 H4]. split; etrans; eauto.
Qed.

Lemma steps_both {A} (R1 R2 : World -> World -> Prop) (c : M A) :
  steps R1 c → steps R2 c → steps (both R1 R2) c.
Proof. intros H1 H2 w. split; auto. Qed.


Lemma steps_both_r {A} (R1 R2 : World -> World -> Prop) (c : M A) :
  steps (both R1 R2) c → steps R2 c.
Proof. intros H w. apply H. Qed.

Lemma steps_mono {A} (R1 R2 : World -> World -> Prop) (c : M A) :
  (∀ w w', R1 w w' → R2 w w') → steps R1 c → steps R2 c.
Proof. intros H H1 w. auto. Qed.

Lemma trace_ext_log (ok : event -> Prop) (w : World) (evs : list event) :
  Forall ok evs → trace_ext ok w (log w evs).
Proof. intros F. by exists evs. Qed.

Lemma trace_ext_same (ok : event -> Prop) (w w' : World) :
  trace w' = trace w → trace_ext ok w w'.
Proof. intros E. exists []. by rewrite app_nil_r. Qed.

Lemma only_calls_mono (U V : string -> Prop) (w w' : World) :
  (∀ u, U u → V u) → only_calls U w w' → only_calls V w w'.
Proof.
  intros H (evs & E & F). exists evs. split; [ done | ].
  eapply Forall_impl; [ exact F | ]. intros [u | |]; simpl; auto.
Qed.

Lemma fs_kept_at_of_kept (S : path -> Prop) (w w' : World) :
  fs_kept w w' → fs_kept_at S w w'.
Proof. intros E p _. by rewrite E. Qed.

(** *** The primitive commands *)

Create HintDb steps.

Ltac prim := intros ?; exec; first [ reflexivity | by apply trace_ext_same ].

Lemma heap_kept_print m : steps heap_kept (print m).
Proof. prim. Qed.
Lemma heap_kept_httpGet `{Platform} url : steps heap_kept (httpGet url).
Proof. prim. Qed.
Lemma heap_kept_fsop op : steps heap_kept (fsop op).
Proof. intros w. unfold fsop. by destruct (op (fs w)). Qed.
Lemma heap_kept_removeAll p : steps heap_kept (removeAll p).
Proof. prim. Qed.
Lemma heap_kept_writeFile `{Platform} p d m : steps heap_kept (writeFile p d m).
Proof. intros w. unfold writeFile, fsop. simpl. by destruct (FS.WriteFile _ _ _ _ _). Qed.

Lemma fs_kept_print m : steps fs_kept (print m).
Proof. prim. Qed.
Lemma fs_kept_httpGet `{Platform} url : steps fs_kept (httpGet url).
Proof. prim. Qed.
Lemma fs_kept_new v : steps fs_kept (new v).
Proof. prim. Qed.
Lemma fs_kept_store p v : steps fs_kept (store p v).
Proof. prim. Qed.

Lemma trace_ext_print ok m : ok (EvPrint m) → steps (trace_ext ok) (print m).
Proof. intros H w. apply trace_ext_log. by repeat constructor. Qed.
Lemma trace_ext_httpGet `{Platform} (ok : event -> Prop) url :
  ok (EvGet url) → steps (trace_ext ok) (httpGet url).
Proof. intros H' w. apply trace_ext_log. by repeat constructor. Qed.
Lemma trace_ext_fsop ok op : steps (trace_ext ok) (fsop op).
Proof. intros w. unfold fsop. destruct (op (fs w)). by apply trace_ext_same. Qed.
Lemma trace_ext_removeAll ok p : steps (trace_ext ok) (removeAll p).
Proof. prim. Qed.
Lemma trace_ext_new ok v : steps (trace_ext ok) (new v).
Proof. prim. Qed.
Lemma trace_ext_store ok p v : steps (trace_ext ok) (store p v).
Proof. prim. Qed.

Lemma fs_kept_at_fsop (S : path -> Prop) op :
  (∀ f p, S p → (op f).2 !! p = f !! p) → steps (fs_kept_at S) (fsop op).
Proof.
  intros H w p Hp. unfold fsop. specialize (H (fs w) p Hp).
  destruct (op (fs w)); simpl in *. done.
Qed.

Lemma fs_kept_at_removeAll (S : path -> Prop) q :
  (∀ p, S p → FS.under q p = false) → steps (fs_kept_at S) (removeAll q).
Proof. intros H w p Hp. simpl. apply RemoveAll_frame. auto. Qed.

Lemma steps_fs_kept_at {A} (S : path -> Prop) (c : M A) :
  steps fs_kept c → steps (fs_kept_at S) c.
Proof. apply steps_mono. intros w w'. apply fs_kept_at_of_kept. Qed.

(** [http.Get] answers with what the remote holds. *)
Lemma steps_httpGet_bind `{Platform} {R : World -> World -> Prop} `{!PreOrder R} {B}
    (url : string) (k : http_result -> M B) :
  steps R (httpGet url) → steps R (k (remote url)) → steps R (httpGet url ≫= k).
Proof.
  intros H1 H2 w. rewrite bind_run. simpl.
  etrans; [ apply (H1 w) | apply H2 ].
Qed.

#[export] Hint Resolve heap_kept_print heap_kept_httpGet heap_kept_fsop heap_kept_removeAll
  heap_kept_writeFile fs_kept_print fs_kept_httpGet fs_kept_new fs_kept_store
  trace_ext_fsop trace_ext_removeAll trace_ext_new trace_ext_store : steps.

Ltac steps_leaf :=
  lazymatch goal with
  | |- steps _ (mret _) => apply steps_ret
  | |- steps _ (exit _) => apply steps_exit
  | |- steps _ panic => apply steps_panic
  | |- steps _ (deref _) => apply steps_deref
  | |- steps _ (first8 _) => apply steps_first8
  | |- steps _ (readFile _) => apply steps_readFile
  | |- steps _ (stat _) => apply steps_stat
  | |- steps (trace_ext _) (print _) => apply trace_ext_print; solve [ hnf; auto ]
  | |- steps (trace_ext _) (httpGet _) => apply trace_ext_httpGet; solve [ hnf; auto ]
  | |- steps (fs_kept_at _) _ =>
      first [ apply steps_fs_kept_at; solve [ eauto with steps ] | solve [ eauto with steps ] ]
  | |- steps _ _ => solve [ eauto with steps ]
  end.

Ltac steps_auto :=
  unfold only_calls;
  repeat first
    [ lazymatch goal with
      | |- steps _ (mbind _ (httpGet _)) => apply steps_httpGet_bind
      | |- steps _ (mbind _ _) => apply steps_bind; [ | intros ? ]
      | |- steps _ (match ?x with _ => _ end) => destruct x eqn:?
      | |- steps _ (let '(_, _) := ?x in _) => destruct x eqn:?
      end
    | steps_leaf ].

Section ResolveFrame.

Context {P : Platform}.

Lemma resolveRef_heap_kept o r ref : steps heap_kept (resolveRef o r ref).
Proof.
  unfold resolveRef, getLatestCommitSHA, getBranchCommitSHA, getTagCommitSHA.
  steps_auto.
Qed.

Lemma resolveRef_fs_kept o r ref : steps fs_kept (resolveRef o r ref).
Proof.
  unfold resolveRef, getLatestCommitSHA, getBranchCommitSHA, getTagCommitSHA.
  steps_auto.
Qed.

Lemma resolveRef_only_calls o r ref : steps (only_calls (λ _, True)) (resolveRef o r ref).
Proof.
  unfold resolveRef, getLatestCommitSHA, getBranchCommitSHA, getTagCommitSHA.
  steps_auto.
Qed.
End ResolveFrame.

(** ** [resolveRef] does not depend on the world *)

Section ResolveRun.

Context {P : Platform}.

Lemma resolveRef_run (owner repo ref : string) (w : World) :
  resolveRef owner repo ref w
  = (Ret (resolution owner repo ref), log w (resolution_calls owner repo ref)).
Proof.
  unfold resolution, resolution_calls, resolveRef, getLatestCommitSHA,
    getBranchCommitSHA, getTagCommitSHA.
  destruct (Str.is_empty ref).
  - exec. destruct (remote (repoAPI owner repo)) as [| st [b |]]; simpl; try done.
    + destruct (negb (st =? 200)%Z); simpl; [ done | ].
      destruct (json_repo b) as [db |]; simpl; [ | done ].
      destruct (remote (branchAPI owner repo db)) as [| st' [b' |]]; simpl;
        rewrite <- ?app_assoc; simpl; try done.
      * destruct (negb (st' =? 200)%Z); simpl; [ done | ].
        by destruct (json_branch b').
      * by destruct (negb (st' =? 200)%Z).
    + by destruct (negb (st =? 200)%Z).
  - destruct (matchCommitSHA ref).
    + simpl. by rewrite log_nil.
    + exec. 
      destruct (remote (branchAPI owner repo ref)) as [| st [b |]]; simpl.
      all: try (destruct (negb (st =? 200)%Z); simpl).
      all: try (destruct (json_branch b); simpl; [ done | ]).
      all: destruct (remote (tagAPI owner repo ref)) as [| st' [b' |]]; simpl;
        rewrite <- ?app_assoc; simpl; try done.
      all: try (destruct (negb (st' =? 200)%Z); simpl; try done).
      all: try (by destruct (json_ref b')).
Qed.

End ResolveRun.

(** ** Commands that always return, commands that never exit *)

Lemma returns_print m : returns (print m).
Proof. intros w. by eexists. Qed.
Lemma returns_httpGet `{Platform} url : returns (httpGet url).
Proof. intros w. by eexists. Qed.
Lemma returns_fsop op : returns (fsop op).
Proof. intros w. unfold fsop. destruct (op (fs w)). by eexists. Qed.
Lemma returns_removeAll p : returns (removeAll p).
Proof. intros w. by eexists. Qed.
Lemma returns_new v : returns (new v).
Proof. intros w. by eexists. Qed.
Lemma returns_store p v : returns (store p v).
Proof. intros w. by eexists. Qed.
Lemma returns_readFile p : returns (readFile p).
Proof. intros w. by eexists. Qed.
Lemma returns_stat p : returns (stat p).
Proof. intros w. by eexists. Qed.
Lemma returns_writeFile `{Platform} p d m : returns (writeFile p d m).
Proof. intros w. unfold writeFile, fsop. simpl. destruct (FS.WriteFile _ _ _ _ _). by eexists. Qed.

Create HintDb returns.
#[export] Hint Resolve returns_print returns_httpGet returns_fsop returns_removeAll
  returns_new returns_store returns_readFile returns_stat returns_writeFile : returns.

Ltac returns_auto :=
  repeat first
    [ lazymatch goal with
      | |- returns (mbind _ _) => apply returns_bind; [ | intros ? ]
      | |- returns (mret _) => apply returns_ret
      | |- returns (match ?x with _ => _ end) => destruct x eqn:?
      | |- returns (let '(_, _) := ?x in _) => destruct x eqn:?
      end
    | solve [ eauto with returns ] ].

Lemma never_exits_deref p : never_exits (deref p).
Proof. intros w n. unfold deref. by destruct (heap w !! p). Qed.

Lemma never_exits_first8 s : never_exits (first8 s).
Proof. unfold first8. destruct (Str.slice_to 8 s); [ apply never_exits_ret | apply never_exits_panic ]. Qed.

Create HintDb never_exits.
#[export] Hint Resolve never_exits_deref never_exits_first8 : never_exits.
#[export] Hint Extern 5 (never_exits _) =>
  apply returns_never_exits; solve [ eauto with returns ] : never_exits.

Ltac never_exits_auto :=
  repeat first
    [ lazymatch goal with
      | |- never_exits (mbind _ _) => apply never_exits_bind; [ | intros ? ]
      | |- never_exits (mret _) => apply never_exits_ret
      | |- never_exits panic => apply never_exits_panic
      | |- never_exits (match ?x with _ => _ end) => destruct x eqn:?
      | |- never_exits (let '(_, _) := ?x in _) => destruct x eqn:?
      end
    | solve [ eauto with never_exits ] ].

Section Returns.

Context {P : Platform}.

Lemma returns_resolveRef o r ref : returns (resolveRef o r ref).
Proof. intros w. rewrite resolveRef_run. by eexists. Qed.

Lemma returns_loadLockFile : returns loadLockFile.
Proof.
  intros w. destruct (loadLockFile_run w) as (p & h & evs & E & _).
  rewrite E. by eexists.
Qed.

Lemma returns_writeEntry t e : returns (writeEntry t e).
Proof. unfold writeEntry. returns_auto. Qed.

Lemma returns_extractEntries dest rootDir es eof :
  returns (extractEntries dest rootDir es eof).
Proof.
  revert rootDir. induction es as [| e es IH]; intros rootDir; simpl.
  - returns_auto.
  - repeat match goal with
           | |- returns (if ?c then _ else _) => destruct c; [ by apply IH | ]
           end.
    apply returns_bind; [ apply returns_writeEntry | ].
    intros [[] | err]; [ by apply IH | returns_auto ].
Qed.

Lemma returns_extractTarball body dest : returns (extractTarball body dest).
Proof.
  unfold extractTarball. pose proof returns_extractEntries. returns_auto.
Qed.

Lemma returns_downloadRepo o r sha k : returns (downloadRepo o r sha k).
Proof.
  unfold downloadRepo. pose proof returns_extractTarball. returns_auto.
Qed.

Lemma returns_checkDependency k d : returns (checkDependency k d).
Proof. unfold checkDependency. returns_auto. Qed.

Lemma never_exits_map_assign p k d : never_exits (map_assign p k d).
Proof. unfold map_assign. never_exits_auto. Qed.

#[local] Hint Resolve returns_resolveRef returns_downloadRepo returns_checkDependency
  : returns.
#[local] Hint Resolve never_exits_map_assign : never_exits.

Lemma never_exits_updateDependency k d p : never_exits (updateDependency k d p).
Proof. unfold updateDependency. never_exits_auto. Qed.

Lemma never_exits_installEntry kv : never_exits (installEntry kv).
Proof. unfold installEntry. destruct kv. never_exits_auto. Qed.

Lemma never_exits_checkEntry b kv : never_exits (checkEntry b kv).
Proof. unfold checkEntry. destruct kv. never_exits_auto. Qed.

Lemma never_exits_updateEntry p b kv : never_exits (updateEntry p b kv).
Proof.
  unfold updateEntry. pose proof never_exits_updateDependency. never_exits_auto.
Qed.

End Returns.

(** ** Extraction and download: what they leave alone *)

Lemma detectRoot_shape (rootDir name : string) :
  (rootDir = "" ∨ ∃ p0, rootDir = p0 +:+ "/") →
  detectRoot rootDir name = "" ∨ ∃ p0, detectRoot rootDir name = p0 +:+ "/".
Proof.
  intros H. unfold detectRoot.
  destruct (Str.is_empty rootDir && Str.Contains name "/"); [ | done ].
  destruct (Str.Split name "/") as [| part0 ?]; [ done | ].
  destruct (Str.Contains part0 "-"); [ | done ].
  right. by exists part0.
Qed.

Lemma writeEntry_frame (target : path) (e : tar_entry) :
  in_deps target = true → steps (fs_kept_at outside) (writeEntry target e).
Proof.
  intros T. unfold writeEntry. steps_auto.
  - apply fs_kept_at_fsop. intros f p Hp.
    apply MkdirAll_frame; [ | done ]. by apply Dir_in_deps.
  - apply fs_kept_at_fsop. intros f p Hp.
    apply create_write_frame. intros ->. congruence.
  - apply fs_kept_at_fsop. intros f p Hp.
    apply MkdirAll_frame; auto.
Qed.

Lemma extractEntries_frame (dest : path) (eof : bool) (es : list tar_entry)
    (rootDir : string) :
  in_deps dest = true →
  (∀ e, e ∈ es → local_name (Name (hdr e))) →
  (rootDir = "" ∨ ∃ p0, rootDir = p0 +:+ "/") →
  steps (fs_kept_at outside) (extractEntries dest rootDir es eof).
Proof.
  intros D. revert rootDir. induction es as [| e es IH]; intros rootDir L Hr; simpl.
  - steps_auto.
  - assert (L' : ∀ e0, e0 ∈ es → local_name (Name (hdr e0))).
    { intros e0 H0. apply L. by right. }
    pose proof (detectRoot_shape rootDir (Name (hdr e)) Hr) as Hd.
    set (root' := detectRoot rootDir (Name (hdr e))) in *.
    destruct (is_xglobal _ || _); [ apply IH; auto | ].
    destruct (is_dir _ && _ && _); [ apply IH; auto | ].
    destruct (Str.is_empty root' || negb (Str.HasPrefix (Name (hdr e)) root')) eqn:C;
      [ apply IH; auto | ].
    destruct (Str.is_empty (Str.TrimPrefix (Name (hdr e)) root')); [ apply IH; auto | ].
    apply orb_false_iff in C as [C1 C2]. apply negb_false_iff in C2.
    destruct Hd as [Hd | [p0 Hd]]; [ by rewrite Hd in C1 | ].
    apply steps_bind.
    + apply writeEntry_frame. apply Join_in_deps; [ done | ].
      rewrite Hd in *. apply local_TrimPrefix; [ done | ]. apply L. left.
    + intros [[] | err]; [ apply IH; eauto | steps_auto ].
Qed.

Section DownloadFrame.

Context {P : Platform}.

Lemma extractTarball_frame (body : option string) (dest : path) :
  in_deps dest = true →
  (∀ tr, targz body = Some tr → local_stream tr) →
  steps (fs_kept_at outside) (extractTarball body dest).
Proof.
  intros D L. unfold extractTarball. steps_auto.
  - apply fs_kept_at_removeAll. intros p Hp.
    destruct (FS.under dest p) eqn:U; [ | done ].
    by rewrite (under_in_deps _ _ D U) in Hp.
  - apply fs_kept_at_fsop. intros f p Hp. apply MkdirAll_frame; auto.
  - apply extractEntries_frame; auto. by apply L.
Qed.

Lemma downloadRepo_frame (owner repo sha repoURL : string) :
  local_remote → in_deps (getDepPath repoURL) = true →
  steps (fs_kept_at outside) (downloadRepo owner repo sha repoURL).
Proof.
  intros L D. unfold downloadRepo. steps_auto.
  - apply fs_kept_at_fsop. intros f p Hp. apply MkdirAll_frame; auto.
  - apply extractTarball_frame; [ done | ]. intros tr. by eapply L.
Qed.

Lemma writeEntry_quiet (target : path) (e : tar_entry) :
  steps (both heap_kept (trace_ext (λ _, False))) (writeEntry target e).
Proof. apply steps_both; unfold writeEntry; steps_auto. Qed.

Lemma extractEntries_quiet (dest : path) (eof : bool) (es : list tar_entry)
    (rootDir : string) :
  steps (both heap_kept (trace_ext (λ _, False))) (extractEntries dest rootDir es eof).
Proof.
  revert rootDir. induction es as [| e es IH]; intros rootDir; simpl.
  - apply steps_both; steps_auto.
  - repeat match goal with
           | |- steps _ (if ?c then _ else _) => destruct c; [ by apply IH | ]
           end.
    apply steps_bind; [ apply writeEntry_quiet | ].
    intros [[] | err]; [ by apply IH | apply steps_both; steps_auto ].
Qed.

(** A download changes no [LockFile] in memory, and adds to the trace
    only its one request and the line it prints on success. *)
Lemma downloadRepo_quiet (owner repo sha repoURL : string) :
  steps (both heap_kept
           (trace_ext (λ e, e = EvGet (tarballAPI owner repo sha)
                            ∨ e = EvPrint (MDownloadedTo (getDepPath repoURL)))))
    (downloadRepo owner repo sha repoURL).
Proof.
  assert (X : ∀ body, steps (both heap_kept
           (trace_ext (λ e, e = EvGet (tarballAPI owner repo sha)
                            ∨ e = EvPrint (MDownloadedTo (getDepPath repoURL)))))
           (extractTarball body (getDepPath repoURL))).
  { intros body. unfold extractTarball.
    apply steps_bind; [ apply steps_both; steps_auto | intros _ ].
    apply steps_bind; [ apply steps_both; steps_auto | intros [[] | err] ];
      [ | apply steps_both; steps_auto ].
    destruct (targz body); [ | apply steps_both; steps_auto ].
    eapply steps_mono; [ | apply extractEntries_quiet ].
    intros w w' [Hh (evs & E & F)]. split; [ done | ].
    exists evs. split; [ done | ]. eapply Forall_impl; [ exact F | done ]. }
  unfold downloadRepo.
  apply steps_bind; [ apply steps_both; steps_auto | intros [[] | err] ];
    [ | apply steps_both; steps_auto ].
  apply steps_httpGet_bind; [ apply steps_both; steps_auto | ].
  destruct (remote _); [ apply steps_both; steps_auto | ].
  destruct (negb _); [ apply steps_both; steps_auto | ].
  apply steps_bind; [ apply X | intros [[] | err]; apply steps_both; steps_auto ].
Qed.

End DownloadFrame.

(** ** The command handlers *)

Section Handlers.

Context {P : Platform}.

Lemma loaded_emptyLock_ledger (f : filesys) : loaded f = emptyLock → ledger f = ∅.
Proof. unfold ledger. by intros ->. Qed.

(** Every handler but [handleGet] starts by loading the Ledger and
    reading its map. *)
Lemma load_entry {B} (f : nat -> M B) (w : World) :
  ∃ p h evs,
    (loadLockFile ≫= f) w
    = f p {| fs := fs w; heap := heap w ++ h; trace := trace w ++ evs |} ∧
    (heap w ++ h) !! p = Some (loaded (fs w)) ∧
    (evs = [] ∨ evs = [EvPrint MWarnLockParse] ∧ ledger (fs w) = ∅).
Proof.
  destruct (loadLockFile_run w) as (p & h & evs & E & Hp & _ & Hev).
  exists p, h, evs. simpl. rewrite (bind_ret_run _ _ _ _ _ E).
  split_and!; auto.
  destruct Hev as [-> | [-> L]]; [ by left | right; split; [ done | ] ].
  by apply loaded_emptyLock_ledger.
Qed.

Lemma dependencies_run (p : nat) (w : World) (v : LockFile) :
  heap w !! p = Some v → dependencies p w = (Ret (deps_of v), w).
Proof. intros E. unfold dependencies. exec. by rewrite E. Qed.

Lemma size_zero_empty (m : gmap string Dependency) : (size m =? 0)%nat = true ↔ m = ∅.
Proof. rewrite Nat.eqb_eq. apply map_size_empty_iff. Qed.

End Handlers.

Ltac enter_handler :=
  lazymatch goal with
  | |- context [mbind ?f loadLockFile ?w] =>
      let E := fresh "E" in
      destruct (load_entry f w) as (p & h & evs & E & Hp & Hev);
      rewrite E; clear E;
      rewrite (bind_ret_run _ _ _ _ _
                 (dependencies_run p {| fs := fs w; heap := heap w ++ h;
                                        trace := trace w ++ evs |} _ Hp));
      fold (ledger (fs w))
  end.

(** C10 (as amended).  A non-empty target key that the Ledger does not
    hold makes [handleUpdate] end the program with exit status 1 after
    reporting the key, provided the Ledger holds some entry; on an empty
    Ledger the earlier guard answers instead and [handleUpdate] returns
    normally after reporting that there are no dependencies.  Either way
    nothing but these lines is added to the trace (no request, no write of
    the lock file) and the file system is untouched. *)
Theorem handleUpdate_unknown_key `{Platform} (key : string) (w : World) :
  key ≠ "" → ledger (fs w) !! key = None →
  ∃ w' evs,
    handleUpdate key w
    = (if decide (ledger (fs w) = ∅) then Ret tt else Exit 1, w') ∧
    fs w' = fs w ∧
    trace w' = trace w ++ evs ++
      [EvPrint (if decide (ledger (fs w) = ∅) then MNoDependencies else MNotInLock key)] ∧
    (evs = [] ∨ evs = [EvPrint MWarnLockParse]).
Proof.
  intros NE L. unfold handleUpdate. enter_handler.
  destruct (decide (ledger (fs w) = ∅)) as [Em | Em].
  - apply size_zero_empty in Em. rewrite Em. exec.
    eexists _, evs. split; [ reflexivity | ]. simpl.
    rewrite <- app_assoc. split_and!; auto. destruct Hev as [-> | [-> _]]; auto.
  - destruct (size (ledger (fs w)) =? 0)%nat eqn:Z; [ by apply size_zero_empty in Z | ].
    rewrite (is_empty_false _ NE), L. exec.
    eexists _, evs. split; [ reflexivity | ]. simpl.
    rewrite <- app_assoc. split_and!; auto. destruct Hev as [-> | [-> ?]]; auto.
Qed.

(** With no lock file the Ledger is empty, and an unknown key is answered
    by a normal return, not by a fatal error. *)
Lemma handleUpdate_unknown_key_not_fatal :
  let P := Demo.platform [] [] in
  let w := Demo.world ∅ in
  ledger (fs w) !! "github.com/o/r" = None ∧
  (handleUpdate "github.com/o/r" w).1 = Ret tt ∧
  trace (handleUpdate "github.com/o/r" w).2 = [EvPrint MNoDependencies] ∧
  ¬ ∃ code, code ≠ 0%Z ∧ (handleUpdate "github.com/o/r" w).1 = Exit code.
Proof.
  intros P w.
  assert (E : (handleUpdate "github.com/o/r" w).1 = Ret tt) by (vm_compute; reflexivity).
  split_and!; [ vm_compute; reflexivity | exact E | vm_compute; reflexivity | ].
  intros (code & _ & X). rewrite E in X. discriminate X.
Qed.

Lemma handleUpdate_unknown_key_witness :
  let P := Demo.platform [] [] in
  let w := Demo.world Demo.lock_one in
  "github.com/x/y" ≠ "" ∧ ledger (fs w) !! "github.com/x/y" = None ∧
  (handleUpdate "github.com/x/y" w).1 = Exit 1.
Proof.
  intros P w.
  assert (NE : "github.com/x/y" ≠ "") by discriminate.
  assert (L : ledger (fs w) !! "github.com/x/y" = None) by (vm_compute; reflexivity).
  split; [ exact NE | split; [ exact L | ] ].
  destruct (handleUpdate_unknown_key "github.com/x/y" w NE L) as (w' & evs & E & _).
  rewrite E. simpl.
  destruct (decide (ledger (fs w) = ∅)) as [Em |]; [ exfalso | reflexivity ].
  assert (X : ledger (fs w) !! "github.com/o/r"
              = Some {| Ref := "main"; SHA := Demo.sha_a |}) by (vm_compute; reflexivity).
  rewrite Em, lookup_empty in X. discriminate X.
Defined.

(** ** Short identifiers *)

Lemma slice_short (s : string) : (String.length s < 8)%nat → Str.slice_to 8 s = None.
Proof.
  intros L. unfold Str.slice_to.
  destruct (Nat.leb_spec 8 (String.length s)); [ lia | done ].
Qed.

Lemma slice_long (s : string) :
  (8 ≤ String.length s)%nat → Str.slice_to 8 s = Some (String.substring 0 8 s).
Proof.
  intros L. unfold Str.slice_to. destruct (8 <=? String.length s)%nat eqn:E; [ done | ].
  apply Nat.leb_gt in E. lia.
Qed.

Lemma first8_short (s : string) (w : World) :
  (String.length s < 8)%nat → first8 s w = (Panic, w).
Proof. intros L. unfold first8. by rewrite (slice_short s L). Qed.

(** A loop whose body never exits and panics at one of the items, in
    every world the loop can reach, panics. *)
Lemma for_fold_panics {A S} (I : World -> Prop) (l : list A) (body : S -> A -> M S)
    (x0 : A) :
  x0 ∈ l →
  (∀ s x, never_exits (body s x)) →
  (∀ s x w, I w → I (body s x w).2) →
  (∀ s w, I w → (body s x0 w).1 = Panic) →
  ∀ s w, I w → (for_fold l s body w).1 = Panic.
Proof.
  intros Hin Hne Hinv Hp. induction l as [| x l IH]; intros s w Iw.
  - by apply elem_of_nil in Hin.
  - simpl. rewrite bind_run.
    apply elem_of_cons in Hin as [<- | Hin].
    + specialize (Hp s w Iw). destruct (body s x0 w) as [[] ?]; simpl in *; done.
    + pose proof (Hinv s x w Iw) as I'. pose proof (Hne s x w) as N.
      destruct (body s x w) as [[s' | n |] w']; simpl in *.
      * by apply IH.
      * by destruct (N n).
      * done.
Qed.

Lemma for_each_panics {A} (I : World -> Prop) (l : list A) (body : A -> M unit)
    (x0 : A) :
  x0 ∈ l →
  (∀ x, never_exits (body x)) →
  (∀ x w, I w → I (body x w).2) →
  (∀ w, I w → (body x0 w).1 = Panic) →
  ∀ w, I w → (for_each l body w).1 = Panic.
Proof.
  intros Hin Hne Hinv Hp. induction l as [| x l IH]; intros w Iw.
  - by apply elem_of_nil in Hin.
  - simpl. rewrite bind_run.
    apply elem_of_cons in Hin as [<- | Hin].
    + specialize (Hp w Iw). destruct (body x0 w) as [[] ?]; simpl in *; done.
    + pose proof (Hinv x w Iw) as I'. pose proof (Hne x w) as N.
      destruct (body x w) as [[s' | n |] w']; simpl in *.
      * by apply IH.
      * by destruct (N n).
      * done.
Qed.

Lemma bind_panics {A B} (c : M A) (k : A -> M B) (w : World) :
  (c w).1 = Panic → ((c ≫= k) w).1 = Panic.
Proof. intros E. rewrite bind_run. by destruct (c w) as [[] ?]. Qed.

Section Short.

Context {P : Platform}.

Lemma installEntry_short (k : string) (d : Dependency) (w : World) :
  (String.length (SHA d) < 8)%nat → (installEntry (k, d) w).1 = Panic.
Proof.
  intros L. unfold installEntry, checkDependency. exec.
  destruct (FS.Stat (fs w) (getDepPath k)) as [[] |]; simpl;
    by rewrite (first8_short _ _ L).
Qed.

Lemma checkEntry_short (b : bool) (k : string) (d : Dependency) (w : World) :
  (String.length (SHA d) < 8)%nat →
  FS.Stat (fs w) (getDepPath k) ≠ inl ENOENT →
  (checkEntry b (k, d) w).1 = Panic.
Proof.
  intros L S. unfold checkEntry, checkDependency. exec.
  destruct (FS.Stat (fs w) (getDepPath k)) as [[] |]; simpl; try done;
    by rewrite (first8_short _ _ L).
Qed.

Lemma checkEntry_fs_kept (b : bool) (kv : string * Dependency) :
  steps fs_kept (checkEntry b kv).
Proof. unfold checkEntry, checkDependency. destruct kv. steps_auto. Qed.

Lemma updateDependency_short (k owner repo : string) (d : Dependency) (p : nat)
    (x : string * string) (w : World) :
  (String.length (SHA d) < 8)%nat →
  parseGitHubURL k = Ok (owner, repo) →
  resolution owner repo (Ref d) = Ok x →
  (updateDependency k d p w).1 = Panic.
Proof.
  intros L Hk Hr. unfold updateDependency. rewrite Hk.
  rewrite (bind_ret_run _ _ _ _ _ (resolveRef_run owner repo (Ref d) w)), Hr.
  destruct x as [currentSHA currentRef].
  destruct (String.eqb currentSHA (SHA d)); exec; by rewrite (first8_short _ _ L).
Qed.

End Short.

(** ** The wrapper directory *)

Lemma is_empty_app_slash (w : string) : Str.is_empty (w +:+ "/") = false.
Proof. by destruct w. Qed.

Lemma drop_last_app_slash (w : string) : Str.drop_last (w +:+ "/") = w.
Proof.
  induction w as [| a w IH]; [ done | ].
  rewrite append_cons. simpl. rewrite IH.
  destruct w; [ done | by rewrite append_cons ].
Qed.

Lemma length_app_slash (w : string) : String.length (w +:+ "/") = S (String.length w).
Proof. induction w as [| a w IH]; [ done | ]. rewrite append_cons. simpl. by rewrite IH. Qed.

Lemma prefix_cons (a b : ascii) (p s : string) :
  String.prefix (String a p) (String b s)
  = if ascii_dec a b then String.prefix p s else false.
Proof. reflexivity. Qed.

Lemma prefix_longer (w : string) : String.prefix (w +:+ "/") w = false.
Proof.
  induction w as [| a w IH]; [ done | ].
  rewrite append_cons, prefix_cons. by destruct (ascii_dec a a).
Qed.

Lemma prefix_slash_Contains (w name : string) :
  String.prefix (w +:+ "/") name = true → Str.Contains name "/" = true.
Proof.
  revert name. induction w as [| a w IH]; intros name.
  - rewrite append_nil. destruct name as [| b name]; [ done | ].
    rewrite prefix_cons. destruct (ascii_dec "/" b) as [<- | ]; [ | done ].
    intros _. cbn [Str.Contains]. by rewrite Ascii.eqb_refl.
  - rewrite append_cons. destruct name as [| b name]; [ done | ].
    rewrite prefix_cons. destruct (ascii_dec a b); [ | done ].
    intros E. cbn [Str.Contains]. rewrite (IH _ E). apply orb_true_r.
Qed.

Lemma skip_empty_iff (root name : string) :
  String.prefix root name = true →
  Str.is_empty (Str.skip (String.length root) name) = String.eqb name root.
Proof.
  revert name. induction root as [| a root IH]; intros name.
  - destruct name; done.
  - destruct name as [| b name]; [ done | ].
    rewrite prefix_cons. destruct (ascii_dec a b) as [<- | N]; [ | done ].
    intros E. cbn [String.length Str.skip String.eqb]. rewrite (IH _ E).
    by rewrite Ascii.eqb_refl.
Qed.

Lemma detectRoot_set (root name : string) :
  Str.is_empty root = false → detectRoot root name = root.
Proof. intros E. unfold detectRoot. by rewrite E. Qed.

Lemma detectRoot_flat (name : string) :
  Str.Contains name "/" = false → detectRoot "" name = "".
Proof. intros E. unfold detectRoot. by rewrite E. Qed.

Lemma detectRoot_first (name : string) :
  Str.Contains name "/" = true → Str.Contains (first_segment name) "-" = true →
  detectRoot "" name = first_segment name +:+ "/".
Proof.
  intros E1 E2. unfold detectRoot, first_segment in *. rewrite E1. simpl.
  pose proof (Split_not_nil name "/").
  destruct (Str.Split name "/") as [| part0 ?]; [ done | ]. by rewrite E2.
Qed.

(** Once the wrapper is known, the loop writes exactly the entries under
    it, each at its name less the wrapper prefix. *)
Lemma extractEntries_under (dest : path) (wrapper : string) (eof : bool)
    (es : list tar_entry) :
  extractEntries dest (wrapper +:+ "/") es eof
  = write_stripped dest (S (String.length wrapper)) (List.filter (kept wrapper) es) eof.
Proof.
  induction es as [| e es IH]; [ done | ].
  cbn [extractEntries List.filter]. unfold kept at 1. fold (is_meta e).
  destruct (is_meta e); simpl; [ exact IH | ].
  rewrite (detectRoot_set _ _ (is_empty_app_slash wrapper)).
  rewrite is_empty_app_slash, drop_last_app_slash. simpl. rewrite andb_true_r.
  destruct (is_dir (Typeflag (hdr e)) && String.eqb (Name (hdr e)) wrapper) eqn:C1.
  { apply andb_true_iff in C1 as [_ C1]. apply String.eqb_eq in C1.
    unfold Str.HasPrefix. rewrite C1, prefix_longer. simpl. exact IH. }
  destruct (Str.HasPrefix (Name (hdr e)) (wrapper +:+ "/")) eqn:C2; simpl; [ | exact IH ].
  unfold Str.TrimPrefix. rewrite C2.
  rewrite (skip_empty_iff _ _ C2).
  destruct (String.eqb (Name (hdr e)) (wrapper +:+ "/")); simpl; [ exact IH | ].
  rewrite length_app_slash. by rewrite IH.
Qed.

(** C6.  When the first entry, metadata aside, whose name contains a
    separator has a hyphen in its first path segment, that segment is the
    wrapper: after clearing and creating the destination, extraction
    writes exactly the entries whose names lie under the wrapper prefix,
    each at the destination joined with its name less that prefix.  The
    entry of the wrapper directory itself and every entry outside the
    wrapper are skipped. *)
Theorem extractTarball_strips_wrapper `{Platform} (body : option string) (tr : tar_stream)
    (dest : path) (e0 : tar_entry) :
  targz body = Some tr →
  first_nested (entries tr) = Some e0 →
  Str.Contains (first_segment (Name (hdr e0))) "-" = true →
  let wrapper := first_segment (Name (hdr e0)) in
  extractTarball body dest
  = (removeAll dest ;;
     m ← fsop (λ f, FS.MkdirAll f dest 493);
     match m with
     | Err err => mret (Err err)
     | Ok _ =>
         write_stripped dest (S (String.length wrapper))
           (List.filter (kept wrapper) (entries tr)) (clean_eof tr)
     end)%cmd.
Proof.
  intros Htr Hfirst Hhyph wrapper. unfold extractTarball. rewrite Htr.
  assert (X : extractEntries dest "" (entries tr) (clean_eof tr)
              = write_stripped dest (S (String.length wrapper))
                  (List.filter (kept wrapper) (entries tr)) (clean_eof tr));
    [ | by rewrite X ].
  generalize (clean_eof tr). revert Hfirst. generalize (entries tr). clear Htr.
  intros es Hfirst eof. induction es as [| e es IH]; [ done | ].
  unfold first_nested in Hfirst. cbn [List.find] in Hfirst.
  destruct (is_meta e) eqn:Meta.
  - simpl in Hfirst. cbn [extractEntries List.filter]. unfold kept at 1.
    rewrite Meta. unfold is_meta in Meta. rewrite Meta. simpl. by apply IH.
  - simpl in Hfirst.
    destruct (Str.Contains (Name (hdr e)) "/") eqn:Slash.
    + injection Hfirst as ->.
      rewrite <- extractEntries_under.
      cbn [extractEntries]. fold (is_meta e0). rewrite Meta.
      rewrite (detectRoot_first _ Slash Hhyph).
      by rewrite (detectRoot_set _ _ (is_empty_app_slash wrapper)).
    + cbn [extractEntries List.filter]. fold (is_meta e). rewrite Meta.
      rewrite (detectRoot_flat _ Slash). simpl.
      rewrite andb_false_r. simpl.
      unfold kept at 1. rewrite Meta. simpl.
      destruct (Str.HasPrefix (Name (hdr e)) (wrapper +:+ "/")) eqn:Pre.
      * apply prefix_slash_Contains in Pre. congruence.
      * simpl. by apply IH.
Qed.

(** The example of the specification: [repo-abc123/src/a.txt] and the
    directory entry [repo-abc123/], extracted to [/out]. *)
Lemma extractTarball_strips_wrapper_witness :
  let P := Demo.platform [] [("ex", Demo.example_archive)] in
  let out : path := (true, ["out"]) in
  targz (Some "ex") = Some Demo.example_archive ∧
  first_nested (entries Demo.example_archive)
  = Some (Demo.reg "repo-abc123/src/a.txt" "hello") ∧
  Str.Contains (first_segment "repo-abc123/src/a.txt") "-" = true ∧
  ∃ w', extractTarball (Some "ex") out (Demo.world ∅) = (Ret (Ok tt), w') ∧
        fs w' = {[ (true, ["out"]) := DirNode 493;
                   (true, ["out"; "src"]) := DirNode 493;
                   (true, ["out"; "src"; "a.txt"]) := FileNode 420 "hello" ]}.
Proof.
  intros P out.
  assert (H1 : targz (Some "ex") = Some Demo.example_archive) by reflexivity.
  assert (H2 : first_nested (entries Demo.example_archive)
               = Some (Demo.reg "repo-abc123/src/a.txt" "hello")) by reflexivity.
  assert (H3 : Str.Contains (first_segment (Name (hdr (Demo.reg "repo-abc123/src/a.txt" "hello"))))
                 "-" = true) by reflexivity.
  split_and!; [ exact H1 | exact H2 | exact H3 | ].
  rewrite (extractTarball_strips_wrapper (Some "ex") Demo.example_archive out _ H1 H2 H3).
  eexists. split; [ vm_compute; reflexivity | ].
  match goal with |- ?X = ?Y => apply (bool_decide_eq_true_1 (X = Y)) end.
  vm_compute. reflexivity.
Defined.

(** ** Regular files *)

(** C7 (evaluation at the failing input).  An archive that holds
    [repo-abc123/a.txt] twice, first with 11 bytes and then with 3: the
    second entry is written over the start of the file the first one left,
    which is opened without truncation, and the result is neither entry's
    content. *)
Theorem extractTarball_no_truncation :
  let P := Demo.platform [] [("tw", Demo.twice_archive)] in
  let out : path := (true, ["out"]) in
  ∃ w', extractTarball (Some "tw") out (Demo.world ∅) = (Ret (Ok tt), w') ∧
        fs w' !! (true, ["out"; "a.txt"]) = Some (FileNode 420 "byelo world") ∧
        last (map content (entries Demo.twice_archive)) = Some "bye".
Proof.
  intros P out. eexists. split; [ vm_compute; reflexivity | ].
  split; [ vm_compute; reflexivity | reflexivity ].
Qed.

(** ** Update *)

Lemma trace_ext_mono (ok ok' : event -> Prop) (w w' : World) :
  (∀ e, ok e → ok' e) → trace_ext ok w w' → trace_ext ok' w w'.
Proof.
  intros H (evs & E & F). exists evs. split; [ done | ].
  eapply Forall_impl; [ exact F | done ].
Qed.

Lemma saves_app (a b : list event) : saves (a ++ b) = (saves a + saves b)%nat.
Proof. unfold saves. by rewrite List.filter_app, length_app. Qed.

Lemma saves_quiet (evs : list event) : Forall (λ e, is_save e = false) evs → saves evs = 0%nat.
Proof.
  unfold saves. induction 1 as [| e evs He _ IH]; [ done | ].
  simpl. by rewrite He.
Qed.


Lemma elem_of_concat_map {A B} (f : A -> list B) (l : list A) (x : A) (y : B) :
  y ∈ f x → x ∈ l → y ∈ concat (map f l).
Proof.
  intros Hy. induction l as [| a l IH]; intros Hx.
  - by apply elem_of_nil in Hx.
  - simpl. apply elem_of_app. apply elem_of_cons in Hx as [<- | Hx]; auto.
Qed.

Section Update.

Context {P : Platform}.

Lemma resolveRef_no_save o r ref : steps (trace_ext no_save) (resolveRef o r ref).
Proof.
  eapply steps_mono; [ | apply resolveRef_only_calls ].
  intros w w'. apply trace_ext_mono. by intros [].
Qed.

Lemma downloadRepo_no_save o r sha k : steps (trace_ext no_save) (downloadRepo o r sha k).
Proof.
  eapply steps_mono; [ | apply (steps_both_r _ _ _ (downloadRepo_quiet o r sha k)) ].
  intros w w'. apply trace_ext_mono. by intros e [-> | ->].
Qed.

Lemma map_assign_no_save p k d : steps (trace_ext no_save) (map_assign p k d).
Proof. unfold map_assign. steps_auto. Qed.

Lemma map_assign_fs_kept p k d : steps fs_kept (map_assign p k d).
Proof. unfold map_assign. steps_auto. Qed.

Lemma updateDependency_no_save k d p :
  steps (trace_ext no_save) (updateDependency k d p).
Proof.
  pose proof resolveRef_no_save. pose proof downloadRepo_no_save.
  pose proof map_assign_no_save.
  unfold updateDependency. steps_auto.
Qed.

Lemma updateEntry_no_save p b kv : steps (trace_ext no_save) (updateEntry p b kv).
Proof. pose proof updateDependency_no_save. unfold updateEntry. steps_auto. Qed.

Lemma loadLockFile_no_save : steps (trace_ext no_save) loadLockFile.
Proof.
  intros w. destruct (loadLockFile_run w) as (p & h & evs & E & _ & _ & Hev).
  rewrite E. exists evs. split; [ done | ].
  destruct Hev as [-> | [-> _]]; by repeat constructor.
Qed.

(** A command that saves nothing adds no save to the trace. *)
Lemma no_save_saves {A} (c : M A) (w : World) :
  steps (trace_ext no_save) c →
  ∃ evs, trace (c w).2 = trace w ++ evs ∧ saves evs = 0%nat.
Proof.
  intros H. destruct (H w) as (evs & E & F). exists evs. split; [ done | ].
  by apply saves_quiet.
Qed.

(** [updateDependency] answers true only for an entry the remote has
    moved. *)
Lemma updateDependency_true k d p w w' :
  updateDependency k d p w = (Ret true, w') → changed k d.
Proof.
  unfold updateDependency.
  destruct (parseGitHubURL k) as [[owner repo] | err] eqn:Hk; [ | by exec ].
  rewrite (bind_ret_run _ _ _ _ _ (resolveRef_run owner repo (Ref d) w)).
  destruct (resolution owner repo (Ref d)) as [[sha cref] | err] eqn:Hr; [ | by exec ].
  destruct (String.eqb_spec sha (SHA d)) as [-> | N].
  - unfold first8. destruct (Str.slice_to 8 (SHA d)); by exec.
  - intros _. by exists owner, repo, sha, cref.
Qed.

Lemma updateLoop_true p l s w w' :
  for_fold l s (updateEntry p) w = (Ret true, w') →
  s = true ∨ ∃ kv, kv ∈ l ∧ changed kv.1 kv.2.
Proof.
  revert s w. induction l as [| kv l IH]; intros s w; simpl.
  - intros [= -> _]. by left.
  - rewrite bind_run. unfold updateEntry at 1. rewrite bind_run.
    destruct (updateDependency kv.1 kv.2 p w) as [[u | n |] w1] eqn:U; simpl; try done.
    intros E. apply IH in E as [E | (kv' & Hin & C)].
    + destruct u.
      * right. exists kv. split; [ left | by eapply updateDependency_true ].
      * by left.
    + right. exists kv'. split; [ by right | done ].
Qed.

(** For an entry in sync whose identifier has its 8 bytes, the update
    only resolves and reports. *)
Lemma updateDependency_in_sync k d p w :
  in_sync k d → (8 ≤ String.length (SHA d))%nat →
  updateDependency k d p w = (Ret false, log w (sync_events (k, d))).
Proof.
  intros (owner & repo & cref & Hk & Hr) L.
  unfold updateDependency, sync_events. simpl. rewrite Hk.
  rewrite (bind_ret_run _ _ _ _ _ (resolveRef_run owner repo (Ref d) w)), Hr.
  rewrite String.eqb_refl. unfold first8, Str.slice_to.
  destruct (Nat.leb_spec 8 (String.length (SHA d))); [ | lia ].
  exec. by rewrite <- app_assoc.
Qed.

Lemma updateLoop_in_sync p l w :
  (∀ kv, kv ∈ l → in_sync kv.1 kv.2 ∧ (8 ≤ String.length (SHA kv.2))%nat) →
  for_fold l false (updateEntry p) w
  = (Ret false, log w (concat (map sync_events l))).
Proof.
  revert w. induction l as [| kv l IH]; intros w H; simpl.
  - by rewrite log_nil.
  - destruct (H kv) as [S L]; [ left | ].
    rewrite bind_run. unfold updateEntry at 1. rewrite bind_run.
    destruct kv as [k d]. simpl in *.
    rewrite (updateDependency_in_sync k d p w S L). simpl.
    rewrite IH; [ by rewrite log_log | ].
    intros kv' Hin. apply H. by right.
Qed.

(** Saving writes the lock file at most once and touches no object in
    memory. *)
Lemma saveLockFile_once p w :
  ∃ evs, trace (saveLockFile p w).2 = trace w ++ evs ∧ (saves evs ≤ 1)%nat.
Proof.
  unfold saveLockFile, deref, writeFile, fsop. rewrite bind_run.
  destruct (heap w !! p) as [v |]; simpl.
  - destruct (json_indent v) as [data |]; simpl.
    + destruct (FS.WriteFile (fs w) lockPath data 420) as [e f]. simpl.
      exists [EvWriteFile lockPath data]. split; [ done | unfold saves; simpl; try lia ].
    + exists []. rewrite app_nil_r. split; [ done | unfold saves; simpl; try lia ].
  - exists []. rewrite app_nil_r. split; [ done | unfold saves; simpl; try lia ].
Qed.

(** The end of [handleUpdate]: one save when something was updated,
    nothing otherwise. *)
Lemma update_tail_once p (updated : bool) w :
  let tail : M unit :=
    if updated then
      x ← saveLockFile p;
      match x with
      | Err err => print (MErrSaving err) ;; exit 1
      | Ok _ => mret tt
      end
    else mret tt in
  ∃ evs, trace (tail w).2 = trace w ++ evs ∧ (saves evs ≤ 1)%nat ∧
         (updated = false → evs = [] ∧ tail w = (Ret tt, w)).
Proof.
  destruct updated; simpl.
  - destruct (saveLockFile_once p w) as (evs & E & S).
    rewrite bind_run. destruct (saveLockFile p w) as [[[[] | err] | n |] w1]; simpl in *.
    + exists evs. split_and!; auto. done.
    + exec. exists (evs ++ [EvPrint (MErrSaving err)]).
      rewrite E, <- app_assoc. split_and!; auto; [ | done ].
      rewrite saves_app. unfold saves at 2. simpl. lia.
    + exists evs. split_and!; auto. done.
    + exists evs. split_and!; auto. done.
  - exists []. rewrite app_nil_r. split_and!; auto.
Qed.

Lemma handleUpdate_once (target : string) (w : World) :
  (∀ m, range_order m ≡ₚ map_to_list m) →
  ∃ evs,
    trace (handleUpdate target w).2 = trace w ++ evs ∧
    (saves evs ≤ 1)%nat ∧
    (saves evs = 1%nat →
     ∃ k d, ledger (fs w) !! k = Some d ∧ targeted target k ∧ changed k d).
Proof.
  intros Hperm. unfold handleUpdate. enter_handler.
  assert (S0 : saves evs = 0%nat) by (by destruct Hev as [-> | [-> _]]).
  set (w1 := {| fs := fs w; heap := heap w ++ h; trace := trace w ++ evs |}).
  destruct (size (ledger (fs w)) =? 0)%nat.
  { exec. exists (evs ++ [EvPrint MNoDependencies]). rewrite <- app_assoc.
    split; [ done | ]. rewrite saves_app, S0. unfold saves at 1 2. simpl. split; [ lia | lia ]. }
  rewrite bind_run.
  destruct (Str.is_empty target) eqn:T; simpl.
  - (* every entry *)
    rewrite (bind_run (print _)). unfold print at 1. cbn beta iota.
    set (w1' := log w1 [EvPrint (MCheckingUpdates (size (ledger (fs w))))]).
    rewrite (bind_run (for_fold _ _ _)).
    pose proof (steps_for_fold (R := trace_ext no_save) (range_order (ledger (fs w))) false
                  (updateEntry p) (λ s x _, updateEntry_no_save p s x) w1') as (evs1 & E1 & F1).
    apply saves_quiet in F1.
    destruct (for_fold (range_order (ledger (fs w))) false (updateEntry p) w1')
      as [[u | n |] w2] eqn:Loop; simpl in E1.
    + rewrite (bind_run (if u then _ else _)). destruct u.
      * destruct (update_tail_once p true w2) as (evs2 & E2 & S2 & _).
        cbn beta iota zeta in E2 |- *. unfold mret at 1 2, M_ret at 1 2.
        cbn beta iota.
        exists (evs ++ [EvPrint (MCheckingUpdates (size (ledger (fs w))))] ++ evs1 ++ evs2).
        split; [ rewrite E2, E1; by rewrite <- ?app_assoc | ].
        rewrite !saves_app, S0, F1. unfold saves at 1. simpl. split; [ lia | ].
        intros _.
        apply updateLoop_true in Loop as [? | ([k d] & Hin & C)]; [ done | ].
        exists k, d. split_and!; [ | left; by apply is_empty_true | done ].
        apply elem_of_map_to_list. by rewrite <- Hperm.
      * unfold print, mret, M_ret. cbn beta iota. unfold log. cbn [trace snd].
        exists (evs ++ [EvPrint (MCheckingUpdates (size (ledger (fs w))))] ++ evs1
                ++ [EvPrint MAllUpToDate]).
        split; [ rewrite E1; by rewrite <- ?app_assoc | ].
        rewrite !saves_app, S0, F1. unfold saves. simpl. split; lia.
    + cbn [snd].
      exists (evs ++ [EvPrint (MCheckingUpdates (size (ledger (fs w))))] ++ evs1).
      split; [ rewrite E1; by rewrite <- ?app_assoc | ].
      rewrite !saves_app, S0, F1. unfold saves at 1. simpl. split; lia.
    + cbn [snd].
      exists (evs ++ [EvPrint (MCheckingUpdates (size (ledger (fs w))))] ++ evs1).
      split; [ rewrite E1; by rewrite <- ?app_assoc | ].
      rewrite !saves_app, S0, F1. unfold saves at 1. simpl. split; lia.
  - (* one entry *)
    destruct (ledger (fs w) !! target) as [d |] eqn:L.
    + destruct (no_save_saves (updateDependency target d p) w1
                  (updateDependency_no_save target d p)) as (evs1 & E1 & S1).
      destruct (updateDependency target d p w1) as [[u | n |] w2] eqn:U; simpl in E1.
      * destruct (update_tail_once p u w2) as (evs2 & E2 & S2 & U2). simpl in *.
        exists (evs ++ evs1 ++ evs2).
        split; [ rewrite E2, E1; by rewrite <- ?app_assoc | ].
        rewrite !saves_app, S0, S1. split; [ lia | ].
        intros S. destruct u.
        -- exists target, d. split_and!; [ done | by right | by eapply updateDependency_true ].
        -- destruct U2 as [-> _]; [ done | ]. unfold saves in S. simpl in S. lia.
      * cbn [snd]. exists (evs ++ evs1). split; [ rewrite E1; by rewrite <- ?app_assoc | ].
        rewrite !saves_app, S0, S1. split; lia.
      * cbn [snd]. exists (evs ++ evs1). split; [ rewrite E1; by rewrite <- ?app_assoc | ].
        rewrite !saves_app, S0, S1. split; lia.
    + exec. exists (evs ++ [EvPrint (MNotInLock target)]). rewrite <- app_assoc.
      split; [ done | ]. rewrite saves_app, S0. unfold saves at 1 2. simpl. split; lia.
Qed.

Lemma resolution_calls_no_save o r ref : Forall no_save (resolution_calls o r ref).
Proof.
  destruct (resolveRef_no_save o r ref blank) as (evs & E & F).
  unfold resolution_calls. by rewrite E.
Qed.

Lemma sync_events_no_save kv : Forall no_save (sync_events kv).
Proof.
  unfold sync_events. destruct (parseGitHubURL kv.1) as [[o r] | err]; [ | done ].
  apply Forall_app. split; [ apply resolution_calls_no_save | by repeat constructor ].
Qed.

Lemma sync_events_reports k d :
  in_sync k d →
  EvPrint (MNoUpdate k (Ref d) (String.substring 0 8 (SHA d))) ∈ sync_events (k, d).
Proof.
  intros (o & r & cref & Hk & _). unfold sync_events. simpl. rewrite Hk.
  apply elem_of_app. right. apply list_elem_of_here.
Qed.

Lemma handleUpdate_in_sync (target : string) (w : World) :
  (∀ m, range_order m ≡ₚ map_to_list m) →
  (∀ k d, ledger (fs w) !! k = Some d → targeted target k →
          in_sync k d ∧ (8 ≤ String.length (SHA d))%nat) →
  ∃ o h evs,
    handleUpdate target w
    = (o, {| fs := fs w; heap := heap w ++ h; trace := trace w ++ evs |}) ∧
    o ≠ Panic ∧
    saves evs = 0%nat ∧
    (∀ k d, ledger (fs w) !! k = Some d → targeted target k →
            EvPrint (MNoUpdate k (Ref d) (String.substring 0 8 (SHA d))) ∈ evs).
Proof.
  intros Hperm Hsync. unfold handleUpdate. enter_handler.
  assert (S0 : saves evs = 0%nat) by (by destruct Hev as [-> | [-> _]]).
  set (w1 := {| fs := fs w; heap := heap w ++ h; trace := trace w ++ evs |}).
  destruct (size (ledger (fs w)) =? 0)%nat eqn:Z.
  { exec. exists (Ret tt), h, (evs ++ [EvPrint MNoDependencies]). rewrite <- app_assoc.
    split_and!; try done.
    - by rewrite saves_app, S0.
    - intros k d L. apply size_zero_empty in Z. by rewrite Z, lookup_empty in L. }
  rewrite bind_run.
  destruct (Str.is_empty target) eqn:T; simpl.
  - rewrite (bind_run (print _)). unfold print at 1. cbn beta iota.
    rewrite (bind_run (for_fold _ _ _)).
    rewrite updateLoop_in_sync.
    2:{ intros [k d] Hin. apply Hsync; [ | left; by apply is_empty_true ].
        apply elem_of_map_to_list. by rewrite <- Hperm. }
    exec.
    exists (Ret tt), h, (evs ++ [EvPrint (MCheckingUpdates (size (ledger (fs w))))]
            ++ concat (map sync_events (range_order (ledger (fs w))))
            ++ [EvPrint MAllUpToDate]).
    split_and!; try done.
    + by rewrite <- !app_assoc.
    + rewrite !saves_app, S0. unfold saves at 1 3. simpl.
      rewrite saves_quiet; [ done | ].
      apply Forall_concat, Forall_map, Forall_forall. intros kv _.
      apply sync_events_no_save.
    + intros k d L _. apply elem_of_app. right. apply elem_of_cons. right.
      apply elem_of_app. left. apply (elem_of_concat_map _ _ (k, d)).
      * apply sync_events_reports. apply Hsync; [ done | left; by apply is_empty_true ].
      * rewrite Hperm. by apply elem_of_map_to_list.
  - destruct (ledger (fs w) !! target) as [d |] eqn:L.
    + destruct (Hsync target d L) as [S Len]; [ by right | ].
      rewrite (updateDependency_in_sync target d p w1 S Len). exec.
      exists (Ret tt), h, (evs ++ sync_events (target, d)).
      split_and!; try done.
      * by rewrite <- !app_assoc.
      * rewrite saves_app, S0. by rewrite (saves_quiet _ (sync_events_no_save _)).
      * intros k d' L' [Tk | <-].
        -- by rewrite Tk in T.
        -- rewrite L in L'. injection L' as <-.
           apply elem_of_app. right. by apply sync_events_reports.
    + exec. exists (Exit 1), h, (evs ++ [EvPrint (MNotInLock target)]). rewrite <- app_assoc.
      split_and!; try done.
      * by rewrite saves_app, S0.
      * intros k d' L' [Tk | <-]; [ by rewrite Tk in T | congruence ].
Qed.

(** An entry the remote has not moved is never fetched. *)
Lemma updateDependency_unchanged k d p w :
  ¬ changed k d →
  (updateDependency k d p w).1 ≠ Ret true ∧ fs (updateDependency k d p w).2 = fs w.
Proof.
  intros N. unfold updateDependency.
  destruct (parseGitHubURL k) as [[owner repo] | err] eqn:Hk; [ | by exec ].
  rewrite (bind_ret_run _ _ _ _ _ (resolveRef_run owner repo (Ref d) w)).
  destruct (resolution owner repo (Ref d)) as [[sha cref] | err] eqn:Hr; [ | by exec ].
  destruct (String.eqb_spec sha (SHA d)) as [-> | Ne].
  - unfold first8. destruct (Str.slice_to 8 (SHA d)); by exec.
  - destruct N. by exists owner, repo, sha, cref.
Qed.

Lemma updateLoop_unchanged p l w :
  (∀ kv, kv ∈ l → ¬ changed kv.1 kv.2) →
  (for_fold l false (updateEntry p) w).1 ≠ Ret true ∧
  fs (for_fold l false (updateEntry p) w).2 = fs w.
Proof.
  revert w. induction l as [| kv l IH]; intros w H; simpl; [ done | ].
  rewrite bind_run. unfold updateEntry at 1 3. rewrite bind_run.
  destruct (updateDependency_unchanged kv.1 kv.2 p w) as [N F]; [ apply H; left | ].
  destruct (updateDependency kv.1 kv.2 p w) as [[[] | n |] w1]; simpl in *; try done.
  destruct (IH w1) as [N' F']; [ intros kv' Hin; apply H; by right | ].
  split; [ done | congruence ].
Qed.

Lemma handleUpdate_unchanged (target : string) (w : World) :
  (∀ m, range_order m ≡ₚ map_to_list m) →
  (∀ k d, ledger (fs w) !! k = Some d → targeted target k → ¬ changed k d) →
  fs (handleUpdate target w).2 = fs w.
Proof.
  intros Hperm Hun. unfold handleUpdate. enter_handler.
  set (w1 := {| fs := fs w; heap := heap w ++ h; trace := trace w ++ evs |}).
  destruct (size (ledger (fs w)) =? 0)%nat; [ by exec | ].
  rewrite bind_run.
  destruct (Str.is_empty target) eqn:T; simpl.
  - rewrite (bind_run (print _)). unfold print at 1. cbn beta iota.
    rewrite (bind_run (for_fold _ _ _)).
    match goal with |- context [for_fold ?l false ?b ?w0] =>
      destruct (updateLoop_unchanged p l w0) as [N F]
    end.
    { intros [k d] Hin. apply Hun; [ | left; by apply is_empty_true ].
      apply elem_of_map_to_list. by rewrite <- Hperm. }
    match goal with |- context [for_fold ?l false ?b ?w0] =>
      destruct (for_fold l false b w0) as [[[] | n |] w2]
    end; simpl in *; try done.
  - destruct (ledger (fs w) !! target) as [d |] eqn:L; [ | by exec ].
    destruct (updateDependency_unchanged target d p w1) as [N F]; [ apply Hun; [ done | by right ] | ].
    destruct (updateDependency target d p w1) as [[[] | n |] w2]; simpl in *; done.
Qed.

End Update.

Section UpdateShort.

Context {P : Platform}.

Lemma in_sync_unchanged (k : string) (d : Dependency) : in_sync k d → ¬ changed k d.
Proof.
  intros (o & r & cref & Hk & Hr) (o' & r' & sha & cref' & Hk' & Hr' & Ne).
  rewrite Hk in Hk'. injection Hk' as <- <-. rewrite Hr in Hr'. by injection Hr'.
Qed.

(** An update that reaches an entry in sync whose identifier is shorter
    than the 8 bytes it prints ends in a panic. *)
Lemma handleUpdate_in_sync_short (target k : string) (d : Dependency) (w : World) :
  (∀ m, range_order m ≡ₚ map_to_list m) →
  ledger (fs w) !! k = Some d → targeted target k → in_sync k d →
  (String.length (SHA d) < 8)%nat →
  (handleUpdate target w).1 = Panic.
Proof.
  intros Hperm Hk T (owner & repo & cref & Hu & Hr) L.
  assert (Hin : (k, d) ∈ range_order (ledger (fs w))).
  { rewrite Hperm. by apply elem_of_map_to_list. }
  assert (Z : (size (ledger (fs w)) =? 0)%nat = false).
  { destruct (size (ledger (fs w)) =? 0)%nat eqn:Z; [ | done ].
    apply size_zero_empty in Z. by rewrite Z, lookup_empty in Hk. }
  unfold handleUpdate. enter_handler. rewrite Z.
  destruct (Str.is_empty target) eqn:E.
  - simpl. apply bind_panics. rewrite bind_run. simpl. apply bind_panics.
    apply (for_fold_panics (λ _, True) _ _ (k, d) Hin); try done.
    + intros s x0. apply never_exits_updateEntry.
    + intros s w1 _. unfold updateEntry. apply bind_panics. simpl.
      by apply (updateDependency_short k owner repo d p _ w1 L Hu Hr).
  - destruct T as [-> | ->]; [ done | ].
    rewrite Hk. simpl. apply bind_panics.
    by apply (updateDependency_short k owner repo d p _ _ L Hu Hr).
Qed.

End UpdateShort.

(** C5 (as amended).  [handleUpdate] writes the lock file at most once,
    and only when some targeted entry's ref now resolves to another
    identifier than the recorded one.  When no targeted entry has moved,
    nothing is written and the file system is as it was.  When moreover
    every targeted entry resolves to its recorded identifier and that
    identifier has at least the 8 bytes that are printed, [handleUpdate]
    reports that no update is available for each of them, and a second run
    from the resulting world does the same again.  A targeted entry in
    sync whose identifier is shorter makes the program panic where it
    would report, still with nothing written. *)
Theorem handleUpdate_persists_once `{Platform} (target : string) (w : World) :
  (∀ m, range_order m ≡ₚ map_to_list m) →
  let w' := (handleUpdate target w).2 in
  let w'' := (handleUpdate target w').2 in
  ∃ evs evs',
    trace w' = trace w ++ evs ∧ trace w'' = trace w' ++ evs' ∧
    (saves evs ≤ 1)%nat ∧
    (saves evs = 1%nat →
     ∃ k d, ledger (fs w) !! k = Some d ∧ targeted target k ∧ changed k d) ∧
    ((∀ k d, ledger (fs w) !! k = Some d → targeted target k → ¬ changed k d) →
     saves evs = 0%nat ∧ fs w' = fs w) ∧
    ((∀ k d, ledger (fs w) !! k = Some d → targeted target k →
             in_sync k d ∧ (8 ≤ String.length (SHA d))%nat) →
     (handleUpdate target w).1 ≠ Panic ∧ (handleUpdate target w').1 ≠ Panic ∧
     saves evs = 0%nat ∧ saves evs' = 0%nat ∧
     fs w' = fs w ∧ fs w'' = fs w ∧
     ∀ k d, ledger (fs w) !! k = Some d → targeted target k →
            EvPrint (MNoUpdate k (Ref d) (String.substring 0 8 (SHA d))) ∈ evs ∧
            EvPrint (MNoUpdate k (Ref d) (String.substring 0 8 (SHA d))) ∈ evs') ∧
    ((∀ k d, ledger (fs w) !! k = Some d → targeted target k → in_sync k d) →
     ∀ k d, ledger (fs w) !! k = Some d → targeted target k →
            (String.length (SHA d) < 8)%nat →
            (handleUpdate target w).1 = Panic ∧ saves evs = 0%nat ∧ fs w' = fs w).
Proof.
  intros Hperm w' w''.
  destruct (handleUpdate_once target w Hperm) as (evs & E & S1 & C).
  destruct (handleUpdate_once target w' Hperm) as (evs' & E' & _ & _).
  assert (Un : (∀ k d, ledger (fs w) !! k = Some d → targeted target k → ¬ changed k d) →
               saves evs = 0%nat ∧ fs w' = fs w).
  { intros Hun. split; [ | by apply handleUpdate_unchanged ].
    destruct (saves evs) as [| [| n]] eqn:Sv; [ done | | lia ].
    destruct C as (k & d & L & T & Ch); [ done | ]. by destruct (Hun k d L T). }
  exists evs, evs'. split_and!; try done.
  - intros Hsync.
    destruct (handleUpdate_in_sync target w Hperm Hsync) as (o & h & ev1 & R1 & N1 & Z1 & P1).
    assert (Fw : fs w' = fs w) by (unfold w'; by rewrite R1).
    assert (Hsync' : ∀ k d, ledger (fs w') !! k = Some d → targeted target k →
                            in_sync k d ∧ (8 ≤ String.length (SHA d))%nat)
      by (by rewrite Fw).
    destruct (handleUpdate_in_sync target w' Hperm Hsync')
      as (o' & h' & ev2 & R2 & N2 & Z2 & P2).
    assert (Ev1 : evs = ev1).
    { unfold w' in E. rewrite R1 in E. simpl in E. by apply app_inv_head in E. }
    assert (Ev2 : evs' = ev2).
    { unfold w'' in E'. rewrite R2 in E'. simpl in E'. by apply app_inv_head in E'. }
    subst ev1 ev2.
    split_and!; try done.
    + by rewrite R1.
    + by rewrite R2.
    + unfold w''. rewrite R2. simpl. done.
    + intros k d L T. split; [ by apply P1 | apply P2; [ by rewrite Fw | done ] ].
  - intros Hsync k d Hk T L.
    destruct Un as [U1 U2].
    { intros k' d' Hk' T'. by apply in_sync_unchanged, Hsync. }
    split_and!; [ | done | done ].
    by apply (handleUpdate_in_sync_short target k d w Hperm Hk T (Hsync k d Hk T) L).
Qed.

(** The Ledger records [main] at the identifier [abc]; the remote branch
    still points at [abc].  The remote state is unchanged for the one
    entry, but the update neither reports that no update is available nor
    returns: it panics at the report. *)
Lemma handleUpdate_in_sync_panics :
  let P := Demo.platform [(branchAPI "o" "r" "main", HttpResp 200 (Some "abc"))] [] in
  let w := Demo.world {[ lockPath := FileNode 420 "github.com/o/r,main,abc;" ]} in
  let d := {| Ref := "main"; SHA := "abc" |} in
  ledger (fs w) !! "github.com/o/r" = Some d ∧
  parseGitHubURL "github.com/o/r" = Ok ("o", "r") ∧
  resolution "o" "r" (Ref d) = Ok (SHA d, "main") ∧
  (handleUpdate "" w).1 = Panic ∧
  (handleUpdate "github.com/o/r" w).1 = Panic ∧
  trace (handleUpdate "" w).2
  = [EvPrint (MCheckingUpdates 1); EvGet (branchAPI "o" "r" "main")] ∧
  ¬ ∃ s8, EvPrint (MNoUpdate "github.com/o/r" "main" s8) ∈ trace (handleUpdate "" w).2.
Proof.
  intros P w d.
  assert (T : trace (handleUpdate "" w).2
              = [EvPrint (MCheckingUpdates 1); EvGet (branchAPI "o" "r" "main")])
    by (vm_compute; reflexivity).
  split_and!; try (vm_compute; reflexivity).
  intros [s8 Hin]. rewrite T in Hin.
  repeat (apply elem_of_cons in Hin as [Hin | Hin]; [ discriminate Hin | ]).
  by apply elem_of_nil in Hin.
Qed.

Lemma singleton_ledger (m : gmap string Dependency) (k0 : string) (d0 : Dependency) :
  map_to_list m = [(k0, d0)] → ∀ k d, m !! k = Some d → k = k0 ∧ d = d0.
Proof.
  intros E k d Hk. apply elem_of_map_to_list in Hk. rewrite E in Hk.
  apply list_elem_of_singleton in Hk. by injection Hk.
Qed.

(** Two scenarios of the specification.  The Ledger records [main] at
    [aaaa...] and the remote branch now points at [bbbb...]: the update
    fetches, and the lock file is written exactly once.  The remote branch
    still points at [aaaa...]: the update reports that no update is
    available and writes nothing, and so does the update after it. *)
Lemma handleUpdate_persists_once_witness :
  let P := Demo.platform
             [(branchAPI "o" "r" "main", HttpResp 200 (Some Demo.sha_b));
              (tarballAPI "o" "r" Demo.sha_b, HttpResp 200 (Some "ex"))]
             [("ex", Demo.example_archive)] in
  let Q := Demo.platform [(branchAPI "o" "r" "main", HttpResp 200 (Some Demo.sha_a))] [] in
  let w := Demo.world Demo.lock_one in
  let d := {| Ref := "main"; SHA := Demo.sha_a |} in
  (∀ m, range_order (Platform := P) m ≡ₚ map_to_list m) ∧
  saves (trace (handleUpdate (P := P) "" w).2) = 1%nat ∧
  ledger (P := P) (fs (handleUpdate (P := P) "" w).2) !! "github.com/o/r"
  = Some {| Ref := "main"; SHA := Demo.sha_b |} ∧
  (∃ k d, ledger (P := P) (fs w) !! k = Some d ∧ changed (P := P) k d) ∧
  (∀ k d', ledger (P := Q) (fs w) !! k = Some d' → targeted "" k →
           in_sync (P := Q) k d' ∧ (8 ≤ String.length (SHA d'))%nat) ∧
  (handleUpdate (P := Q) "" w).1 = Ret tt ∧
  saves (trace (handleUpdate (P := Q) "" w).2) = 0%nat ∧
  EvPrint (MNoUpdate "github.com/o/r" "main" "aaaaaaaa")
    ∈ trace (handleUpdate (P := Q) "" w).2 ∧
  EvPrint (MNoUpdate "github.com/o/r" "main" "aaaaaaaa")
    ∈ new_events (handleUpdate (P := Q) "" w).2
        (handleUpdate (P := Q) "" (handleUpdate (P := Q) "" w).2).2.
Proof.
  intros P Q w d.
  assert (HpermP : ∀ m, range_order (Platform := P) m ≡ₚ map_to_list m) by reflexivity.
  assert (HpermQ : ∀ m, range_order (Platform := Q) m ≡ₚ map_to_list m) by reflexivity.
  assert (E0 : trace w = []) by reflexivity.
  split; [ exact HpermP | ].
  assert (S : saves (trace (handleUpdate (P := P) "" w).2) = 1%nat)
    by (vm_compute; reflexivity).
  split; [ exact S | ].
  split; [ vm_compute; reflexivity | ].
  split.
  { pose proof (handleUpdate_persists_once (H := P) "" w HpermP) as T.
    cbv zeta in T.
    destruct T as (evs & evs' & E & _ & _ & C & _).
    rewrite E0, app_nil_l in E.
    rewrite E in S.
    destruct (C S) as (k & d0 & L & _ & Ch).
    exists k, d0. split; [ exact L | exact Ch ]. }
  assert (ML : map_to_list (ledger (P := Q) (fs w)) = [("github.com/o/r", d)])
    by (vm_compute; reflexivity).
  assert (Sy : in_sync (P := Q) "github.com/o/r" d).
  { exists "o", "r", "main". split; [ reflexivity | vm_compute; reflexivity ]. }
  assert (Hsync : ∀ k d', ledger (P := Q) (fs w) !! k = Some d' → targeted "" k →
                          in_sync (P := Q) k d' ∧ (8 ≤ String.length (SHA d'))%nat).
  { intros k d' Hk _. destruct (singleton_ledger _ _ _ ML k d' Hk) as [-> ->].
    split; [ exact Sy | simpl; lia ]. }
  assert (Hk : ledger (P := Q) (fs w) !! "github.com/o/r" = Some d)
    by (vm_compute; reflexivity).
  split; [ exact Hsync | ].
  pose proof (handleUpdate_persists_once (H := Q) "" w HpermQ) as T.
  cbv zeta in T.
  destruct T as (evs & evs' & E & E' & _ & _ & _ & In & _).
  destruct (In Hsync) as (_ & _ & Z & _ & _ & _ & Rep).
  destruct (Rep "github.com/o/r" d Hk (or_introl eq_refl)) as [R1 R2].
  rewrite E0, app_nil_l in E.
  split; [ vm_compute; reflexivity | ].
  split; [ by rewrite E | ].
  split; [ by rewrite E | ].
  unfold new_events. by rewrite E', drop_app_length.
Defined.

(** ** What a download depends on *)

Lemma Stat_lockPath (f : filesys) :
  FS.Stat f lockPath = match f !! lockPath with Some n => inr n | None => inl ENOENT end.
Proof. reflexivity. Qed.

Lemma ReadFile_lockPath (f f' : filesys) :
  f' !! lockPath = f !! lockPath → FS.ReadFile f' lockPath = FS.ReadFile f lockPath.
Proof. intros E. unfold FS.ReadFile. by rewrite !Stat_lockPath, E. Qed.

Lemma open_checks_lockPath (f : filesys) : FS.open_checks f lockPath = None.
Proof. reflexivity. Qed.

Lemma WriteFile_lock_read (f f' : filesys) (data : string) (perm : Z)
    (fault : option (nat * errno)) :
  FS.WriteFile f lockPath data perm fault = (None, f') →
  FS.ReadFile f' lockPath = Some data.
Proof.
  unfold FS.WriteFile, FS.ReadFile. rewrite Stat_lockPath, open_checks_lockPath.
  destruct (FS.node_at f lockPath) as [[|] |], fault as [[n e] |]; try done.
  all: intros [= <-]; by rewrite lookup_insert_eq.
Qed.

Lemma print_run (m : msg) (w : World) : print m w = (Ret tt, log w [EvPrint m]).
Proof. reflexivity. Qed.

Lemma ret_run {A} (a : A) (w : World) : mret (M := M) a w = (Ret a, w).
Proof. reflexivity. Qed.

Lemma first8_run (s : string) (w : World) :
  first8 s w = (match Str.slice_to 8 s with Some s8 => Ret s8 | None => Panic end, w).
Proof. unfold first8. by destruct (Str.slice_to 8 s). Qed.

Lemma deref_run (p : nat) (w : World) (v : LockFile) :
  heap w !! p = Some v → deref p w = (Ret v, w).
Proof. intros E. unfold deref. by rewrite E. Qed.

Lemma fs_only_ret {A} (a : A) : fs_only (mret a).
Proof. by intros w1 w2 E. Qed.

Lemma fs_only_bind {A B} (c : M A) (k : A -> M B) :
  fs_only c → (∀ a, fs_only (k a)) → fs_only (c ≫= k).
Proof.
  intros Hc Hk w1 w2 E. rewrite !bind_run.
  destruct (Hc w1 w2 E) as [Ho Hf].
  destruct (c w1) as [o1 v1], (c w2) as [o2 v2]. simpl in Ho, Hf. subst o2.
  destruct o1 as [a | n |]; [ by apply Hk | done | done ].
Qed.

Lemma fs_only_print (m : msg) : fs_only (print m).
Proof. by intros w1 w2 E. Qed.

Lemma fs_only_httpGet `{Platform} (url : string) : fs_only (httpGet url).
Proof. by intros w1 w2 E. Qed.

Lemma fs_only_fsop (op : filesys -> option errno * filesys) : fs_only (fsop op).
Proof. intros w1 w2 E. unfold fsop. rewrite E. by destruct (op (fs w2)). Qed.

Lemma fs_only_removeAll (p : path) : fs_only (removeAll p).
Proof. intros w1 w2 E. unfold removeAll. simpl. by rewrite E. Qed.

Create HintDb fs_only.
#[export] Hint Resolve fs_only_print fs_only_httpGet fs_only_fsop fs_only_removeAll
  : fs_only.

Ltac fs_only_auto :=
  repeat first
    [ lazymatch goal with
      | |- fs_only (mbind _ _) => apply fs_only_bind; [ | intros ? ]
      | |- fs_only (mret _) => apply fs_only_ret
      | |- fs_only (match ?x with _ => _ end) => destruct x eqn:?
      end
    | solve [ eauto with fs_only ] ].

Lemma fs_only_writeEntry (target : path) (e : tar_entry) : fs_only (writeEntry target e).
Proof. unfold writeEntry. fs_only_auto. Qed.

Lemma fs_only_extractEntries (dest : path) (rootDir : string) (es : list tar_entry)
    (eof : bool) :
  fs_only (extractEntries dest rootDir es eof).
Proof.
  revert rootDir. induction es as [| e es IH]; intros rootDir; simpl.
  - fs_only_auto.
  - repeat match goal with
           | |- fs_only (if ?c then _ else _) => destruct c; [ by apply IH | ]
           end.
    apply fs_only_bind; [ apply fs_only_writeEntry | ].
    intros [[] | err]; [ by apply IH | apply fs_only_ret ].
Qed.

Section Fetched.

Context {P : Platform}.

Lemma fs_only_extractTarball (body : option string) (dest : path) :
  fs_only (extractTarball body dest).
Proof. unfold extractTarball. pose proof fs_only_extractEntries. fs_only_auto. Qed.

Lemma fs_only_downloadRepo (owner repo sha repoURL : string) :
  fs_only (downloadRepo owner repo sha repoURL).
Proof. unfold downloadRepo. pose proof fs_only_extractTarball. fs_only_auto. Qed.

Lemma resolveRef_gets o r ref :
  steps (trace_ext (λ e, is_get e = true)) (resolveRef o r ref).
Proof.
  unfold resolveRef, getLatestCommitSHA, getBranchCommitSHA, getTagCommitSHA.
  steps_auto.
Qed.

Lemma resolution_calls_gets o r ref :
  Forall (λ e, is_get e = true) (resolution_calls o r ref).
Proof.
  destruct (resolveRef_gets o r ref blank) as (evs & E & F).
  unfold resolution_calls. by rewrite E.
Qed.

(** All that [downloadRepo] does, seen from its caller. *)
Lemma downloadRepo_run (owner repo sha repoURL : string) (w : World) :
  ∃ res f' evs,
    downloadRepo owner repo sha repoURL w
    = (Ret res, {| fs := f'; heap := heap w; trace := trace w ++ evs |}) ∧
    Forall (λ e, e = EvGet (tarballAPI owner repo sha)
                 ∨ e = EvPrint (MDownloadedTo (getDepPath repoURL))) evs ∧
    (local_remote → in_deps (getDepPath repoURL) = true →
     f' !! lockPath = fs w !! lockPath).
Proof.
  destruct (returns_downloadRepo owner repo sha repoURL w) as [res R].
  destruct (downloadRepo_quiet owner repo sha repoURL w) as [Hh (evs & E & F)].
  pose proof (λ L D, downloadRepo_frame owner repo sha repoURL L D w lockPath eq_refl) as Fr.
  destruct (downloadRepo owner repo sha repoURL w) as [o [f' hp tr]].
  simpl in *. unfold heap_kept in Hh. simpl in Hh. subst o hp tr.
  by exists res, f', evs.
Qed.

(** A download in any world is the download in its storage state. *)
Lemma downloadRepo_fetched (owner repo sha repoURL : string) (w : World) :
  ∃ evs,
    downloadRepo owner repo sha repoURL w
    = (Ret (fetched owner repo sha repoURL (fs w)).1,
       {| fs := (fetched owner repo sha repoURL (fs w)).2;
          heap := heap w; trace := trace w ++ evs |}) ∧
    Forall (λ e, e = EvGet (tarballAPI owner repo sha)
                 ∨ e = EvPrint (MDownloadedTo (getDepPath repoURL))) evs ∧
    (local_remote → in_deps (getDepPath repoURL) = true →
     (fetched owner repo sha repoURL (fs w)).2 !! lockPath = fs w !! lockPath).
Proof.
  destruct (downloadRepo_run owner repo sha repoURL w) as (res & f' & evs & E & F & Fr).
  exists evs. unfold fetched.
  destruct (fs_only_downloadRepo owner repo sha repoURL w
              {| fs := fs w; heap := []; trace := [] |} eq_refl) as [Ho Hf].
  rewrite E in Ho, Hf. cbn [fst snd fs] in Ho, Hf.
  rewrite <- Ho, <- Hf. cbn [fst snd]. by rewrite E.
Qed.

Lemma no_get_error (evs : list event) (x : error) :
  Forall (λ e, ∀ y, e ≠ EvPrint (MErrDownloadingRepo y)) evs →
  EvPrint (MErrDownloadingRepo x) ∉ evs.
Proof. intros F Hin. rewrite Forall_forall in F. by destruct (F _ Hin x). Qed.

Lemma gets_saves (evs : list event) : Forall (λ e, is_get e = true) evs → saves evs = 0%nat.
Proof. intros F. apply saves_quiet. eapply Forall_impl; [ exact F | by intros [] ]. Qed.

Lemma download_saves (evs : list event) (u : string) (p : path) :
  Forall (λ e, e = EvGet u ∨ e = EvPrint (MDownloadedTo p)) evs → saves evs = 0%nat.
Proof.
  intros F. apply saves_quiet. eapply Forall_impl; [ exact F | by intros e [-> | ->] ].
Qed.

End Fetched.

(** ** Install *)



Section Install.

Context {P : Platform}.

Lemma ledger_lockPath (f f' : filesys) :
  f' !! lockPath = f !! lockPath → ledger f' = ledger f.
Proof. intros E. unfold ledger, loaded. by rewrite (ReadFile_lockPath _ _ E). Qed.













End Install.




Lemma example_archive_local : local_stream Demo.example_archive.
Proof.
  intros e Hin. unfold local_name.
  apply elem_of_cons in Hin as [-> | Hin].
  - intros X. vm_compute in X.
    repeat (apply elem_of_cons in X as [X | X]; [ discriminate X | ]).
    by apply elem_of_nil in X.
  - apply elem_of_cons in Hin as [-> | Hin]; [ | by apply elem_of_nil in Hin ].
    intros X. vm_compute in X.
    repeat (apply elem_of_cons in X as [X | X]; [ discriminate X | ]).
    by apply elem_of_nil in X.
Qed.



(** ** Get *)

(** C3 (as amended).  For a well-formed dependency spec: a [handleGet]
    that returns normally has resolved the ref, fetched, loaded the Ledger
    the fetch left in storage, put the entry for the key into it, with
    the requested ref (the canonical ref when none was requested) and the
    resolved identifier, and written the result to the lock file, once.
    When the ref does not resolve the program exits with status 1 and
    neither the file system nor any Ledger in memory has changed.  When
    the ref resolves, to an identifier of at least the 8 bytes that are
    printed, and the download or the extraction fails, the program exits
    with status 1 after reporting that error, before the Ledger is loaded:
    nothing in memory has changed and the lock file is not written.  The
    file system is then as the failed fetch left it, and the lock file in
    it is the one from before provided the key's directory lies inside the
    dependency directory and no archive the remote serves has an entry
    name with a parent-directory segment.  When the fetch succeeds,
    [handleGet] returns normally as soon as the Ledger it loads holds a
    map, can be encoded and is taken by the device. *)
Theorem handleGet_ledger `{Platform} (spec repoURL ref owner repo : string) (w : World) :
  parseGitHubSpec spec = Ok (repoURL, ref) →
  parseGitHubURL repoURL = Ok (owner, repo) →
  ∃ evs,
    trace (handleGet spec w).2 = trace w ++ evs ∧
    ((handleGet spec w).1 = Ret tt →
     ∃ sha cref f_d m data,
       resolution owner repo ref = Ok (sha, cref) ∧
       fetched owner repo sha repoURL (fs w) = (Ok tt, f_d) ∧
       Dependencies (loaded f_d) = Some m ∧
       json_indent {| Dependencies := Some (<[repoURL :=
           {| Ref := if Str.is_empty ref then cref else ref; SHA := sha |}]> m) |}
       = Some data ∧
       FS.WriteFile f_d lockPath data 420 (write_fault lockPath data)
       = (None, fs (handleGet spec w).2) ∧
       FS.ReadFile (fs (handleGet spec w).2) lockPath = Some data ∧
       saves evs = 1%nat ∧ EvWriteFile lockPath data ∈ evs) ∧
    (∀ e, resolution owner repo ref = Err e →
       (handleGet spec w).1 = Exit 1 ∧ fs (handleGet spec w).2 = fs w ∧
       heap (handleGet spec w).2 = heap w ∧ saves evs = 0%nat ∧
       last evs = Some (EvPrint (MErrResolvingRef e))) ∧
    (∀ sha cref,
       resolution owner repo ref = Ok (sha, cref) → (8 ≤ String.length sha)%nat →
       let res := (fetched owner repo sha repoURL (fs w)).1 in
       let f_d := (fetched owner repo sha repoURL (fs w)).2 in
       (local_remote → in_deps (getDepPath repoURL) = true →
        f_d !! lockPath = fs w !! lockPath ∧ ledger f_d = ledger (fs w)) ∧
       (∀ e, res = Err e →
          (handleGet spec w).1 = Exit 1 ∧ fs (handleGet spec w).2 = f_d ∧
          heap (handleGet spec w).2 = heap w ∧ saves evs = 0%nat ∧
          last evs = Some (EvPrint (MErrDownloadingRepo e))) ∧
       (∀ m data f',
          res = Ok tt →
          Dependencies (loaded f_d) = Some m →
          json_indent {| Dependencies := Some (<[repoURL :=
              {| Ref := if Str.is_empty ref then cref else ref; SHA := sha |}]> m) |}
          = Some data →
          FS.WriteFile f_d lockPath data 420 (write_fault lockPath data) = (None, f') →
          (handleGet spec w).1 = Ret tt)).
Proof.
  intros Hs Hu.
  assert (Run : ∃ o w', handleGet spec w = (o, w')) by (destruct (handleGet spec w); eauto).
  destruct Run as (o & w' & Run). rewrite Run. cbn [fst snd].
  revert Run. unfold handleGet. rewrite Hs, Hu.
  rewrite bind_run, print_run. cbn beta iota.
  rewrite (bind_ret_run _ _ _ _ _ (resolveRef_run owner repo ref _)).
  pose proof (resolution_calls_gets owner repo ref) as Gets.
  set (calls := resolution_calls owner repo ref) in *.
  destruct (resolution owner repo ref) as [[sha cref] | err] eqn:Hr.
  2:{ (* the ref does not resolve *)
      rewrite bind_run, print_run. intros [= <- <-]. cbn [fs heap trace log].
      exists ([EvPrint (MFetching repoURL ref)] ++ calls ++ [EvPrint (MErrResolvingRef err)]).
      split_and!.
      - by rewrite <- !app_assoc.
      - done.
      - intros e [= <-]. split_and!; try done.
        + rewrite !saves_app, (gets_saves _ Gets). done.
        + by rewrite !app_assoc, last_snoc.
      - done. }
  rewrite bind_run, first8_run.
  destruct (Str.slice_to 8 sha) as [s8 |] eqn:S8.
  2:{ (* the identifier has fewer than 8 bytes *)
      intros [= <- <-]. cbn [fs heap trace log].
      exists ([EvPrint (MFetching repoURL ref)] ++ calls).
      split_and!; [ by rewrite <- !app_assoc | done | done | ].
      intros sha' cref' [= <- <-] L. by rewrite (slice_long _ L) in S8. }
  rewrite bind_run, print_run. cbn beta iota.
  match goal with |- context [mbind _ (downloadRepo owner repo sha repoURL) ?w0] =>
    destruct (downloadRepo_fetched owner repo sha repoURL w0)
      as (evs_d & Ed & Fd & Frame); set (w_c := w0) in *
  end.
  set (pre := [EvPrint (MFetching repoURL ref)] ++ calls ++ [EvPrint (MResolvedTo cref s8)]).
  assert (Tc : trace w_c = trace w ++ pre).
  { unfold w_c, pre, log. simpl. by rewrite <- !app_assoc. }
  assert (Spre : saves pre = 0%nat).
  { unfold pre. rewrite !saves_app, (gets_saves _ Gets). done. }
  assert (Hc : heap w_c = heap w) by reflexivity.
  assert (Fc : fs w_c = fs w) by reflexivity.
  rewrite (bind_ret_run _ _ _ _ _ Ed). rewrite Hc, Tc. rewrite Fc in Frame |- *.
  clear Ed. clearbody w_c pre.
  assert (Fr : local_remote → in_deps (getDepPath repoURL) = true →
               (fetched owner repo sha repoURL (fs w)).2 !! lockPath = fs w !! lockPath ∧
               ledger (fetched owner repo sha repoURL (fs w)).2 = ledger (fs w)).
  { intros L D. pose proof (Frame L D) as X. split; [ exact X | by apply ledger_lockPath ]. }
  clear Frame.
  pose proof (download_saves _ _ _ Fd) as Sd.
  destruct (fetched owner repo sha repoURL (fs w)) as [res f'] eqn:Ef. cbn [fst snd] in *.
  destruct res as [[] | err].
  2:{ (* the download fails *)
      rewrite bind_run, print_run. intros [= <- <-]. cbn [fs heap trace log].
      exists (pre ++ evs_d ++ [EvPrint (MErrDownloadingRepo err)]).
      split_and!; [ by rewrite <- !app_assoc | done | done | ].
      intros sha' cref' [= <- <-] L. cbv zeta. rewrite Ef. cbn [fst snd].
      split_and!; [ exact Fr | | done ].
      intros e [= <-]. split_and!; try done.
      - rewrite !saves_app, Spre, Sd. done.
      - by rewrite !app_assoc, last_snoc. }
  match goal with |- context [mbind ?f loadLockFile ?w0] =>
    destruct (loadLockFile_run w0) as (p & h & evs_l & El & Hp & Hle & Hev);
    rewrite (bind_ret_run _ _ _ _ _ El)
  end.
  cbn [fs heap trace] in Hp, Hle |- *.
  assert (Sl : saves evs_l = 0%nat) by (by destruct Hev as [-> | [-> _]]).
  unfold map_assign. rewrite bind_run.
  match goal with |- context [mbind _ (deref p) ?w0] =>
    rewrite (bind_ret_run _ _ w0 _ _ (deref_run p w0 _ Hp))
  end.
  destruct (Dependencies (loaded f')) as [m |] eqn:Dm.
  2:{ (* the lock file holds a null map *)
      intros [= <- <-]. cbn [fs heap trace].
      exists (pre ++ evs_d ++ evs_l).
      split_and!; [ by rewrite <- !app_assoc | done | done | ].
      intros sha' cref' [= <- <-] L. cbv zeta. rewrite Ef. cbn [fst snd].
      split_and!; [ exact Fr | done | ]. intros m data f'' _ X. by rewrite Dm in X. }
  unfold store at 1. cbn beta iota.
  unfold saveLockFile. rewrite bind_run.
  match goal with |- context [mbind _ (deref p) ?w0] =>
    rewrite (bind_ret_run _ _ w0 _ _
               (deref_run p w0 _ (list_lookup_insert_eq _ _ _ (lookup_lt_Some _ _ _ Hp))))
  end.
  set (v' := {| Dependencies := Some (<[repoURL :=
           {| Ref := if Str.is_empty ref then cref else ref; SHA := sha |}]> m) |}).
  destruct (json_indent v') as [data |] eqn:Dj.
  2:{ (* the Ledger cannot be serialised *)
      rewrite ret_run. cbn beta iota. rewrite bind_run, print_run. intros [= <- <-].
      cbn [fs heap trace log set_heap].
      exists (pre ++ evs_d ++ evs_l ++ [EvPrint (MErrSaving ErrJSON)]).
      split_and!; [ by rewrite <- !app_assoc | done | done | ].
      intros sha' cref' [= <- <-] L. cbv zeta. rewrite Ef. cbn [fst snd].
      split_and!; [ exact Fr | done | ].
      intros m' data' f'' _. rewrite Dm. intros [= <-]. fold v'. by rewrite Dj. }
  unfold writeFile, fsop. cbn [fs heap trace log set_heap set_fs].
  destruct (FS.WriteFile f' lockPath data 420 (write_fault lockPath data))
    as [[e |] f''] eqn:Wf; cbn beta iota.
  { (* the lock file cannot be written *)
    rewrite bind_run, print_run. intros [= <- <-]. cbn [fs heap trace log set_heap set_fs].
    exists (pre ++ evs_d ++ evs_l
            ++ [EvWriteFile lockPath data; EvPrint (MErrSaving (ErrFS e))]).
    split_and!; [ by rewrite <- !app_assoc | done | done | ].
    intros sha' cref' [= <- <-] L. cbv zeta. rewrite Ef. cbn [fst snd].
    split_and!; [ exact Fr | done | ].
    intros m' data' f3 _. rewrite Dm. intros [= <-]. fold v'. rewrite Dj.
    intros [= <-]. by rewrite Wf. }
  rewrite bind_run, first8_run, S8, print_run. intros [= <- <-].
  cbn [fs heap trace log set_heap set_fs].
  exists (pre ++ evs_d ++ evs_l
          ++ [EvWriteFile lockPath data; EvPrint (MAdded repoURL cref s8)]).
  split_and!; [ by rewrite <- !app_assoc | | done | ].
  - intros _. exists sha, cref, f', m, data.
    split_and!; try done.
    + by eapply WriteFile_lock_read.
    + rewrite !saves_app, Spre, Sd, Sl. done.
    + do 3 (apply elem_of_app; right). apply list_elem_of_here.
  - intros sha' cref' [= <- <-] L. cbv zeta. rewrite Ef. cbn [fst snd].
    split_and!; [ exact Fr | done | done ].
Qed.

(** A fetch that fails after an entry named
    [repo-abc123/../../../../.deps.lock] was extracted: [handleGet] exits
    with status 1 and the lock file is no longer the one from before. *)
Lemma handleGet_failure_overwrites_lock_file :
  let P := Demo.platform
             [(tarballAPI "o" "r" Demo.sha_a, HttpResp 200 (Some "cl"))]
             [("cl", Demo.truncated_climbing_archive)] in
  let w := Demo.world Demo.lock_one in
  let spec := "github.com/o/r@aaaaaaaaaaaaaaaaaaaaaaaaaaaaaaaaaaaaaaaa" in
  (handleGet spec w).1 = Exit 1 ∧
  last (trace (handleGet spec w).2) = Some (EvPrint (MErrDownloadingRepo ErrTar)) ∧
  saves (trace (handleGet spec w).2) = 0%nat ∧
  fs w !! lockPath
  = Some (FileNode 420 "github.com/o/r,main,aaaaaaaaaaaaaaaaaaaaaaaaaaaaaaaaaaaaaaaa;") ∧
  fs (handleGet spec w).2 !! lockPath
  = Some (FileNode 420 "github.com/x/y,main,bbbbbbbbbbbbbbbbbbbbbbbbbbbbbbbbbbbbbbbb;").
Proof.
  intros P w spec.
  split; [ vm_compute; reflexivity | ].
  split; [ vm_compute; reflexivity | ].
  split; [ vm_compute; reflexivity | ].
  split; [ vm_compute; reflexivity | vm_compute; reflexivity ].
Qed.

(** Adding a dependency at a commit identifier to an empty project; and
    the same against a remote that does not answer the tarball request. *)
Lemma handleGet_ledger_witness :
  let P := Demo.platform
             [(tarballAPI "o" "r" Demo.sha_a, HttpResp 200 (Some "ex"))]
             [("ex", Demo.example_archive)] in
  let Q := Demo.platform [] [] in
  let w := Demo.world ∅ in
  let spec := "github.com/o/r@aaaaaaaaaaaaaaaaaaaaaaaaaaaaaaaaaaaaaaaa" in
  parseGitHubSpec spec = Ok ("github.com/o/r", Demo.sha_a) ∧
  parseGitHubURL "github.com/o/r" = Ok ("o", "r") ∧
  (handleGet (P := P) spec w).1 = Ret tt ∧
  ledger (P := P) (fs (handleGet (P := P) spec w).2) !! "github.com/o/r"
  = Some {| Ref := Demo.sha_a; SHA := Demo.sha_a |} ∧
  (∃ data, FS.ReadFile (fs (handleGet (P := P) spec w).2) lockPath = Some data) ∧
  resolution (P := Q) "o" "r" Demo.sha_a = Ok (Demo.sha_a, Demo.sha_a) ∧
  (fetched (P := Q) "o" "r" Demo.sha_a "github.com/o/r" (fs w)).1 = Err ErrTransport ∧
  (handleGet (P := Q) spec w).1 = Exit 1 ∧
  heap (handleGet (P := Q) spec w).2 = heap w ∧
  last (trace (handleGet (P := Q) spec w).2)
  = Some (EvPrint (MErrDownloadingRepo ErrTransport)).
Proof.
  intros P Q w spec.
  assert (Hs : parseGitHubSpec spec = Ok ("github.com/o/r", Demo.sha_a)) by reflexivity.
  assert (Hu : parseGitHubURL "github.com/o/r" = Ok ("o", "r")) by reflexivity.
  assert (R : (handleGet (P := P) spec w).1 = Ret tt) by (vm_compute; reflexivity).
  assert (Hr : resolution (P := Q) "o" "r" Demo.sha_a = Ok (Demo.sha_a, Demo.sha_a))
    by (vm_compute; reflexivity).
  assert (Hf : (fetched (P := Q) "o" "r" Demo.sha_a "github.com/o/r" (fs w)).1
               = Err ErrTransport) by (vm_compute; reflexivity).
  assert (L : (8 ≤ String.length Demo.sha_a)%nat) by (simpl; lia).
  split; [ exact Hs | ]. split; [ exact Hu | ]. split; [ exact R | ].
  split; [ vm_compute; reflexivity | ].
  split.
  { destruct (handleGet_ledger (H := P) spec _ _ _ _ w Hs Hu) as (evs & _ & S & _).
    destruct (S R) as (sha & cref & f_d & m & data & _ & _ & _ & _ & _ & Rd & _).
    exists data. exact Rd. }
  split; [ exact Hr | split; [ exact Hf | ] ].
  destruct (handleGet_ledger (H := Q) spec _ _ _ _ w Hs Hu) as (evs & E & _ & _ & D).
  destruct (D _ _ Hr L) as (_ & Fail & _).
  destruct (Fail _ Hf) as (X & _ & Hh & _ & La).
  split; [ exact X | split; [ exact Hh | ] ].
  rewrite E. exact La.
Defined.

(** ** Short identifiers in the handlers *)

Lemma slice_None (s : string) : Str.slice_to 8 s = None → (String.length s < 8)%nat.
Proof.
  unfold Str.slice_to. destruct (Nat.leb_spec 8 (String.length s)); [ done | lia ].
Qed.

Lemma slice_Some (s s8 : string) : Str.slice_to 8 s = Some s8 → (8 ≤ String.length s)%nat.
Proof.
  unfold Str.slice_to. destruct (Nat.leb_spec 8 (String.length s)); [ lia | done ].
Qed.

Lemma new_events_log (w : World) (evs : list event) : new_events w (log w evs) = evs.
Proof. unfold new_events, log. cbn [trace]. by rewrite drop_app_length. Qed.

Section ShortCheck.

Context {P : Platform}.

Lemma checkEntry_missing (b : bool) (k : string) (d : Dependency) (w : World) :
  FS.Stat (fs w) (getDepPath k) = inl ENOENT →
  checkEntry b (k, d) w = (Ret false, log w [EvPrint (MCheckMissing k)]).
Proof.
  intros S. unfold checkEntry, checkDependency. rewrite !bind_run. unfold stat at 1.
  cbn beta iota. by rewrite S.
Qed.

Lemma checkEntry_present (b : bool) (k : string) (d : Dependency) (w : World) :
  FS.Stat (fs w) (getDepPath k) ≠ inl ENOENT →
  checkEntry b (k, d) w
  = match Str.slice_to 8 (SHA d) with
    | Some s8 => (Ret b, log w [EvPrint (MCheckOk k (Ref d) s8)])
    | None => (Panic, w)
    end.
Proof.
  intros S. unfold checkEntry, checkDependency. rewrite !bind_run. unfold stat at 1.
  cbn beta iota.
  destruct (FS.Stat (fs w) (getDepPath k)) as [[] | n]; try done; rewrite ret_run;
    cbn beta iota; rewrite bind_run, first8_run; by destruct (Str.slice_to 8 (SHA d)).
Qed.

(** The loop of [handleCheck]: it panics at an entry with a short
    identifier whose directory is not reported missing, and otherwise
    returns after reporting every missing directory. *)
Lemma checkLoop_cases (l : list (string * Dependency)) (b : bool) (w : World) :
  ((for_fold l b checkEntry w).1 = Panic ∧
   ∃ k d, (k, d) ∈ l ∧ (String.length (SHA d) < 8)%nat ∧
          FS.Stat (fs w) (getDepPath k) ≠ inl ENOENT)
  ∨
  (∃ b' evs,
     for_fold l b checkEntry w = (Ret b', log w evs) ∧
     (∀ k d, (k, d) ∈ l → (String.length (SHA d) < 8)%nat →
             FS.Stat (fs w) (getDepPath k) = inl ENOENT) ∧
     (∀ k d, (k, d) ∈ l → FS.Stat (fs w) (getDepPath k) = inl ENOENT →
             EvPrint (MCheckMissing k) ∈ evs)).
Proof.
  revert b w. induction l as [| [k d] l IH]; intros b w.
  - right. exists b, []. rewrite log_nil. split_and!; [ done | | ];
      intros k d Hin; by apply elem_of_nil in Hin.
  - cbn [for_fold]. rewrite bind_run.
    assert (Step : ∀ b1 e,
              checkEntry b (k, d) w = (Ret b1, log w [e]) →
              ((String.length (SHA d) < 8)%nat →
               FS.Stat (fs w) (getDepPath k) = inl ENOENT) →
              (FS.Stat (fs w) (getDepPath k) = inl ENOENT → e = EvPrint (MCheckMissing k)) →
              ((let (o, w') := checkEntry b (k, d) w in
                match o with
                | Ret a => for_fold l a checkEntry w'
                | Exit n => (Exit n, w')
                | Panic => (Panic, w')
                end).1 = Panic ∧
               ∃ k0 d0, (k0, d0) ∈ (k, d) :: l ∧ (String.length (SHA d0) < 8)%nat ∧
                        FS.Stat (fs w) (getDepPath k0) ≠ inl ENOENT)
              ∨
              (∃ b' evs,
                 (let (o, w') := checkEntry b (k, d) w in
                  match o with
                  | Ret a => for_fold l a checkEntry w'
                  | Exit n => (Exit n, w')
                  | Panic => (Panic, w')
                  end) = (Ret b', log w evs) ∧
                 (∀ k0 d0, (k0, d0) ∈ (k, d) :: l → (String.length (SHA d0) < 8)%nat →
                           FS.Stat (fs w) (getDepPath k0) = inl ENOENT) ∧
                 (∀ k0 d0, (k0, d0) ∈ (k, d) :: l →
                           FS.Stat (fs w) (getDepPath k0) = inl ENOENT →
                           EvPrint (MCheckMissing k0) ∈ evs))).
    { intros b1 e -> Sh Mi.
      destruct (IH b1 (log w [e])) as [[Pn (k0 & d0 & Hin & L0 & S0)] | (b' & evs & E & A & B)].
      - left. split; [ exact Pn | ]. exists k0, d0. split; [ by right | done ].
      - right. exists b', (e :: evs). rewrite E, log_log. split; [ done | ]. split.
        + intros k0 d0 [[= -> ->] | Hin]%elem_of_cons; [ exact Sh | by apply (A k0 d0) ].
        + intros k0 d0 [[= -> ->] | Hin]%elem_of_cons S0.
          * rewrite (Mi S0). left.
          * right. by apply (B k0 d0). }
    destruct (FS.Stat (fs w) (getDepPath k)) as [e | n] eqn:S.
    + destruct e.
      1: { apply (Step false (EvPrint (MCheckMissing k)));
             [ by apply checkEntry_missing | done | done ]. }
      all: assert (N : FS.Stat (fs w) (getDepPath k) ≠ inl ENOENT) by (by rewrite S).
      all: pose proof (checkEntry_present b k d w N) as E.
      all: destruct (Str.slice_to 8 (SHA d)) as [s8 |] eqn:S8.
      all: try (apply (Step b (EvPrint (MCheckOk k (Ref d) s8)));
                [ exact E
                | intros L; apply slice_short in L; congruence
                | done ]).
      all: left; rewrite E; split; [ done | ]; exists k, d;
           split; [ left | split; [ by apply slice_None | by rewrite S ] ].
    + assert (N : FS.Stat (fs w) (getDepPath k) ≠ inl ENOENT) by (by rewrite S).
      pose proof (checkEntry_present b k d w N) as E.
      destruct (Str.slice_to 8 (SHA d)) as [s8 |] eqn:S8.
      * apply (Step b (EvPrint (MCheckOk k (Ref d) s8)));
          [ exact E | intros L; apply slice_short in L; congruence | done ].
      * left. rewrite E. split; [ done | ]. exists k, d.
        split; [ left | split; [ by apply slice_None | by rewrite S ] ].
Qed.

End ShortCheck.

Section ShortUpdate.

Context {P : Platform}.

Lemma updateDependency_parse_error (k : string) (d : Dependency) (p : nat) (e : error)
    (w : World) :
  parseGitHubURL k = Err e →
  updateDependency k d p w = (Ret false, log w [EvPrint (MErrParsingURLOf k e)]).
Proof. intros Hk. unfold updateDependency. by rewrite Hk. Qed.

Lemma updateDependency_resolve_error (k owner repo : string) (d : Dependency) (p : nat)
    (e : error) (w : World) :
  parseGitHubURL k = Ok (owner, repo) →
  resolution owner repo (Ref d) = Err e →
  updateDependency k d p w
  = (Ret false,
     log w (resolution_calls owner repo (Ref d) ++ [EvPrint (MErrResolving k (Ref d) e)])).
Proof.
  intros Hk Hr. unfold updateDependency. rewrite Hk.
  rewrite (bind_ret_run _ _ _ _ _ (resolveRef_run owner repo (Ref d) w)), Hr.
  rewrite bind_run, print_run. cbn beta iota. by rewrite ret_run, log_log.
Qed.

(** One entry of an update: a panic exactly when it comes to print a
    short identifier; otherwise it returns and the Ledger object still
    holds a map. *)
Lemma updateDependency_cases (k : string) (d : Dependency) (p : nat) (v : LockFile)
    (w : World) :
  heap w !! p = Some v → Dependencies v ≠ None →
  ((updateDependency k d p w).1 = Panic ∧ short_on_update k d)
  ∨
  (¬ short_on_update k d ∧
   ∃ b w' v' evs,
     updateDependency k d p w = (Ret b, w') ∧
     heap w' !! p = Some v' ∧ Dependencies v' ≠ None ∧
     trace w' = trace w ++ evs ∧ reported_without_sha k d evs).
Proof.
  intros Hp Hv.
  destruct (parseGitHubURL k) as [[owner repo] | e] eqn:Hk.
  2:{ right. split; [ intros (o & r & s & c & X & _); congruence | ].
      rewrite (updateDependency_parse_error k d p e w Hk).
      eexists _, _, v, _. split; [ reflexivity | ].
      split_and!; [ done | done | done | ]. split.
      - intros e' X. rewrite Hk in X. injection X as <-. left.
      - intros o r e' X. congruence. }
  destruct (resolution owner repo (Ref d)) as [[sha cref] | e] eqn:Hr.
  2:{ right. split; [ intros (o & r & s & c & X & Y & _); congruence | ].
      rewrite (updateDependency_resolve_error k owner repo d p e w Hk Hr).
      eexists _, _, v, _. split; [ reflexivity | ].
      split_and!; [ done | done | done | ]. split.
      - intros e' X. congruence.
      - intros o r e' X Y. rewrite Hk in X. injection X as <- <-.
        rewrite Hr in Y. injection Y as <-. apply elem_of_app. right. left. }
  assert (Rep : ∀ evs, reported_without_sha k d evs).
  { intros evs. split; [ intros e X; congruence | ].
    intros o r e X Y. rewrite Hk in X. injection X as <- <-. congruence. }
  assert (Short : (String.length (SHA d) < 8)%nat ∨ (String.length sha < 8)%nat →
                  short_on_update k d).
  { intros X. by exists owner, repo, sha, cref. }
  assert (Long : (8 ≤ String.length (SHA d))%nat → (8 ≤ String.length sha)%nat →
                 ¬ short_on_update k d).
  { intros L1 L2 (o & r & s & c & X & Y & Z).
    rewrite Hk in X. injection X as <- <-. rewrite Hr in Y. injection Y as <- <-. lia. }
  unfold updateDependency. rewrite Hk.
  rewrite (bind_ret_run _ _ _ _ _ (resolveRef_run owner repo (Ref d) w)), Hr.
  set (w0 := log w (resolution_calls owner repo (Ref d))).
  assert (Hp0 : heap w0 !! p = Some v) by exact Hp.
  destruct (String.eqb_spec sha (SHA d)) as [-> | Ne].
  - rewrite bind_run, first8_run.
    destruct (Str.slice_to 8 (SHA d)) as [s8 |] eqn:S8.
    + right. apply slice_Some in S8. split; [ by apply Long | ].
      rewrite bind_run, print_run. cbn beta iota. rewrite ret_run.
      eexists _, _, v, _. split; [ reflexivity | ].
      split_and!; [ done | done | | apply Rep ].
      unfold w0, log. cbn [trace]. by rewrite <- app_assoc.
    + left. split; [ done | ]. apply Short. left. by apply slice_None.
  - rewrite bind_run, print_run. cbn beta iota. rewrite bind_run, first8_run.
    destruct (Str.slice_to 8 (SHA d)) as [s8 |] eqn:S8;
      [ | left; split; [ done | ]; apply Short; left; by apply slice_None ].
    rewrite bind_run, print_run. cbn beta iota. rewrite bind_run, first8_run.
    destruct (Str.slice_to 8 sha) as [c8 |] eqn:C8;
      [ | left; split; [ done | ]; apply Short; right; by apply slice_None ].
    right. split; [ apply Long; by eapply slice_Some | ].
    rewrite bind_run, print_run. cbn beta iota. rewrite bind_run.
    match goal with |- context [downloadRepo owner repo sha k ?w1] =>
      destruct (downloadRepo_run owner repo sha k w1) as (res & f' & evs_d & -> & _ & _);
      set (w_d := w1)
    end.
    assert (Hpd : heap w_d !! p = Some v) by exact Hp.
    assert (Td : ∃ evs, trace w_d = trace w ++ evs).
    { unfold w_d, w0, log. cbn [trace]. rewrite <- !app_assoc. eauto. }
    destruct Td as [evs0 Td].
    destruct res as [[] | err].
    + unfold map_assign. rewrite bind_run.
      match goal with |- context [mbind _ (deref p) ?w1] =>
        rewrite (bind_ret_run _ _ w1 _ _ (deref_run p w1 v Hpd))
      end.
      destruct (Dependencies v) as [m |] eqn:Dv; [ | done ].
      unfold store at 1. cbn beta iota.
      rewrite bind_run, first8_run, C8. cbn beta iota.
      rewrite bind_run, print_run. cbn beta iota. rewrite ret_run.
      eexists _, _, _, _. split; [ reflexivity | ].
      cbn [heap trace log set_heap].
      split_and!; [ | | | apply Rep ].
      * apply list_lookup_insert_eq. by eapply lookup_lt_Some.
      * done.
      * by rewrite Td, <- !app_assoc.
    + rewrite bind_run, print_run. cbn beta iota. rewrite ret_run.
      eexists _, _, v, _. split; [ reflexivity | ].
      cbn [heap trace log].
      split_and!; [ done | done | | apply Rep ].
      by rewrite Td, <- !app_assoc.
Qed.

Lemma reported_app (k : string) (d : Dependency) (evs1 evs2 : list event) :
  reported_without_sha k d evs1 ∨ reported_without_sha k d evs2 →
  reported_without_sha k d (evs1 ++ evs2).
Proof.
  intros [[A B] | [A B]]; split.
  - intros e X. apply elem_of_app. left. by apply A.
  - intros o r e X Y. apply elem_of_app. left. by eapply B.
  - intros e X. apply elem_of_app. right. by apply A.
  - intros o r e X Y. apply elem_of_app. right. by eapply B.
Qed.

(** The loop of [handleUpdate]. *)
Lemma updateLoop_cases (l : list (string * Dependency)) (s : bool) (p : nat)
    (v : LockFile) (w : World) :
  heap w !! p = Some v → Dependencies v ≠ None →
  ((for_fold l s (updateEntry p) w).1 = Panic ∧
   ∃ kv, kv ∈ l ∧ short_on_update kv.1 kv.2)
  ∨
  ((∀ kv, kv ∈ l → ¬ short_on_update kv.1 kv.2) ∧
   ∃ b w' v' evs,
     for_fold l s (updateEntry p) w = (Ret b, w') ∧
     heap w' !! p = Some v' ∧ Dependencies v' ≠ None ∧
     trace w' = trace w ++ evs ∧
     ∀ kv, kv ∈ l → reported_without_sha kv.1 kv.2 evs).
Proof.
  revert s v w. induction l as [| [k d] l IH]; intros s v w Hp Hv.
  - right. split; [ intros kv Hin; by apply elem_of_nil in Hin | ].
    exists s, w, v, []. rewrite app_nil_r. split_and!; try done.
    intros kv Hin. by apply elem_of_nil in Hin.
  - cbn [for_fold]. rewrite bind_run. unfold updateEntry at 1 3. rewrite bind_run.
    cbn [fst snd].
    destruct (updateDependency_cases k d p v w Hp Hv)
      as [[Pn Sh] | (NSh & b & w1 & v1 & evs1 & E & Hp1 & Hv1 & T1 & R1)].
    + left. destruct (updateDependency k d p w) as [[] w1]; try done.
      split; [ done | ]. exists (k, d). split; [ left | done ].
    + rewrite E. cbn beta iota. rewrite ret_run. cbn beta iota.
      destruct (IH (if b then true else s) v1 w1 Hp1 Hv1)
        as [[Pn (kv & Hin & Sh)] | (NSh' & b' & w2 & v2 & evs2 & E2 & Hp2 & Hv2 & T2 & R2)].
      * left. split; [ exact Pn | ]. exists kv. split; [ by right | done ].
      * right. split.
        { intros kv [-> | Hin]%elem_of_cons; [ exact NSh | by apply NSh' ]. }
        exists b', w2, v2, (evs1 ++ evs2). rewrite E2.
        split_and!; [ done | done | done | by rewrite T2, T1, app_assoc | ].
        intros kv [-> | Hin]%elem_of_cons; apply reported_app; [ by left | right; auto ].
Qed.

Lemma saveLockFile_no_panic (p : nat) (v : LockFile) (w : World) :
  heap w !! p = Some v →
  ∃ r w', saveLockFile p w = (Ret r, w') ∧ ∃ evs, trace w' = trace w ++ evs.
Proof.
  intros Hp. unfold saveLockFile. rewrite (bind_ret_run _ _ _ _ _ (deref_run p w v Hp)).
  destruct (json_indent v) as [data |].
  - unfold writeFile, fsop.
    destruct (FS.WriteFile _ _ _ _ _) as [e f]. eexists _, _. split; [ reflexivity | ].
    cbn [trace set_fs log]. eauto.
  - eexists _, _. split; [ reflexivity | ]. exists []. by rewrite app_nil_r.
Qed.

(** The end of [handleUpdate] does not panic and only adds to the
    trace. *)
Lemma update_tail_no_panic (p : nat) (v : LockFile) (updated : bool) (w : World) :
  heap w !! p = Some v →
  let tail : M unit :=
    if updated then
      x ← saveLockFile p;
      match x with
      | Err err => print (MErrSaving err) ;; exit 1
      | Ok _ => mret tt
      end
    else mret tt in
  (tail w).1 ≠ Panic ∧ ∃ evs, trace (tail w).2 = trace w ++ evs.
Proof.
  intros Hp. destruct updated; cbv zeta.
  - destruct (saveLockFile_no_panic p v w Hp) as (r & w' & E & evs & T).
    rewrite (bind_ret_run _ _ _ _ _ E). destruct r as [[] | err].
    + split; [ done | ]. exists evs. by rewrite ret_run.
    + rewrite bind_run, print_run. split; [ done | ].
      exists (evs ++ [EvPrint (MErrSaving err)]). cbn [snd trace log exit].
      by rewrite T, app_assoc.
  - split; [ done | ]. exists []. by rewrite app_nil_r.
Qed.

End ShortUpdate.

Lemma new_events_app (w w' : World) (evs : list event) :
  trace w' = trace w ++ evs → new_events w w' = evs.
Proof. intros E. unfold new_events. by rewrite E, drop_app_length. Qed.

Section ShortHandlers.

Context {P : Platform}.

Lemma reported_mid (k : string) (d : Dependency) (a evs b : list event) :
  reported_without_sha k d evs → reported_without_sha k d (a ++ evs ++ b).
Proof. intros R. apply reported_app. right. apply reported_app. by left. Qed.

Lemma loaded_has_map (f : filesys) (k : string) (d : Dependency) :
  ledger f !! k = Some d → Dependencies (loaded f) ≠ None.
Proof.
  unfold ledger, deps_of. intros L E. rewrite E in L. simpl in L.
  by rewrite lookup_empty in L.
Qed.

(** [handleCheck] on a Ledger that is not empty. *)
Lemma handleCheck_cases (w : World) (k0 : string) (d0 : Dependency) :
  (∀ m, range_order m ≡ₚ map_to_list m) →
  ledger (fs w) !! k0 = Some d0 →
  ((handleCheck w).1 = Panic ∧
   ∃ k d, ledger (fs w) !! k = Some d ∧ (String.length (SHA d) < 8)%nat ∧
          FS.Stat (fs w) (getDepPath k) ≠ inl ENOENT)
  ∨
  ((handleCheck w).1 = Ret tt ∧
   (∀ k d, ledger (fs w) !! k = Some d → (String.length (SHA d) < 8)%nat →
           FS.Stat (fs w) (getDepPath k) = inl ENOENT) ∧
   (∀ k d, ledger (fs w) !! k = Some d → FS.Stat (fs w) (getDepPath k) = inl ENOENT →
           EvPrint (MCheckMissing k) ∈ new_events w (handleCheck w).2)).
Proof.
  intros Hperm Hk0.
  assert (Mem : ∀ k d, (k, d) ∈ range_order (ledger (fs w)) ↔ ledger (fs w) !! k = Some d).
  { intros k d. by rewrite Hperm, elem_of_map_to_list. }
  assert (Z : (size (ledger (fs w)) =? 0)%nat = false).
  { destruct (size (ledger (fs w)) =? 0)%nat eqn:Z; [ | done ].
    apply size_zero_empty in Z. by rewrite Z, lookup_empty in Hk0. }
  unfold handleCheck. enter_handler. rewrite Z.
  rewrite bind_run, print_run. cbn beta iota. rewrite bind_run.
  match goal with |- context [for_fold ?l true checkEntry ?w1] =>
    destruct (checkLoop_cases l true w1)
      as [[Pn (k & d & Hin & L & S)] | (b' & evs1 & E & A & B)]; set (w_l := w1) in *
  end.
  - left. split.
    + by destruct (for_fold _ true checkEntry w_l) as [[] ?].
    + exists k, d. split; [ by apply Mem | done ].
  - right. rewrite E. cbn beta iota.
    assert (T : ∀ m, trace (print m (log w_l evs1)).2
                     = trace w ++ (evs ++ [EvPrint (MChecking (size (ledger (fs w))))])
                       ++ evs1 ++ [EvPrint m]).
    { intros m. rewrite print_run. unfold w_l, log. cbn [trace snd].
      by rewrite <- !app_assoc. }
    split_and!.
    + by destruct b'.
    + intros k d Hk. apply (A k d). by apply Mem.
    + intros k d Hk S.
      assert (X : EvPrint (MCheckMissing k) ∈ evs1) by (apply (B k d); [ by apply Mem | done ]).
      destruct b'; rewrite (new_events_app _ _ _ (T _));
        apply elem_of_app; right; apply elem_of_app; by left.
Qed.

(** [handleUpdate] on a Ledger that holds the target. *)
Lemma handleUpdate_cases (target k0 : string) (d0 : Dependency) (w : World) :
  (∀ m, range_order m ≡ₚ map_to_list m) →
  ledger (fs w) !! k0 = Some d0 → targeted target k0 →
  ((handleUpdate target w).1 = Panic ∧
   ∃ k d, ledger (fs w) !! k = Some d ∧ targeted target k ∧ short_on_update k d)
  ∨
  ((handleUpdate target w).1 ≠ Panic ∧
   (∀ k d, ledger (fs w) !! k = Some d → targeted target k → ¬ short_on_update k d) ∧
   (∀ k d, ledger (fs w) !! k = Some d → targeted target k →
           reported_without_sha k d (new_events w (handleUpdate target w).2))).
Proof.
  intros Hperm Hk0 T0.
  assert (Mem : ∀ k d, (k, d) ∈ range_order (ledger (fs w)) ↔ ledger (fs w) !! k = Some d).
  { intros k d. by rewrite Hperm, elem_of_map_to_list. }
  assert (Z : (size (ledger (fs w)) =? 0)%nat = false).
  { destruct (size (ledger (fs w)) =? 0)%nat eqn:Z; [ | done ].
    apply size_zero_empty in Z. by rewrite Z, lookup_empty in Hk0. }
  pose proof (loaded_has_map _ _ _ Hk0) as Hv.
  unfold handleUpdate. enter_handler. rewrite Z.
  set (w1 := {| fs := fs w; heap := heap w ++ h; trace := trace w ++ evs |}).
  rewrite bind_run.
  destruct (Str.is_empty target) eqn:Em; cbn [negb].
  - (* every entry *)
    apply is_empty_true in Em.
    rewrite (bind_run (print _)), print_run. cbn beta iota.
    rewrite (bind_run (for_fold _ _ _)).
    set (w2 := log w1 [EvPrint (MCheckingUpdates (size (ledger (fs w))))]).
    destruct (updateLoop_cases (range_order (ledger (fs w))) false p _ w2 Hp Hv)
      as [[Pn ([k d] & Hin & Sh)]
         | (NSh & b & w3 & v3 & evs3 & E3 & Hp3 & Hv3 & T3 & R3)].
    + left. split.
      * by destruct (for_fold _ false (updateEntry p) w2) as [[] ?].
      * exists k, d. split; [ by apply Mem | split; [ by left | done ] ].
    + right. rewrite E3. cbn beta iota.
      assert (Mid : ∃ w4 evs4,
                ((if b then mret tt else print MAllUpToDate) ;; mret b)%cmd w3
                = (Ret b, w4) ∧ heap w4 = heap w3 ∧ trace w4 = trace w3 ++ evs4).
      { destruct b; rewrite bind_run.
        - rewrite ret_run. exists w3, []. by rewrite app_nil_r.
        - rewrite print_run. eexists _, _. split; [ reflexivity | done ]. }
      destruct Mid as (w4 & evs4 & -> & Hh4 & T4). cbn beta iota.
      assert (Hp4 : heap w4 !! p = Some v3) by (by rewrite Hh4).
      destruct (update_tail_no_panic p v3 b w4 Hp4) as [Np [evs5 T5]].
      cbv zeta in Np, T5.
      split; [ exact Np | split ].
      * intros k d Hk _. apply (NSh (k, d)). by apply Mem.
      * intros k d Hk _.
        erewrite new_events_app;
          [ | rewrite T5, T4, T3; unfold w2, w1, log; cbn [trace];
              rewrite <- !app_assoc; reflexivity ].
        apply reported_app. right. apply reported_app. right. apply reported_app. left.
        apply (R3 (k, d)). by apply Mem.
  - (* one entry *)
    assert (target = k0) as ->.
    { destruct T0 as [-> | ->]; [ done | done ]. }
    rewrite Hk0.
    destruct (updateDependency_cases k0 d0 p _ w1 Hp Hv)
      as [[Pn Sh] | (NSh & b & w3 & v3 & evs3 & E3 & Hp3 & Hv3 & T3 & R3)].
    + left. split.
      * by destruct (updateDependency k0 d0 p w1) as [[] ?].
      * exists k0, d0. split; [ done | split; [ by right | done ] ].
    + right. rewrite E3. cbn beta iota.
      destruct (update_tail_no_panic p v3 b w3 Hp3) as [Np [evs5 T5]].
      cbv zeta in Np, T5.
      assert (Only : ∀ k d, ledger (fs w) !! k = Some d → targeted k0 k → k = k0 ∧ d = d0).
      { intros k d Hk [-> | <-]; [ done | ]. rewrite Hk0 in Hk. by injection Hk. }
      split; [ exact Np | split ].
      * intros k d Hk Tk. by destruct (Only k d Hk Tk) as [-> ->].
      * intros k d Hk Tk. destruct (Only k d Hk Tk) as [-> ->].
        erewrite new_events_app;
          [ | rewrite T5, T3; unfold w1; cbn [trace]; rewrite <- !app_assoc; reflexivity ].
        by apply reported_mid.
Qed.

End ShortHandlers.

(** C9 (as amended).  The handlers take the first 8 bytes of an entry's
    identifier only on some of their paths, and panic there when the
    identifier is shorter.  For a Ledger entry with such an identifier:
    [handleInstall] always panics.  [handleCheck] panics when the entry's
    directory is not reported missing, and only then: it panics exactly
    when the Ledger has some entry with a short identifier whose directory
    is not reported missing, and otherwise returns normally, having
    reported this entry's missing directory without its identifier.
    [handleUpdate], for all entries or for this one, panics when the key
    is a well-formed repository address and its ref resolves, and only
    then: it panics exactly when some targeted entry's key parses, its ref
    resolves, and the recorded or the resolved identifier is shorter than 8
    bytes; otherwise this entry's key does not parse or its ref does not
    resolve, and that error is reported for the key without the
    identifier. *)
Theorem short_sha_panics `{Platform} (k : string) (d : Dependency) (w : World) :
  (∀ m, range_order m ≡ₚ map_to_list m) →
  ledger (fs w) !! k = Some d →
  (String.length (SHA d) < 8)%nat →
  (handleInstall w).1 = Panic ∧
  (FS.Stat (fs w) (getDepPath k) ≠ inl ENOENT → (handleCheck w).1 = Panic) ∧
  ((handleCheck w).1 = Panic ↔
   ∃ k' d', ledger (fs w) !! k' = Some d' ∧ (String.length (SHA d') < 8)%nat ∧
            FS.Stat (fs w) (getDepPath k') ≠ inl ENOENT) ∧
  ((handleCheck w).1 ≠ Panic →
   (handleCheck w).1 = Ret tt ∧
   FS.Stat (fs w) (getDepPath k) = inl ENOENT ∧
   EvPrint (MCheckMissing k) ∈ new_events w (handleCheck w).2) ∧
  (∀ owner repo x,
     parseGitHubURL k = Ok (owner, repo) →
     resolution owner repo (Ref d) = Ok x →
     (handleUpdate "" w).1 = Panic ∧ (handleUpdate k w).1 = Panic) ∧
  (∀ target, targeted target k →
     ((handleUpdate target w).1 = Panic ↔
      ∃ k' d', ledger (fs w) !! k' = Some d' ∧ targeted target k' ∧
               short_on_update k' d') ∧
     ((handleUpdate target w).1 ≠ Panic →
      (¬ ∃ owner repo x, parseGitHubURL k = Ok (owner, repo) ∧
                         resolution owner repo (Ref d) = Ok x) ∧
      reported_without_sha k d (new_events w (handleUpdate target w).2))).
Proof.
  intros Hperm Hk L.
  assert (Hin : (k, d) ∈ range_order (ledger (fs w))).
  { rewrite Hperm. by apply elem_of_map_to_list. }
  assert (Z : (size (ledger (fs w)) =? 0)%nat = false).
  { destruct (size (ledger (fs w)) =? 0)%nat eqn:Z; [ | done ].
    apply size_zero_empty in Z. by rewrite Z, lookup_empty in Hk. }
  assert (Check : (handleCheck w).1 = Panic ↔
            ∃ k' d', ledger (fs w) !! k' = Some d' ∧ (String.length (SHA d') < 8)%nat ∧
                     FS.Stat (fs w) (getDepPath k') ≠ inl ENOENT).
  { destruct (handleCheck_cases w k d Hperm Hk) as [[Pn Ex] | (Rt & A & _)].
    - by split.
    - split; [ intros X; by rewrite Rt in X | ].
      intros (k' & d' & Hk' & L' & S'). by destruct (S' (A k' d' Hk' L')). }
  assert (Update : ∀ target, targeted target k →
            ((handleUpdate target w).1 = Panic ↔
             ∃ k' d', ledger (fs w) !! k' = Some d' ∧ targeted target k' ∧
                      short_on_update k' d')).
  { intros target T.
    destruct (handleUpdate_cases target k d w Hperm Hk T) as [[Pn Ex] | (Np & A & _)].
    - by split.
    - split; [ intros X; by destruct Np | ].
      intros (k' & d' & Hk' & T' & S'). by destruct (A k' d' Hk' T'). }
  assert (Sh : ∀ owner repo x, parseGitHubURL k = Ok (owner, repo) →
                 resolution owner repo (Ref d) = Ok x → short_on_update k d).
  { intros owner repo [sha cref] Hu Hr. exists owner, repo, sha, cref. by split_and!; [ | | left ]. }
  split_and!.
  - unfold handleInstall. enter_handler. rewrite Z.
    rewrite bind_run. simpl. apply bind_panics.
    by apply (for_each_panics (λ _, True) _ _ (k, d) Hin never_exits_installEntry
                (λ _ _ _, I) (λ w1 _, installEntry_short k d w1 L)).
  - intros S. apply Check. by exists k, d.
  - exact Check.
  - intros Np. destruct (handleCheck_cases w k d Hperm Hk) as [[Pn _] | (Rt & A & B)];
      [ by destruct Np | ].
    split; [ exact Rt | split; [ by apply (A k d) | apply (B k d); [ done | by apply (A k d) ] ] ].
  - intros owner repo x Hu Hr. split.
    + apply (Update "" (or_introl eq_refl)). exists k, d.
      split; [ done | split; [ by left | by eapply Sh ] ].
    + apply (Update k (or_intror eq_refl)). exists k, d.
      split; [ done | split; [ by right | by eapply Sh ] ].
  - intros target T. split; [ by apply Update | ].
    intros Np. destruct (handleUpdate_cases target k d w Hperm Hk T)
      as [[Pn _] | (_ & A & B)]; [ by destruct Np | ].
    split; [ | by apply B ].
    intros (owner & repo & x & Hu & Hr). apply (A k d Hk T). by eapply Sh.
Qed.

(** A Ledger entry with a three-byte identifier whose directory is
    missing and whose ref does not resolve: [handleCheck] and
    [handleUpdate] report the entry and return normally. *)
Lemma short_sha_reported_not_panic :
  let P := Demo.platform [] [] in
  let w := Demo.world {[ lockPath := FileNode 420 "github.com/o/r,main,abc;" ]} in
  ledger (fs w) !! "github.com/o/r" = Some {| Ref := "main"; SHA := "abc" |} ∧
  (String.length "abc" < 8)%nat ∧
  (handleCheck w).1 = Ret tt ∧
  EvPrint (MCheckMissing "github.com/o/r") ∈ trace (handleCheck w).2 ∧
  (handleUpdate "" w).1 = Ret tt ∧
  EvPrint (MErrResolving "github.com/o/r" "main" (ErrRefNotFound "main"))
    ∈ trace (handleUpdate "" w).2.
Proof.
  intros P w. split_and!.
  - vm_compute; reflexivity.
  - simpl; lia.
  - vm_compute; reflexivity.
  - vm_compute. apply list_elem_of_further, list_elem_of_here.
  - vm_compute; reflexivity.
  - vm_compute. do 3 apply list_elem_of_further. apply list_elem_of_here.
Qed.

(** The same Ledger entry: installing panics; its directory is missing
    and its ref does not resolve, so that checking and updating do not
    panic but report the entry. *)
Lemma short_sha_panics_witness :
  let P := Demo.platform [] [] in
  let w := Demo.world {[ lockPath := FileNode 420 "github.com/o/r,main,abc;" ]} in
  let d := {| Ref := "main"; SHA := "abc" |} in
  (∀ m, range_order m ≡ₚ map_to_list m) ∧
  ledger (fs w) !! "github.com/o/r" = Some d ∧
  (String.length "abc" < 8)%nat ∧
  (handleInstall w).1 = Panic ∧
  (handleCheck w).1 = Ret tt ∧
  EvPrint (MCheckMissing "github.com/o/r") ∈ new_events w (handleCheck w).2 ∧
  EvPrint (MErrResolving "github.com/o/r" "main" (ErrRefNotFound "main"))
    ∈ new_events w (handleUpdate "" w).2.
Proof.
  intros P w d.
  assert (Hperm : ∀ m, range_order m ≡ₚ map_to_list m) by reflexivity.
  assert (Hk : ledger (fs w) !! "github.com/o/r" = Some d) by (vm_compute; reflexivity).
  assert (L : (String.length (SHA d) < 8)%nat) by (simpl; lia).
  assert (Nc : (handleCheck w).1 ≠ Panic) by (vm_compute; discriminate).
  assert (Nu : (handleUpdate "" w).1 ≠ Panic) by (vm_compute; discriminate).
  assert (Hu : parseGitHubURL "github.com/o/r" = Ok ("o", "r")) by reflexivity.
  assert (Hr : resolution "o" "r" (Ref d) = Err (ErrRefNotFound "main"))
    by (vm_compute; reflexivity).
  destruct (short_sha_panics "github.com/o/r" d w Hperm Hk L)
    as (Inst & _ & _ & Chk & _ & Upd).
  destruct (Chk Nc) as (Rt & _ & Rep).
  destruct (Upd "" (or_introl eq_refl)) as [_ Ur].
  destruct (Ur Nu) as [_ [_ Rr]].
  split_and!; [ exact Hperm | exact Hk | exact L | exact Inst | exact Rt | exact Rep | ].
  exact (Rr "o" "r" _ Hu Hr).
Defined.

(** * Further properties of the sources *)

(** ** Dependency specs and repository addresses *)

Lemma Split_no_sep (s : string) (c : ascii) :
  Str.Contains s c = false → Str.Split s c = [s].
Proof.
  induction s as [| a s IH]; [ done | ]. cbn [Str.Contains Str.Split].
  intros [Ha Hs]%orb_false_elim. rewrite Ha, (IH Hs). done.
Qed.

Lemma Split_cons_inv (s : string) (c : ascii) (a : string) (l : list string) :
  Str.Split s c = a :: l →
  Str.Contains a c = false ∧
  (l = [] ∧ s = a ∨ ∃ t, s = a +:+ String c t ∧ Str.Split t c = l).
Proof.
  revert a l. induction s as [| x s IH]; intros a l.
  - intros [= <- <-]. split; [ done | by left ].
  - cbn [Str.Split]. destruct (Ascii.eqb x c) eqn:E.
    + apply Ascii.eqb_eq in E as ->. intros [= <- <-].
      split; [ done | right ]. exists s. by rewrite append_nil.
    + destruct (Str.Split s c) as [| f fs] eqn:S; [ by apply Split_not_nil in S | ].
      intros [= <- <-]. destruct (IH f fs eq_refl) as [Hf Hs].
      split; [ cbn [Str.Contains]; by rewrite E, Hf | ].
      destruct Hs as [[-> ->] | (t & -> & Ht)]; [ by left | right ].
      exists t. by rewrite append_cons.
Qed.

Lemma string_prefix_app (p s : string) : String.prefix p (p +:+ s) = true.
Proof.
  induction p as [| a p IH]; [ by rewrite append_nil; destruct s | ].
  rewrite append_cons, prefix_cons. by destruct (ascii_dec a a).
Qed.

Lemma skip_app (p s : string) : Str.skip (String.length p) (p +:+ s) = s.
Proof.
  induction p as [| a p IH]; [ by rewrite append_nil | ].
  rewrite append_cons. exact IH.
Qed.

Lemma Contains_app (a b : string) (c : ascii) :
  Str.Contains (a +:+ b) c = Str.Contains a c || Str.Contains b c.
Proof.
  induction a as [| x a IH]; [ by rewrite append_nil | ].
  rewrite append_cons. cbn [Str.Contains]. by rewrite IH, orb_assoc.
Qed.

(** X1.  A repository address and a ref, neither containing [@], joined
    by [@] parse back into exactly that pair; the address alone parses
    with the empty ref. *)
Theorem parseGitHubSpec_joined (repoURL ref : string) :
  Str.Contains repoURL "@" = false → Str.Contains ref "@" = false →
  parseGitHubSpec (repoURL +:+ "@" +:+ ref) = Ok (repoURL, ref) ∧
  parseGitHubSpec repoURL = Ok (repoURL, "").
Proof.
  intros Hu Hr. unfold parseGitHubSpec.
  rewrite append_cons, append_nil.
  rewrite Split_app, (Split_no_sep _ _ Hu), (Split_no_sep _ _ Hr). done.
Qed.

Lemma parseGitHubSpec_joined_witness :
  Str.Contains "github.com/o/r" "@" = false ∧ Str.Contains "v1.0" "@" = false ∧
  parseGitHubSpec "github.com/o/r@v1.0" = Ok ("github.com/o/r", "v1.0") ∧
  parseGitHubSpec "github.com/o/r" = Ok ("github.com/o/r", "").
Proof.
  assert (Hu : Str.Contains "github.com/o/r" "@" = false) by reflexivity.
  assert (Hr : Str.Contains "v1.0" "@" = false) by reflexivity.
  split; [ exact Hu | split; [ exact Hr | ] ].
  exact (parseGitHubSpec_joined "github.com/o/r" "v1.0" Hu Hr).
Defined.

Lemma parseGitHubSpec_cases (spec : string) :
  (∀ repoURL ref, parseGitHubSpec spec = Ok (repoURL, ref) →
     Str.Contains repoURL "@" = false ∧ Str.Contains ref "@" = false ∧
     (spec = repoURL ∧ ref = "" ∨ spec = repoURL +:+ "@" +:+ ref)) ∧
  (∀ e, parseGitHubSpec spec = Err e →
     e = ErrInvalidSpec ∧ ∃ a b t, spec = a +:+ "@" +:+ b +:+ "@" +:+ t).
Proof.
  unfold parseGitHubSpec.
  destruct (Str.Split spec "@") as [| a l] eqn:S; [ by apply Split_not_nil in S | ].
  destruct (Split_cons_inv _ _ _ _ S) as [Ha Hs].
  destruct l as [| b l].
  - split; [ | done ]. intros u r [= <- <-].
    destruct Hs as [[_ ->] | (t & _ & Ht)]; [ | by apply Split_not_nil in Ht ].
    split_and!; auto.
  - destruct Hs as [[? _] | (t & -> & Ht)]; [ done | ].
    destruct (Split_cons_inv _ _ _ _ Ht) as [Hb Hs].
    destruct l as [| c l].
    + split; [ | done ]. intros u r [= <- <-].
      destruct Hs as [[_ ->] | (t' & _ & Ht')]; [ | by apply Split_not_nil in Ht' ].
      split_and!; [ done | done | right; by rewrite append_cons, append_nil ].
    + split; [ done | ]. intros e [= <-]. split; [ done | ].
      destruct Hs as [[? _] | (t' & -> & _)]; [ done | ].
      exists a, b, t'. by rewrite !append_cons, !append_nil.
Qed.

(** X2.  What [parseGitHubSpec] accepts: the spec is the address alone
    (the ref is then empty) or address, [@], ref, and neither part contains
    an [@].  What it rejects has at least two [@]. *)
Theorem parseGitHubSpec_inv (spec : string) :
  (∀ repoURL ref, parseGitHubSpec spec = Ok (repoURL, ref) →
     Str.Contains repoURL "@" = false ∧ Str.Contains ref "@" = false ∧
     (spec = repoURL ∧ ref = "" ∨ spec = repoURL +:+ "@" +:+ ref)) ∧
  (∀ e, parseGitHubSpec spec = Err e →
     e = ErrInvalidSpec ∧ ∃ a b t, spec = a +:+ "@" +:+ b +:+ "@" +:+ t).
Proof. apply parseGitHubSpec_cases. Qed.

Lemma parseGitHubSpec_inv_witness :
  parseGitHubSpec "o/r@a@b" = Err ErrInvalidSpec ∧
  ∃ a b t, "o/r@a@b" = a +:+ "@" +:+ b +:+ "@" +:+ t.
Proof.
  assert (E : parseGitHubSpec "o/r@a@b" = Err ErrInvalidSpec) by reflexivity.
  split; [ exact E | ].
  exact (proj2 (proj2 (parseGitHubSpec_inv "o/r@a@b") _ E)).
Defined.

(** X3.  Every address [github.com/owner/repo], with or without a final
    slash, is accepted when owner and repository are non-empty and free of
    slashes, and yields exactly that owner and repository. *)
Theorem parseGitHubURL_accepts (owner repo : string) :
  owner ≠ "" → repo ≠ "" →
  Str.Contains owner "/" = false → Str.Contains repo "/" = false →
  parseGitHubURL ("github.com/" +:+ owner +:+ "/" +:+ repo) = Ok (owner, repo) ∧
  parseGitHubURL ("github.com/" +:+ owner +:+ "/" +:+ repo +:+ "/") = Ok (owner, repo).
Proof.
  intros No Nr Ho Hr. unfold parseGitHubURL, Str.HasPrefix, Str.TrimPrefix, Str.HasPrefix.
  rewrite !string_prefix_app, !skip_app.
  rewrite !(append_cons "/"), !append_nil.
  rewrite !Split_app, (Split_no_sep _ _ Ho), (Split_no_sep _ _ Hr). simpl.
  rewrite (is_empty_false _ No), (is_empty_false _ Nr). done.
Qed.

Lemma parseGitHubURL_accepts_witness :
  "o" ≠ "" ∧ "r" ≠ "" ∧ Str.Contains "o" "/" = false ∧ Str.Contains "r" "/" = false ∧
  parseGitHubURL "github.com/o/r" = Ok ("o", "r") ∧
  parseGitHubURL "github.com/o/r/" = Ok ("o", "r").
Proof.
  assert (No : "o" ≠ "") by discriminate.
  assert (Nr : "r" ≠ "") by discriminate.
  assert (Ho : Str.Contains "o" "/" = false) by reflexivity.
  assert (Hr : Str.Contains "r" "/" = false) by reflexivity.
  split_and!; [ exact No | exact Nr | exact Ho | exact Hr | | ].
  - exact (proj1 (parseGitHubURL_accepts "o" "r" No Nr Ho Hr)).
  - exact (proj2 (parseGitHubURL_accepts "o" "r" No Nr Ho Hr)).
Defined.

Lemma parseGitHubURL_shape (url owner repo : string) :
  parseGitHubURL url = Ok (owner, repo) →
  owner ≠ "" ∧ repo ≠ "" ∧
  Str.Contains owner "/" = false ∧ Str.Contains repo "/" = false ∧
  (url = "github.com/" +:+ owner +:+ "/" +:+ repo ∨
   url = "github.com/" +:+ owner +:+ "/" +:+ repo +:+ "/").
Proof.
  unfold parseGitHubURL, Str.TrimPrefix.
  destruct (Str.HasPrefix url "github.com/") eqn:Pre; [ | done ].
  apply prefix_skip in Pre. revert Pre.
  generalize (Str.skip (String.length "github.com/") url). intros rest ->.
  destruct (Str.Split rest "/") as [| o l] eqn:S; [ done | ].
  destruct (Split_cons_inv _ _ _ _ S) as [Ho Hs].
  destruct l as [| r l]; [ done | ].
  destruct Hs as [[? _] | (t & -> & Ht)]; [ done | ].
  destruct (Split_cons_inv _ _ _ _ Ht) as [Hr Hs].
  assert (Shape : ∀ X : result (string * string),
            (if Str.is_empty o || Str.is_empty r then Err ErrInvalidURL else Ok (o, r)) = X →
            X = Ok (owner, repo) → o = owner ∧ r = repo ∧ owner ≠ "" ∧ repo ≠ "").
  { intros X <-. destruct o, r; simpl; try done. intros [= <- <-]. done. }
  destruct l as [| e l].
  - intros E. destruct (Shape _ eq_refl E) as (-> & -> & No & Nr).
    destruct Hs as [[_ ->] | (t' & _ & Ht')]; [ | by apply Split_not_nil in Ht' ].
    split_and!; [ done | done | done | done | left; by rewrite !append_cons, !append_nil ].
  - destruct Hs as [[? _] | (t' & -> & Ht')]; [ done | ].
    destruct l as [| e' l]; [ | by destruct e ].
    destruct e; [ | done ].
    intros E. destruct (Shape _ eq_refl E) as (-> & -> & No & Nr).
    destruct (Split_cons_inv _ _ _ _ Ht') as [_ [[_ ->] | (t'' & _ & Ht'')]];
      [ | by apply Split_not_nil in Ht'' ].
    split_and!; [ done | done | done | done | right; by rewrite !append_cons, !append_nil ].
Qed.

(** X4.  An accepted address is [github.com/owner/repo], possibly
    followed by one slash, with owner and repository non-empty and free of
    slashes: nothing else gets through. *)
Theorem parseGitHubURL_inv (url owner repo : string) :
  parseGitHubURL url = Ok (owner, repo) →
  owner ≠ "" ∧ repo ≠ "" ∧
  Str.Contains owner "/" = false ∧ Str.Contains repo "/" = false ∧
  (url = "github.com/" +:+ owner +:+ "/" +:+ repo ∨
   url = "github.com/" +:+ owner +:+ "/" +:+ repo +:+ "/").
Proof. apply parseGitHubURL_shape. Qed.

Lemma parseGitHubURL_inv_witness :
  parseGitHubURL "github.com/o/r/" = Ok ("o", "r") ∧
  ("github.com/o/r/" = "github.com/" +:+ "o" +:+ "/" +:+ "r" ∨
   "github.com/o/r/" = "github.com/" +:+ "o" +:+ "/" +:+ "r" +:+ "/").
Proof.
  assert (E : parseGitHubURL "github.com/o/r/" = Ok ("o", "r")) by reflexivity.
  split; [ exact E | ].
  exact (proj2 (proj2 (proj2 (proj2 (parseGitHubURL_inv _ _ _ E))))).
Defined.

(** ** Dependency directories *)

Lemma getDepPath_push (url owner repo : string) :
  parseGitHubURL url = Ok (owner, repo) →
  getDepPath url
  = (false, rev (Path.push false (Path.push false ["github.com"; ".deps"] owner) repo)).
Proof.
  intros (No & Nr & Ho & Hr & Hu)%parseGitHubURL_shape.
  assert (S : ∃ tl, (tl = [] ∨ tl = [""]) ∧
              Str.Split (".deps" +:+ "/" +:+ url) "/"
              = [".deps"; "github.com"; owner; repo] ++ tl).
  { destruct Hu as [-> | ->].
    - exists []. split; [ by left | ].
      change ("github.com/" +:+ ?x) with ("github.com" +:+ String "/" x).
      rewrite !(append_cons "/"), !append_nil.
      by rewrite !Split_app, (Split_no_sep _ _ Ho), (Split_no_sep _ _ Hr).
    - exists [""]. split; [ by right | ].
      change ("github.com/" +:+ ?x) with ("github.com" +:+ String "/" x).
      rewrite !(append_cons "/"), !append_nil.
      by rewrite !Split_app, (Split_no_sep _ _ Ho), (Split_no_sep _ _ Hr). }
  destruct S as (tl & Htl & S).
  unfold getDepPath, Path.JoinStr.
  assert (E : Str.is_empty url = false) by (by destruct Hu as [-> | ->]).
  rewrite E. cbn [Str.is_empty]. unfold Path.Clean. rewrite S.
  unfold Path.clean_segs. rewrite fold_left_app.
  destruct Htl as [-> | ->]; reflexivity.
Qed.

Lemma push_cases (acc : list string) (seg : string) :
  seg ≠ "" →
  Path.push false acc seg
  = if String.eqb seg "." then acc
    else if String.eqb seg ".." then
      match acc with
      | [] => [".."]
      | top :: acc' => if String.eqb top ".." then ".." :: acc else acc'
      end
    else seg :: acc.
Proof.
  intros N. unfold Path.push.
  destruct (String.eqb_spec seg ""); [ done | ]. done.
Qed.

(** X5.  The directory of an accepted address lies inside [.deps], with
    one exception: for owner and repository both [..] it is the working
    directory itself. *)
Theorem getDepPath_accepted (url owner repo : string) :
  parseGitHubURL url = Ok (owner, repo) →
  if decide (owner = ".." ∧ repo = "..") then getDepPath url = (false, [])
  else in_deps (getDepPath url) = true.
Proof.
  intros Hu. rewrite (getDepPath_push _ _ _ Hu).
  apply parseGitHubURL_shape in Hu as (No & Nr & _).
  rewrite (push_cases _ owner No).
  destruct (String.eqb_spec owner "."); [ | destruct (String.eqb_spec owner "..") ].
  - rewrite (push_cases _ repo Nr).
    destruct (decide _) as [[-> _] |]; [ done | ].
    destruct (String.eqb_spec repo "."); [ done | ].
    destruct (String.eqb_spec repo ".."); done.
  - cbn [String.eqb Ascii.eqb]. rewrite (push_cases _ repo Nr).
    destruct (decide _) as [[_ ->] | N]; [ done | ].
    destruct (String.eqb_spec repo "."); [ done | ].
    destruct (String.eqb_spec repo ".."); [ by destruct N | ].
    by unfold in_deps.
  - rewrite (push_cases _ repo Nr).
    destruct (decide _) as [[-> _] |]; [ done | ].
    destruct (String.eqb_spec repo "."); [ | destruct (String.eqb_spec repo "..") ].
    + by unfold in_deps.
    + destruct (String.eqb_spec owner ".."); [ done | ]. done.
    + by unfold in_deps.
Qed.

(** The address [github.com/../..] is accepted, and its directory is the
    working directory. *)
Lemma getDepPath_accepted_witness :
  parseGitHubURL "github.com/../.." = Ok ("..", "..") ∧
  getDepPath "github.com/../.." = (false, []) ∧
  parseGitHubURL "github.com/o/r" = Ok ("o", "r") ∧
  in_deps (getDepPath "github.com/o/r") = true.
Proof.
  assert (E1 : parseGitHubURL "github.com/../.." = Ok ("..", "..")) by reflexivity.
  assert (E2 : parseGitHubURL "github.com/o/r" = Ok ("o", "r")) by reflexivity.
  split; [ exact E1 | ].
  split; [ exact (getDepPath_accepted _ _ _ E1) | ].
  split; [ exact E2 | exact (getDepPath_accepted _ _ _ E2) ].
Defined.

(** X6.  An address and the same address followed by a slash are
    different strings, hence different Ledger keys, yet both are accepted
    as the same owner and repository and both have the same directory. *)
Theorem trailing_slash_alias (url owner repo : string) :
  parseGitHubURL url = Ok (owner, repo) →
  url = "github.com/" +:+ owner +:+ "/" +:+ repo →
  url +:+ "/" ≠ url ∧
  parseGitHubURL (url +:+ "/") = Ok (owner, repo) ∧
  getDepPath (url +:+ "/") = getDepPath url.
Proof.
  intros Hu E.
  destruct (parseGitHubURL_shape _ _ _ Hu) as (No & Nr & Ho & Hr & _).
  assert (Hu' : parseGitHubURL (url +:+ "/") = Ok (owner, repo)).
  { rewrite E. rewrite !append_assoc.
    unfold parseGitHubURL, Str.HasPrefix, Str.TrimPrefix, Str.HasPrefix.
    rewrite !string_prefix_app, !skip_app.
    rewrite !(append_cons "/"), !append_nil.
    rewrite !Split_app, (Split_no_sep _ _ Ho), (Split_no_sep _ _ Hr). simpl.
    by rewrite (is_empty_false _ No), (is_empty_false _ Nr). }
  split_and!; [ | exact Hu' | ].
  - intros X. apply (f_equal String.length) in X.
    rewrite length_app_slash in X. lia.
  - by rewrite (getDepPath_push _ _ _ Hu), (getDepPath_push _ _ _ Hu').
Qed.

Lemma trailing_slash_alias_witness :
  parseGitHubURL "github.com/o/r" = Ok ("o", "r") ∧
  parseGitHubURL "github.com/o/r/" = Ok ("o", "r") ∧
  getDepPath "github.com/o/r/" = getDepPath "github.com/o/r".
Proof.
  assert (E : parseGitHubURL "github.com/o/r" = Ok ("o", "r")) by reflexivity.
  split; [ exact E | ].
  exact (proj2 (trailing_slash_alias "github.com/o/r" "o" "r" E eq_refl)).
Defined.

(** ** Resolution without a ref, and how far a resolution goes *)

(** X7.  With no ref, [resolveRef] asks for the repository, then for the
    branch the repository names as its default, and answers with the tip
    of that branch and the name of the default branch as canonical ref.
    When the repository request is answered with another status than 200,
    the status is the error and the branch is not asked for. *)
Theorem resolveRef_default_branch `{Platform} (owner repo : string) (w : World) :
  (∀ code body,
     remote (repoAPI owner repo) = HttpResp code body → code ≠ 200%Z →
     resolveRef owner repo "" w
     = (Ret (Err (ErrStatus code)), log w [EvGet (repoAPI owner repo)])) ∧
  (∀ body branch,
     remote (repoAPI owner repo) = HttpResp 200 (Some body) →
     json_repo body = Some branch →
     ∃ res,
       resolveRef owner repo "" w
       = (Ret res, log w [EvGet (repoAPI owner repo); EvGet (branchAPI owner repo branch)]) ∧
       match branch_tip owner repo branch with
       | Some sha => res = Ok (sha, branch)
       | None => ∃ e, res = Err e
       end).
Proof.
  split.
  - intros code body R N. unfold resolveRef, getLatestCommitSHA. simpl.
    rewrite bind_run. unfold httpGet at 1. rewrite R.
    destruct (Z.eqb_spec code 200); [ done | ]. done.
  - intros body branch R J. unfold resolveRef, getLatestCommitSHA. simpl.
    rewrite bind_run. unfold httpGet at 1. rewrite R. simpl. rewrite J.
    rewrite bind_run. unfold httpGet at 1. rewrite log_log. simpl.
    unfold branch_tip.
    destruct (remote (branchAPI owner repo branch)) as [| status [b |]]; simpl.
    + eexists. split; [ reflexivity | eauto ].
    + destruct (status =? 200)%Z; simpl.
      * destruct (json_branch b); eexists; (split; [ reflexivity | eauto ]).
      * eexists. split; [ reflexivity | eauto ].
    + destruct (status =? 200)%Z; simpl; eexists; (split; [ reflexivity | eauto ]).
Qed.

(** A repository whose default branch is [trunk]. *)
Lemma resolveRef_default_branch_witness :
  let P := Demo.platform
             [(repoAPI "o" "r", HttpResp 200 (Some "trunk"));
              (branchAPI "o" "r" "trunk", HttpResp 200 (Some Demo.sha_a))] [] in
  remote (repoAPI "o" "r") = HttpResp 200 (Some "trunk") ∧
  json_repo "trunk" = Some "trunk" ∧
  resolveRef "o" "r" "" (Demo.world ∅)
  = (Ret (Ok (Demo.sha_a, "trunk")),
     log (Demo.world ∅) [EvGet (repoAPI "o" "r"); EvGet (branchAPI "o" "r" "trunk")]).
Proof.
  intros P.
  assert (R : remote (repoAPI "o" "r") = HttpResp 200 (Some "trunk")) by reflexivity.
  assert (J : json_repo "trunk" = Some "trunk") by reflexivity.
  split; [ exact R | split; [ exact J | ] ].
  destruct (proj2 (resolveRef_default_branch "o" "r" (Demo.world ∅)) _ _ R J)
    as (res & E & Hres).
  rewrite E. assert (T : branch_tip "o" "r" "trunk" = Some Demo.sha_a) by reflexivity.
  rewrite T in Hres. by rewrite Hres.
Defined.

Lemma string_prefix_refl (s : string) : String.prefix s s = true.
Proof.
  induction s as [| a s IH]; [ done | ].
  rewrite prefix_cons. destruct (ascii_dec a a); [ exact IH | done ].
Qed.

Lemma getLatestCommitSHA_calls `{Platform} (owner repo : string) (w : World) :
  ∃ res evs,
    getLatestCommitSHA owner repo w = (Ret res, log w evs) ∧
    (evs = [EvGet (repoAPI owner repo)] ∨
     ∃ b, evs = [EvGet (repoAPI owner repo); EvGet (branchAPI owner repo b)]).
Proof.
  unfold getLatestCommitSHA. rewrite bind_run. unfold httpGet at 1.
  destruct (remote (repoAPI owner repo)) as [| status body];
    [ eexists _, _; split; [ reflexivity | by left ] | ].
  destruct (negb (status =? 200)%Z);
    [ eexists _, _; split; [ reflexivity | by left ] | ].
  destruct body as [body |]; [ | eexists _, _; split; [ reflexivity | by left ] ].
  destruct (json_repo body) as [b |]; [ | eexists _, _; split; [ reflexivity | by left ] ].
  rewrite bind_run. unfold httpGet at 1. rewrite log_log.
  destruct (remote (branchAPI owner repo b)) as [| status' body'];
    [ eexists _, _; split; [ reflexivity | right; by exists b ] | ].
  destruct (negb (status' =? 200)%Z);
    [ eexists _, _; split; [ reflexivity | right; by exists b ] | ].
  destruct body' as [body' |]; [ | eexists _, _; split; [ reflexivity | right; by exists b ] ].
  destruct (json_branch body'); eexists _, _; (split; [ reflexivity | right; by exists b ]).
Qed.

(** X8.  Whatever the ref, [resolveRef] returns to its caller, leaves the
    file system and the objects in memory alone, and makes at most two
    requests, each to an address below that of the repository. *)
Theorem resolveRef_two_requests `{Platform} (owner repo ref : string) (w : World) :
  ∃ res evs,
    resolveRef owner repo ref w = (Ret res, log w evs) ∧
    (length evs ≤ 2)%nat ∧
    ∀ e, e ∈ evs → ∃ url, e = EvGet url ∧ Str.HasPrefix url (repoAPI owner repo) = true.
Proof.
  assert (B : ∀ x, Str.HasPrefix (branchAPI owner repo x) (repoAPI owner repo) = true)
    by (intros x; apply string_prefix_app).
  assert (T : ∀ x, Str.HasPrefix (tagAPI owner repo x) (repoAPI owner repo) = true)
    by (intros x; apply string_prefix_app).
  assert (R : Str.HasPrefix (repoAPI owner repo) (repoAPI owner repo) = true)
    by apply string_prefix_refl.
  assert (Fin : ∀ evs : list event,
            evs = [] ∨ evs = [EvGet (repoAPI owner repo)] ∨
            (∃ b, evs = [EvGet (repoAPI owner repo); EvGet (branchAPI owner repo b)]) ∨
            evs = [EvGet (branchAPI owner repo ref)] ∨
            evs = [EvGet (branchAPI owner repo ref); EvGet (tagAPI owner repo ref)] →
            (length evs ≤ 2)%nat ∧
            ∀ e, e ∈ evs →
                 ∃ url, e = EvGet url ∧ Str.HasPrefix url (repoAPI owner repo) = true).
  { intros evs [-> | [-> | [[b ->] | [-> | ->]]]]; (split; [ simpl; lia | ]); intros e Hin;
      repeat (apply elem_of_cons in Hin as [-> | Hin]; [ eauto | ]);
      by apply elem_of_nil in Hin. }
  unfold resolveRef. destruct (Str.is_empty ref).
  { destruct (getLatestCommitSHA_calls owner repo w) as (res & evs & E & Hev).
    exists res, evs. split; [ exact E | ]. apply Fin. tauto. }
  destruct (matchCommitSHA ref).
  { exists (Ok (ref, ref)), []. rewrite log_nil. split; [ done | ]. apply Fin. tauto. }
  destruct (getBranchCommitSHA_run owner repo ref w) as (b & Eb & _).
  rewrite (bind_ret_run _ _ _ _ _ Eb).
  destruct b as [[sha rr] | e].
  { eexists _, _. split; [ reflexivity | ]. apply Fin. tauto. }
  destruct (getTagCommitSHA_run owner repo ref
              (log w [EvGet (branchAPI owner repo ref)])) as (t & Et & _).
  rewrite (bind_ret_run _ _ _ _ _ Et), log_log.
  destruct t; (eexists _, _; split; [ reflexivity | apply Fin; tauto ]).
Qed.

(** ** Saving the lock file *)

Lemma WriteFile_lockPath (f : filesys) (data : string) (perm : Z)
    (fault : option (nat * errno)) :
  FS.WriteFile f lockPath data perm fault
  = let written (pm : Z) :=
      match fault with
      | None => (None, <[lockPath := FileNode pm data]> f)
      | Some (n, e) => (Some e, <[lockPath := FileNode pm (String.substring 0 n data)]> f)
      end in
    match f !! lockPath with
    | Some (DirNode _) => (Some EISDIR, f)
    | Some (FileNode pm _) => written pm
    | None => written perm
    end.
Proof. reflexivity. Qed.

Lemma ReadFile_lock_insert (f : filesys) (pm : Z) (data : string) :
  FS.ReadFile (<[lockPath := FileNode pm data]> f) lockPath = Some data.
Proof. unfold FS.ReadFile. by rewrite Stat_lockPath, lookup_insert_eq. Qed.

Lemma saveLockFile_run `{Platform} (p : nat) (v : LockFile) (w : World) :
  heap w !! p = Some v →
  saveLockFile p w
  = match json_indent v with
    | None => (Ret (Err ErrJSON), w)
    | Some data =>
        let r := FS.WriteFile (fs w) lockPath data 420 (write_fault lockPath data) in
        (Ret (match r.1 with Some e => Err (ErrFS e) | None => Ok tt end),
         {| fs := r.2; heap := heap w; trace := trace w ++ [EvWriteFile lockPath data] |})
    end.
Proof.
  intros Hp. unfold saveLockFile. rewrite (bind_ret_run _ _ _ _ _ (deref_run p w v Hp)).
  destruct (json_indent v) as [data |]; [ | done ].
  unfold writeFile, fsop. simpl.
  by destruct (FS.WriteFile (fs w) lockPath data 420 _) as [e f].
Qed.

(** X9.  What is saved is what is loaded: when the decoder reads the
    encoding of a Ledger back into that Ledger and no directory stands at
    the place of the lock file, [saveLockFile] succeeds and a
    [loadLockFile] that follows returns a new object equal to the one
    saved, unless the device fails the write or the close; the error is
    then returned, and the file is left with the bytes that reached it. *)
Theorem save_then_load `{Platform} (p : nat) (v : LockFile) (data : string) (w : World) :
  heap w !! p = Some v →
  json_indent v = Some data →
  json_lock data emptyLock = (v, true) →
  (∀ perm, fs w !! lockPath ≠ Some (DirNode perm)) →
  (write_fault lockPath data = None →
   ∃ w1 q w2,
     saveLockFile p w = (Ret (Ok tt), w1) ∧
     loadLockFile w1 = (Ret q, w2) ∧
     q ≠ p ∧ heap w2 !! q = Some v ∧ heap w2 !! p = Some v ∧
     ledger (fs w2) = deps_of v) ∧
  (∀ n e, write_fault lockPath data = Some (n, e) →
     (saveLockFile p w).1 = Ret (Err (ErrFS e)) ∧
     FS.ReadFile (fs (saveLockFile p w).2) lockPath = Some (String.substring 0 n data)).
Proof.
  intros Hp Hj Hd Hdir.
  rewrite (saveLockFile_run p v w Hp), Hj. cbv zeta. split.
  - intros Hw. rewrite Hw.
    destruct (FS.WriteFile (fs w) lockPath data 420 None) as [e f'] eqn:Wf. simpl.
    assert (e = None) as ->.
    { rewrite WriteFile_lockPath in Wf. cbv zeta in Wf.
      destruct (fs w !! lockPath) as [[pm | pm old] |] eqn:L;
        [ by destruct (Hdir pm) | by injection Wf as <- _ | by injection Wf as <- _ ]. }
    pose proof (WriteFile_lock_read _ _ _ _ _ Wf) as Rd.
    set (w1 := {| fs := f'; heap := heap w; trace := trace w ++ [EvWriteFile lockPath data] |}).
    destruct (loadLockFile_run w1) as (q & h & evs & E & Hq & Hle & _).
    assert (Lv : loaded f' = v) by (unfold loaded; by rewrite Rd, Hd).
    eexists w1, q, _. split_and!; [ done | exact E | | | | ].
    + apply lookup_lt_Some in Hp. simpl in Hle. lia.
    + simpl. by rewrite <- Lv.
    + simpl. by apply lookup_app_l_Some.
    + simpl. unfold ledger. by rewrite Lv.
  - intros n e Hw. rewrite Hw, WriteFile_lockPath. cbv zeta.
    destruct (fs w !! lockPath) as [[pm | pm old] |] eqn:L; [ by destruct (Hdir pm) | | ];
      cbn [fst snd fs]; (split; [ done | apply ReadFile_lock_insert ]).
Qed.

Lemma save_then_load_witness :
  let P := Demo.platform [] [] in
  let data := "github.com/o/r,main," +:+ Demo.sha_a +:+ ";" in
  let v := (json_lock data emptyLock).1 in
  let w := {| fs := ∅; heap := [v]; trace := [] |} in
  deps_of v !! "github.com/o/r" = Some {| Ref := "main"; SHA := Demo.sha_a |} ∧
  heap w !! 0%nat = Some v ∧
  json_indent v = Some data ∧
  json_lock data emptyLock = (v, true) ∧
  write_fault lockPath data = None ∧
  ∃ w1 q w2,
    saveLockFile 0 w = (Ret (Ok tt), w1) ∧ loadLockFile w1 = (Ret q, w2) ∧
    heap w2 !! q = Some v.
Proof.
  intros P data v w.
  assert (Hp : heap w !! 0%nat = Some v) by reflexivity.
  assert (Hj : json_indent v = Some data) by (vm_compute; reflexivity).
  assert (H2 : (json_lock data emptyLock).2 = true) by (vm_compute; reflexivity).
  assert (Hd : json_lock data emptyLock = (v, true)).
  { unfold v. rewrite <- H2. by destruct (json_lock data emptyLock). }
  assert (Hdir : ∀ perm, fs w !! lockPath ≠ Some (DirNode perm)) by done.
  assert (Hw : write_fault lockPath data = None) by reflexivity.
  split; [ vm_compute; reflexivity | ].
  split; [ exact Hp | split; [ exact Hj | split; [ exact Hd | split; [ exact Hw | ] ] ] ].
  destruct (proj1 (save_then_load 0 v _ w Hp Hj Hd Hdir) Hw)
    as (w1 & q & w2 & S & L & _ & Hq & _).
  exists w1, q, w2. split; [ exact S | split; [ exact L | exact Hq ] ].
Defined.

(** X10.  [saveLockFile] touches nothing but the lock file and changes no
    object in memory.  When it succeeds the file holds exactly the
    encoding of the Ledger, whatever it held before.  When it fails,
    either the file system is as it was, or the file had been opened,
    which empties it, and the write or the close failed: the file then
    holds a beginning of the encoding and nothing of what it held before,
    and the error returned is that of the device.  The latter happens
    whenever the Ledger can be encoded, no directory stands at the place
    of the lock file and the device fails. *)
Theorem saveLockFile_effects `{Platform} (p : nat) (w : World) :
  let res := (saveLockFile p w).1 in
  let w' := (saveLockFile p w).2 in
  heap w' = heap w ∧
  (∀ q, q ≠ lockPath → fs w' !! q = fs w !! q) ∧
  (res = Ret (Ok tt) →
   ∃ v data, heap w !! p = Some v ∧ json_indent v = Some data ∧
             write_fault lockPath data = None ∧
             FS.ReadFile (fs w') lockPath = Some data) ∧
  (res ≠ Ret (Ok tt) →
   fs w' = fs w ∨
   ∃ v data n e,
     heap w !! p = Some v ∧ json_indent v = Some data ∧
     write_fault lockPath data = Some (n, e) ∧
     res = Ret (Err (ErrFS e)) ∧
     FS.ReadFile (fs w') lockPath = Some (String.substring 0 n data)) ∧
  (∀ v data n e,
     heap w !! p = Some v → json_indent v = Some data →
     write_fault lockPath data = Some (n, e) →
     (∀ perm, fs w !! lockPath ≠ Some (DirNode perm)) →
     res = Ret (Err (ErrFS e)) ∧
     FS.ReadFile (fs w') lockPath = Some (String.substring 0 n data)).
Proof.
  intros res w'. subst res w'.
  destruct (heap w !! p) as [v |] eqn:Hp.
  2:{ assert (E : saveLockFile p w = (Panic, w)).
      { unfold saveLockFile. rewrite bind_run. unfold deref at 1. by rewrite Hp. }
      rewrite E. simpl. split_and!; [ done | done | done | by left | done ]. }
  rewrite (saveLockFile_run p v w Hp).
  destruct (json_indent v) as [data |] eqn:Hj;
    [ | simpl; split_and!;
          [ done | done | done | by left | intros v' ? ? ? [= <-]; by rewrite Hj ] ].
  cbv zeta.
  destruct (FS.WriteFile (fs w) lockPath data 420 (write_fault lockPath data))
    as [e f'] eqn:Wf. simpl.
  split_and!.
  - done.
  - intros q Hq. change f' with (e, f').2. rewrite <- Wf. by apply WriteFile_frame.
  - destruct e; [ done | ]. intros _. exists v, data.
    split_and!; [ done | done | | by eapply WriteFile_lock_read ].
    rewrite WriteFile_lockPath in Wf. cbv zeta in Wf.
    destruct (write_fault lockPath data) as [[n e] |]; [ | done ].
    by destruct (fs w !! lockPath) as [[|] |].
  - intros Ne. rewrite WriteFile_lockPath in Wf. cbv zeta in Wf.
    destruct (write_fault lockPath data) as [[n e'] |] eqn:Hw.
    + destruct (fs w !! lockPath) as [[pm | pm old] |];
        injection Wf as <- <-; [ by left | right | right ];
        exists v, data, n, e'; split_and!; try done; apply ReadFile_lock_insert.
    + destruct (fs w !! lockPath) as [[pm | pm old] |];
        injection Wf as <- <-; first [ by left | by destruct Ne ].
  - intros v' data' n e' [= <-] Hj' Hw Hdir. rewrite Hj in Hj'. injection Hj' as <-.
    rewrite WriteFile_lockPath in Wf. cbv zeta in Wf. rewrite Hw in Wf.
    destruct (fs w !! lockPath) as [[pm | pm old] |]; [ by destruct (Hdir pm) | | ];
      injection Wf as <- <-; (split; [ done | apply ReadFile_lock_insert ]).
Qed.

(** Saving over a longer lock file: nothing of the old content is left,
    neither when the write goes through nor when the device is full after
    five bytes. *)
Lemma saveLockFile_effects_witness :
  let data := "github.com/o/r,main," +:+ Demo.sha_a +:+ ";" in
  let v := (json_lock (Platform := Demo.platform [] []) data emptyLock).1 in
  let old := "github.com/x/y,main," +:+ Demo.sha_b +:+ ";github.com/o/r,main," +:+ Demo.sha_a
             +:+ ";" in
  let w := {| fs := {[ lockPath := FileNode 384 old ]}; heap := [v]; trace := [] |} in
  (saveLockFile (P := Demo.platform [] []) 0 w).1 = Ret (Ok tt) ∧
  FS.ReadFile (fs (saveLockFile (P := Demo.platform [] []) 0 w).2) lockPath = Some data ∧
  (saveLockFile (P := Demo.full_after 5 (Demo.platform [] [])) 0 w).1
  = Ret (Err (ErrFS ENOSPC)) ∧
  FS.ReadFile (fs (saveLockFile (P := Demo.full_after 5 (Demo.platform [] [])) 0 w).2)
    lockPath = Some "githu".
Proof.
  intros data v old w.
  assert (Hv0 : heap w !! 0%nat = Some v) by reflexivity.
  assert (R : (saveLockFile (P := Demo.platform [] []) 0 w).1 = Ret (Ok tt))
    by (vm_compute; reflexivity).
  assert (R' : (saveLockFile (P := Demo.full_after 5 (Demo.platform [] [])) 0 w).1
               = Ret (Err (ErrFS ENOSPC))) by (vm_compute; reflexivity).
  split; [ exact R | split; [ | split; [ exact R' | ] ] ].
  - destruct (saveLockFile_effects (H := Demo.platform [] []) 0 w) as (_ & _ & S & _ & _).
    destruct (S R) as (v' & data' & Hv & Hj & _ & Rd).
    rewrite Rd. f_equal.
    rewrite Hv0 in Hv. injection Hv as <-.
    assert (Hj0 : json_indent (Platform := Demo.platform [] []) v = Some data)
      by (vm_compute; reflexivity).
    rewrite Hj0 in Hj. by injection Hj.
  - destruct (saveLockFile_effects (H := Demo.full_after 5 (Demo.platform [] [])) 0 w)
      as (_ & _ & _ & F & _).
    destruct F as [Same | (v' & data' & n & e & Hv & Hj & Hw & _ & Rd)].
    + rewrite R'. discriminate.
    + exfalso.
      assert (X : fs (saveLockFile (P := Demo.full_after 5 (Demo.platform [] [])) 0 w).2
                  !! lockPath = fs w !! lockPath) by (by rewrite Same).
      revert X. vm_compute. discriminate.
    + rewrite Rd.
      rewrite Hv0 in Hv. injection Hv as <-.
      assert (Hj0 : json_indent (Platform := Demo.full_after 5 (Demo.platform [] [])) v
                    = Some data) by (vm_compute; reflexivity).
      rewrite Hj0 in Hj. injection Hj as <-.
      assert (Hw0 : write_fault (Platform := Demo.full_after 5 (Demo.platform [] []))
                      lockPath data = Some (5%nat, ENOSPC)) by reflexivity.
      rewrite Hw0 in Hw. injection Hw as <- <-. reflexivity.
Defined.

(** ** Directories made on the way *)

Lemma node_at_None (f : filesys) (p : path) :
  FS.node_at f p = None → f !! p = None.
Proof. unfold FS.node_at. by destruct (FS.anchor p.2). Qed.

Lemma node_at_insert_ne (f : filesys) (p q : path) (n : node) :
  p ≠ q → FS.node_at (<[q := n]> f) p = FS.node_at f p.
Proof. intros N. unfold FS.node_at. by rewrite lookup_insert_ne. Qed.

Lemma node_at_insert_fresh (f : filesys) (q : path) (n : node) :
  FS.node_at f q = None → FS.node_at (<[q := n]> f) q = Some n.
Proof.
  unfold FS.node_at. destruct (FS.anchor q.2); [ done | ].
  intros _. by rewrite lookup_insert_eq.
Qed.

Lemma mkdir_walk_step (f : filesys) (r : bool) (pre rest : list string) (perm : Z) :
  FS.mkdir_walk f r pre rest perm
  = let next (f' : filesys) :=
      match rest with
      | [] => (None, f')
      | s :: rest' =>
          match FS.mkdir_refused (r, pre ++ [s]) s with
          | Some e => (Some e, f')
          | None => FS.mkdir_walk f' r (pre ++ [s]) rest' perm
          end
      end in
    match FS.node_at f (r, pre) with
    | Some (FileNode _ _) => (Some ENOTDIR, f)
    | Some (DirNode _) => next f
    | None => next (<[(r, pre) := DirNode (FS.mkdir_mode perm)]> f)
    end.
Proof. by destruct rest. Qed.

(** [MkdirAll] replaces nothing that exists. *)
Lemma mkdir_walk_grows (perm : Z) (r : bool) (p : path) (n : node) (rest pre : list string)
    (f : filesys) :
  FS.node_at f p = Some n →
  FS.node_at (FS.mkdir_walk f r pre rest perm).2 p = Some n.
Proof.
  revert pre f. induction rest as [| s rest IH]; intros pre f Hn;
    rewrite mkdir_walk_step; cbv zeta;
    destruct (FS.node_at f (r, pre)) as [[pm | pm d] |] eqn:E; simpl; auto.
  - rewrite node_at_insert_ne; [ done | ]. intros ->. congruence.
  - destruct (FS.mkdir_refused _ _); simpl; auto.
  - assert (X : FS.node_at (<[(r, pre) := DirNode (FS.mkdir_mode perm)]> f) p = Some n).
    { rewrite node_at_insert_ne; [ done | ]. intros ->. congruence. }
    destruct (FS.mkdir_refused _ _); simpl; auto.
Qed.

(** When it succeeds, every directory on the way is there. *)
Lemma mkdir_walk_ok (perm : Z) (r : bool) (rest pre : list string) (f f' : filesys) :
  FS.mkdir_walk f r pre rest perm = (None, f') →
  ∀ l, l `prefix_of` rest → ∃ pm, FS.node_at f' (r, pre ++ l) = Some (DirNode pm).
Proof.
  revert pre f. induction rest as [| s rest IH]; intros pre f;
    rewrite mkdir_walk_step; cbv zeta;
    destruct (FS.node_at f (r, pre)) as [[pm | pm d] |] eqn:E; simpl; try done.
  - intros [= <-] l ->%prefix_nil_inv. rewrite app_nil_r. eauto.
  - intros [= <-] l ->%prefix_nil_inv. rewrite app_nil_r.
    eexists. by apply node_at_insert_fresh.
  - destruct (FS.mkdir_refused _ _); [ done | ].
    intros W l Hl. destruct l as [| x l].
    + rewrite app_nil_r. exists pm.
      change f' with (None (A := errno), f').2. rewrite <- W. by apply mkdir_walk_grows.
    + apply prefix_cons_inv_1 in Hl as Hx. subst x.
      apply prefix_cons_inv_2 in Hl.
      destruct (IH _ _ W l Hl) as [pm' Hpm]. exists pm'. by rewrite <- app_assoc in Hpm.
  - destruct (FS.mkdir_refused _ _); [ done | ].
    intros W l Hl. destruct l as [| x l].
    + rewrite app_nil_r. eexists.
      change f' with (None (A := errno), f').2. rewrite <- W. apply mkdir_walk_grows.
      by apply node_at_insert_fresh.
    + apply prefix_cons_inv_1 in Hl as Hx. subst x.
      apply prefix_cons_inv_2 in Hl.
      destruct (IH _ _ W l Hl) as [pm' Hpm]. exists pm'. by rewrite <- app_assoc in Hpm.
Qed.

(** When it succeeds, the system takes every name on the way. *)
Lemma mkdir_walk_names (perm : Z) (r : bool) (rest pre : list string) (f f' : filesys) :
  FS.mkdir_walk f r pre rest perm = (None, f') →
  ∀ l s, l ++ [s] `prefix_of` rest → FS.mkdir_refused (r, pre ++ l ++ [s]) s = None.
Proof.
  revert pre f. induction rest as [| s0 rest IH]; intros pre f;
    rewrite mkdir_walk_step; cbv zeta.
  - intros _ l s Hl. apply prefix_nil_inv in Hl. by destruct l.
  - assert (Next : ∀ f1,
              match FS.mkdir_refused (r, pre ++ [s0]) s0 with
              | Some e => (Some e, f1)
              | None => FS.mkdir_walk f1 r (pre ++ [s0]) rest perm
              end = (None, f') →
              ∀ l s, l ++ [s] `prefix_of` s0 :: rest →
                     FS.mkdir_refused (r, pre ++ l ++ [s]) s = None).
    { intros f1. destruct (FS.mkdir_refused (r, pre ++ [s0]) s0) eqn:R0; [ done | ].
      intros W l s Hl. destruct l as [| x l].
      - simpl in Hl. apply prefix_cons_inv_1 in Hl. by subst s.
      - simpl in Hl. apply prefix_cons_inv_1 in Hl as Hx. subst x.
        apply prefix_cons_inv_2 in Hl.
        pose proof (IH _ _ W l s Hl) as X. by rewrite <- app_assoc in X. }
    destruct (FS.node_at f (r, pre)) as [[pm | pm d] |]; [ apply Next | done | apply Next ].
Qed.

Lemma long_name_false (s : string) :
  FS.long_name s = false ↔ (String.length s ≤ FS.NAME_MAX)%nat.
Proof. unfold FS.long_name. by rewrite Nat.ltb_ge. Qed.

Lemma mkdir_refused_None (p : path) (s : string) :
  FS.mkdir_refused p s = None ↔
  FS.has_nul s = false ∧ (FS.path_length p < FS.PATH_MAX)%nat ∧ FS.long_name s = false.
Proof.
  unfold FS.mkdir_refused. destruct (FS.has_nul s); [ by split; [ | intros [? _] ] | ].
  destruct (Nat.leb_spec FS.PATH_MAX (FS.path_length p)); simpl.
  - split; [ done | intros (_ & ? & _); lia ].
  - destruct (FS.long_name s); [ by split; [ | intros (_ & _ & ?) ] | done ].
Qed.

Lemma walk_dirs (f : filesys) (r : bool) (rest pre : list string) :
  (∀ l, l `prefix_of` rest → ∃ pm, FS.node_at f (r, pre ++ l) = Some (DirNode pm)) →
  (∀ s, s ∈ rest → FS.long_name s = false) →
  ∃ pm, FS.walk f r pre rest = inr (DirNode pm).
Proof.
  revert pre. induction rest as [| s rest IH]; intros pre Hd Hs.
  - destruct (Hd [] (prefix_nil _)) as [pm Hpm]. rewrite app_nil_r in Hpm.
    exists pm. simpl. by rewrite Hpm.
  - destruct (Hd [] (prefix_nil _)) as [pm Hpm]. rewrite app_nil_r in Hpm.
    simpl. rewrite Hpm, (Hs s) by left. apply IH.
    + intros l Hl. rewrite <- app_assoc. apply Hd. by apply list.prefix_cons.
    + intros s' Hin. apply Hs. by right.
Qed.

Lemma existsb_false {A} (f : A → bool) (l : list A) :
  existsb f l = false ↔ ∀ x, x ∈ l → f x = false.
Proof.
  induction l as [| a l IH]; simpl.
  - split; [ intros _ x Hx; by apply elem_of_nil in Hx | done ].
  - rewrite orb_false_iff, IH. split.
    + intros [Ha Hl] x [-> | Hx]%elem_of_cons; auto.
    + intros Hx. split; [ apply Hx; left | intros x Hin; apply Hx; by right ].
Qed.

(** What a successful [MkdirAll] says about the name. *)
Lemma MkdirAll_names (f f' : filesys) (p : path) (perm : Z) :
  FS.MkdirAll f p perm = (None, f') →
  (∀ s, s ∈ p.2 → FS.has_nul s = false ∧ FS.long_name s = false) ∧
  (p.2 ≠ [] → (FS.path_length p < FS.PATH_MAX)%nat).
Proof.
  intros W. unfold FS.MkdirAll in W.
  pose proof (mkdir_walk_names _ _ _ _ _ _ W) as Hn. destruct p as [r segs]. simpl in *.
  split.
  - intros s Hin. apply list_elem_of_split in Hin as (l1 & l2 & ->).
    assert (X : FS.mkdir_refused (r, l1 ++ [s]) s = None).
    { apply Hn. exists l2. by rewrite <- app_assoc. }
    apply mkdir_refused_None in X as (? & _ & ?). done.
  - intros Ne. destruct segs as [| s segs] using rev_ind; [ done | ].
    assert (X : FS.mkdir_refused (r, segs ++ [s]) s = None) by (by apply Hn).
    apply mkdir_refused_None in X as (_ & ? & _). done.
Qed.

Lemma path_length_here (r : bool) : FS.path_length (r, []) = 1%nat.
Proof. reflexivity. Qed.

Lemma MkdirAll_refused (f f' : filesys) (p : path) (perm : Z) :
  FS.MkdirAll f p perm = (None, f') → FS.refused p = None.
Proof.
  intros W. destruct (MkdirAll_names _ _ _ _ W) as [Hs Hl]. unfold FS.refused.
  assert (E : existsb FS.has_nul p.2 = false).
  { apply existsb_false. intros s Hin. by apply Hs. }
  rewrite E. destruct p as [r [| s l]].
  - reflexivity.
  - specialize (Hl ltac:(done)).
    destruct (Nat.leb_spec FS.PATH_MAX (FS.path_length (r, s :: l))); [ lia | done ].
Qed.

Lemma MkdirAll_Stat (f f' : filesys) (p : path) (perm : Z) :
  FS.MkdirAll f p perm = (None, f') → ∃ pm, FS.Stat f' p = inr (DirNode pm).
Proof.
  intros W. unfold FS.Stat. rewrite (MkdirAll_refused _ _ _ _ W).
  apply walk_dirs.
  - intros l Hl. exact (mkdir_walk_ok _ _ _ _ _ _ W l Hl).
  - intros s Hin. by apply (MkdirAll_names _ _ _ _ W).
Qed.

(** What [MkdirAll] changes: paths on the way that were absent. *)
Lemma mkdir_walk_change (perm : Z) (r : bool) (p : path) (rest pre : list string)
    (f : filesys) :
  (FS.mkdir_walk f r pre rest perm).2 !! p = f !! p ∨
  (f !! p = None ∧ (∃ l, l `prefix_of` rest ∧ p = (r, pre ++ l)) ∧
   (FS.mkdir_walk f r pre rest perm).2 !! p = Some (DirNode (FS.mkdir_mode perm))).
Proof.
  revert pre f. induction rest as [| s rest IH]; intros pre f;
    rewrite mkdir_walk_step; cbv zeta;
    destruct (FS.node_at f (r, pre)) as [[pm | pm d] |] eqn:E; simpl; auto.
  - destruct (decide (p = (r, pre))) as [-> | N].
    + right. split_and!; [ by apply node_at_None | | by rewrite lookup_insert_eq ].
      exists []. by rewrite app_nil_r.
    + left. by rewrite lookup_insert_ne.
  - destruct (FS.mkdir_refused _ _); [ by left | ].
    destruct (IH (pre ++ [s]) f) as [-> | (Hn & (l & Hl & ->) & Hs)]; [ by left | right ].
    split_and!; [ done | | done ].
    exists (s :: l). split; [ by apply list.prefix_cons | by rewrite <- app_assoc ].
  - set (f1 := <[(r, pre) := DirNode (FS.mkdir_mode perm)]> f).
    assert (Here : p = (r, pre) → f !! p = None ∧
                   (∃ l, l `prefix_of` s :: rest ∧ p = (r, pre ++ l)) ∧
                   f1 !! p = Some (DirNode (FS.mkdir_mode perm))).
    { intros ->. split_and!; [ by apply node_at_None | | apply lookup_insert_eq ].
      exists []. split; [ apply prefix_nil | by rewrite app_nil_r ]. }
    destruct (FS.mkdir_refused _ _) eqn:Rf; simpl.
    { destruct (decide (p = (r, pre))) as [-> | N]; [ right; by apply Here | left ].
      unfold f1. by rewrite lookup_insert_ne. }
    destruct (decide (p = (r, pre))) as [-> | N].
    + right. destruct (Here eq_refl) as (A & B & C). split_and!; [ done | done | ].
      assert (X : FS.node_at (FS.mkdir_walk f1 r (pre ++ [s]) rest perm).2 (r, pre)
                  = Some (DirNode (FS.mkdir_mode perm)))
        by (apply mkdir_walk_grows; by apply node_at_insert_fresh).
      unfold FS.node_at in X. unfold FS.node_at in E.
      destruct (FS.anchor (r, pre).2); [ done | exact X ].
    + destruct (IH (pre ++ [s]) f1) as [-> | (Hn & (l & Hl & ->) & Hs)].
      * left. unfold f1. by rewrite lookup_insert_ne.
      * right. unfold f1 in Hn. rewrite lookup_insert_ne in Hn by done.
        split_and!; [ done | | done ].
        exists (s :: l). split; [ by apply list.prefix_cons | by rewrite <- app_assoc ].
Qed.

Lemma seg_prefix_spec (a b : list string) :
  FS.seg_prefix a b = true ↔ a `prefix_of` b.
Proof.
  revert b. induction a as [| x a IH]; intros b; simpl.
  - split; [ intros _; apply prefix_nil | done ].
  - destruct b as [| y b]; [ split; [ done | by intros ?%prefix_nil_not ] | ].
    rewrite andb_true_iff, IH. split.
    + intros [->%String.eqb_eq H]. by apply list.prefix_cons.
    + intros H. split.
      * apply String.eqb_eq. by apply prefix_cons_inv_1 in H.
      * by apply prefix_cons_inv_2 in H.
Qed.

Lemma under_spec (p q : path) :
  FS.under p q = true ↔ p.1 = q.1 ∧ p.2 `prefix_of` q.2.
Proof.
  unfold FS.under. by rewrite andb_true_iff, seg_prefix_spec, Bool.eqb_true_iff.
Qed.

Lemma under_refl (p : path) : FS.under p p = true.
Proof. by apply under_spec. Qed.




(** ** A body that is not an archive *)

Lemma fsop_run (op : filesys -> option errno * filesys) (w : World) :
  fsop op w
  = (Ret (match (op (fs w)).1 with Some e => Err (ErrFS e) | None => Ok tt end),
     set_fs w (op (fs w)).2).
Proof. unfold fsop. by destruct (op (fs w)). Qed.






(** ** A failed request *)

Lemma MkdirAll_deps (f : filesys) :
  FS.MkdirAll f (Path.Clean ".deps") 493
  = match f !! (false, [".deps"]) with
    | Some (FileNode _ _) => (Some ENOTDIR, f)
    | Some (DirNode _) => (None, f)
    | None => (None, <[(false, [".deps"]) := DirNode 493]> f)
    end.
Proof.
  unfold FS.MkdirAll. change (Path.Clean ".deps") with (false, [".deps"]).
  cbn [fst snd]. rewrite mkdir_walk_step. cbv zeta.
  change (FS.node_at f (false, [])) with (Some (DirNode 493)). cbn beta iota.
  change (FS.mkdir_refused (false, [] ++ [".deps"]) ".deps") with (@None errno).
  cbn beta iota. rewrite mkdir_walk_step. cbv zeta.
  change (FS.node_at f (false, [] ++ [".deps"])) with (f !! (false, [".deps"])).
  by destruct (f !! (false, [".deps"])) as [[] |].
Qed.

(** X12.  When the tarball request fails or is answered with another
    status than 200, [downloadRepo] fails without touching what is
    installed: the only change it can have made is the creation of the
    directory [.deps]. *)
Theorem downloadRepo_refused `{Platform} (owner repo sha k : string) (w : World) :
  (∀ body, remote (tarballAPI owner repo sha) ≠ HttpResp 200 body) →
  ∃ e w',
    downloadRepo owner repo sha k w = (Ret (Err e), w') ∧
    heap w' = heap w ∧
    (fs w' = fs w ∨
     fs w !! (false, [".deps"]) = None ∧
     fs w' = <[(false, [".deps"]) := DirNode 493]> (fs w)).
Proof.
  intros R. unfold downloadRepo. rewrite bind_run, fsop_run, MkdirAll_deps.
  assert (Fin : ∀ f1 : filesys,
            (f1 = fs w ∨ fs w !! (false, [".deps"]) = None ∧
                         f1 = <[(false, [".deps"]) := DirNode 493]> (fs w)) →
            ∃ e w',
              (resp ← httpGet (tarballAPI owner repo sha);
               match resp with
               | HttpFail => mret (Err ErrTransport)
               | HttpResp status body =>
                   if negb (status =? 200)%Z then mret (Err (ErrStatus status))
                   else
                     x ← extractTarball body (getDepPath k);
                     match x with
                     | Err err => mret (Err err)
                     | Ok _ => print (MDownloadedTo (getDepPath k)) ;; mret (Ok tt)
                     end
               end) (set_fs w f1) = (Ret (Err e), w') ∧
              heap w' = heap w ∧
              (fs w' = fs w ∨ fs w !! (false, [".deps"]) = None ∧
                              fs w' = <[(false, [".deps"]) := DirNode 493]> (fs w))).
  { intros f1 Hf. rewrite bind_run. unfold httpGet at 1.
    destruct (remote (tarballAPI owner repo sha)) as [| status body] eqn:E.
    - eexists _, _. split; [ reflexivity | ]. split; [ done | exact Hf ].
    - destruct (Z.eqb_spec status 200) as [-> | Ns]; [ by destruct (R body) | ].
      eexists _, _. split; [ reflexivity | ]. split; [ done | exact Hf ]. }
  destruct (fs w !! (false, [".deps"])) as [[pm | pm old] |] eqn:L; cbn [fst snd].
  - apply Fin. by left.
  - eexists _, _. split; [ reflexivity | ]. split; [ done | by left ].
  - apply Fin. by right.
Qed.

Lemma downloadRepo_refused_witness :
  let P := Demo.platform [(tarballAPI "o" "r" Demo.sha_a, HttpResp 404 None)] [] in
  let old : path := (false, [".deps"; "github.com"; "o"; "r"; "a.txt"]) in
  let w := Demo.world {[ (false, [".deps"]) := DirNode 493; old := FileNode 420 "hello" ]} in
  (∀ body, remote (tarballAPI "o" "r" Demo.sha_a) ≠ HttpResp 200 body) ∧
  ∃ e w', downloadRepo "o" "r" Demo.sha_a "github.com/o/r" w = (Ret (Err e), w') ∧
          fs w' = fs w.
Proof.
  intros P old w.
  assert (R : ∀ body, remote (tarballAPI "o" "r" Demo.sha_a) ≠ HttpResp 200 body)
    by (intros body; discriminate).
  split; [ exact R | ].
  destruct (downloadRepo_refused "o" "r" Demo.sha_a "github.com/o/r" w R)
    as (e & w' & E & _ & [F | [F _]]).
  - exists e, w'. split; [ exact E | exact F ].
  - exfalso. revert F. vm_compute. discriminate.
Defined.

(** ** What an extraction can reach *)

#[export] Instance tree_only_pre (dest : path) : PreOrder (tree_only dest).
Proof.
  split.
  - intros w p _. by left.
  - intros w1 w2 w3 H12 H23 p U.
    destruct (H12 p U) as [E12 | (N1 & A & pm & D2)];
      destruct (H23 p U) as [E23 | (N2 & A' & pm' & D3)].
    + left. by rewrite E23.
    + right. rewrite <- E12. split_and!; eauto.
    + right. rewrite E23. split_and!; eauto.
    + congruence.
Qed.

Lemma tree_only_removeAll (dest : path) : steps (tree_only dest) (removeAll dest).
Proof. intros w p U. left. by apply RemoveAll_frame. Qed.

Lemma tree_only_mkdir (dest q : path) (perm : Z) :
  FS.under dest q = true ∨ FS.under q dest = true →
  steps (tree_only dest) (fsop (λ f, FS.MkdirAll f q perm)).
Proof.
  intros Hq w p U. rewrite fsop_run. cbn [snd fs set_fs]. unfold FS.MkdirAll.
  destruct (mkdir_walk_change perm q.1 p q.2 [] (fs w))
    as [-> | (Hn & (l & Hl & ->) & Hs)]; [ by left | right ].
  split_and!; [ done | | eauto ].
  simpl. apply under_spec. simpl.
  destruct Hq as [Hq | Hq]; apply under_spec in Hq as [Hr Hq].
  - split; [ done | ].
    destruct (prefix_weak_total _ _ _ Hl Hq) as [X | X]; [ done | ].
    exfalso. assert (Y : FS.under dest (q.1, l) = true) by (by apply under_spec).
    simpl in U. congruence.
  - split; [ done | ]. by trans q.2.
Qed.

Lemma tree_only_create (dest target : path) (perm : Z) (data : string) :
  FS.under dest target = true →
  steps (tree_only dest) (fsop (λ f, FS.create_write f target perm data)).
Proof.
  intros Ht w p U. rewrite fsop_run. cbn [snd fs set_fs]. left.
  apply create_write_frame. intros ->. congruence.
Qed.

Lemma under_Dir (dest target : path) :
  FS.under dest target = true →
  FS.under dest (Path.Dir target) = true ∨ FS.under (Path.Dir target) dest = true.
Proof.
  intros [Hr [k Hk]]%under_spec. unfold Path.Dir.
  destruct (decide (k = [])) as [-> | Nk].
  - right. apply under_spec. simpl. split; [ done | ].
    rewrite Hk, app_nil_r. exists (match last dest.2 with Some x => [x] | None => [] end).
    destruct dest.2 as [| x l] using rev_ind; [ done | ].
    by rewrite removelast_last, last_snoc.
  - left. apply under_spec. simpl. split; [ done | ].
    rewrite Hk. destruct k as [| x k] using rev_ind; [ done | ].
    rewrite app_assoc, removelast_last. by exists k.
Qed.

Lemma tree_only_writeEntry (dest target : path) (e : tar_entry) :
  FS.under dest target = true → steps (tree_only dest) (writeEntry target e).
Proof.
  intros Ht. unfold writeEntry. destruct (Typeflag (hdr e)).
  - apply steps_bind; [ apply tree_only_mkdir; by apply under_Dir | intros [? | ?] ].
    + apply steps_bind; [ by apply tree_only_create | intros [? | ?] ].
      * destruct (content_ok e); apply steps_ret.
      * apply steps_ret.
    + apply steps_ret.
  - apply tree_only_mkdir. by left.
  - apply steps_ret.
  - apply steps_ret.
Qed.

Lemma fold_push_local (r : bool) (segs acc : list string) :
  ".." ∉ segs → ∃ l, fold_left (Path.push r) segs acc = l ++ acc.
Proof.
  revert acc. induction segs as [| s segs IH]; intros acc Hn; [ by exists [] | ].
  apply not_elem_of_cons in Hn as [Hs Hn]. simpl.
  assert (X : Path.push r acc s = acc ∨ Path.push r acc s = s :: acc).
  { unfold Path.push. destruct (String.eqb s "" || String.eqb s "."); [ by left | ].
    destruct (String.eqb_spec s ".."); [ done | by right ]. }
  destruct X as [-> | ->]; [ by apply IH | ].
  destruct (IH (s :: acc) Hn) as [l ->]. exists (l ++ [s]). by rewrite <- app_assoc.
Qed.

Lemma Join_under (dest : path) (name : string) :
  local_name name → FS.under dest (Path.Join dest name) = true.
Proof.
  intros L. apply under_spec. unfold Path.Join. simpl. split; [ done | ].
  destruct (fold_push_local dest.1 (Str.Split name "/") (rev dest.2) L) as [l ->].
  rewrite rev_app_distr, rev_involutive. by exists (rev l).
Qed.

Lemma tree_only_extractEntries (dest : path) (eof : bool) (es : list tar_entry)
    (rootDir : string) :
  (∀ e, e ∈ es → local_name (Name (hdr e))) →
  (rootDir = "" ∨ ∃ p0, rootDir = p0 +:+ "/") →
  steps (tree_only dest) (extractEntries dest rootDir es eof).
Proof.
  revert rootDir. induction es as [| e es IH]; intros rootDir Hl Hroot.
  - simpl. destruct eof; apply steps_ret.
  - assert (Hl' : ∀ e', e' ∈ es → local_name (Name (hdr e')))
      by (intros e' Hin; apply Hl; by right).
    cbn [extractEntries].
    destruct (is_xglobal _ || _); [ by apply IH | ].
    pose proof (detectRoot_shape rootDir (Name (hdr e)) Hroot) as Hroot'.
    destruct (is_dir _ && _ && _); [ by apply IH | ].
    destruct (Str.is_empty _ || negb (Str.HasPrefix _ _)) eqn:Pre; [ by apply IH | ].
    destruct (Str.is_empty (Str.TrimPrefix _ _)); [ by apply IH | ].
    apply orb_false_elim in Pre as [Ne Pre]. apply negb_false_iff in Pre.
    pose proof Hroot' as Shape.
    destruct Hroot' as [E | [p0 E]]; [ by rewrite E in Ne | ].
    apply steps_bind.
    + apply tree_only_writeEntry, Join_under.
      rewrite E in Pre |- *. apply local_TrimPrefix; [ done | ]. apply Hl. by left.
    + intros [? | ?]; [ by apply IH | apply steps_ret ].
Qed.

(** X13.  An archive whose entry names have no parent-directory segment
    is extracted into the tree below the destination and nowhere else:
    every other path is left as it was, except that missing directories on
    the way to the destination are made. *)
Theorem extractTarball_stays_below `{Platform} (body : option string) (dest p : path)
    (w : World) :
  (∀ tr, targz body = Some tr → local_stream tr) →
  FS.under dest p = false →
  let f' := fs (extractTarball body dest w).2 in
  f' !! p = fs w !! p ∨
  (fs w !! p = None ∧ FS.under p dest = true ∧ ∃ pm, f' !! p = Some (DirNode pm)).
Proof.
  intros L U. revert p U. change (tree_only dest w (extractTarball body dest w).2).
  revert w. change (steps (tree_only dest) (extractTarball body dest)).
  unfold extractTarball.
  apply steps_bind; [ apply tree_only_removeAll | intros _ ].
  apply steps_bind; [ apply tree_only_mkdir; left; apply under_refl | intros [? | ?] ].
  - destruct (targz body) as [tr |] eqn:T; [ | apply steps_ret ].
    apply tree_only_extractEntries; [ by apply L | by left ].
  - apply steps_ret.
Qed.

(** Extracting one dependency next to another one. *)
Lemma extractTarball_stays_below_witness :
  let P := Demo.platform [] [("ex", Demo.example_archive)] in
  let other : path := (false, [".deps"; "github.com"; "o"; "q"; "b.txt"]) in
  let dest : path := (false, [".deps"; "github.com"; "o"; "r"]) in
  let w := Demo.world {[ other := FileNode 420 "kept" ]} in
  (∀ tr, targz (Some "ex") = Some tr → local_stream tr) ∧
  FS.under dest other = false ∧
  fs (extractTarball (Some "ex") dest w).2 !! other = Some (FileNode 420 "kept").
Proof.
  intros P other dest w.
  assert (L : ∀ tr, targz (Some "ex") = Some tr → local_stream tr).
  { intros tr [= <-]. apply example_archive_local. }
  assert (U : FS.under dest other = false) by reflexivity.
  split; [ exact L | split; [ exact U | ] ].
  destruct (extractTarball_stays_below (Some "ex") dest other w L U) as [E | (N & _)].
  - rewrite E. reflexivity.
  - exfalso. revert N. vm_compute. discriminate.
Defined.

(** ** Finding the wrapper *)

Lemma first_segment_no_slash (name : string) :
  Str.Contains (first_segment name) "/" = false.
Proof.
  unfold first_segment. destruct (Str.Split name "/") as [| s l] eqn:S; [ done | ].
  by destruct (Split_cons_inv _ _ _ _ S).
Qed.

Lemma first_segment_prefix (w name : string) :
  Str.Contains w "/" = false → String.prefix (w +:+ "/") name = true →
  first_segment name = w.
Proof.
  intros Hw Pre. apply prefix_skip in Pre. rewrite Pre. unfold first_segment.
  rewrite append_assoc, append_cons, append_nil, Split_app, (Split_no_sep _ _ Hw). done.
Qed.

Lemma detectRoot_plain (name : string) :
  Str.Contains name "/" && Str.Contains (first_segment name) "-" = false →
  detectRoot "" name = "".
Proof.
  unfold detectRoot, first_segment. simpl.
  destruct (Str.Contains name "/"); [ | done ]. simpl.
  destruct (Str.Split name "/") as [| part0 ?]; [ done | ]. by intros ->.
Qed.

Lemma extractEntries_wrapper `{Platform} (dest : path) (eof : bool) (es : list tar_entry) :
  extractEntries dest "" es eof
  = match wrapper_entry es with
    | Some e0 =>
        write_stripped dest (S (String.length (first_segment (Name (hdr e0)))))
          (List.filter (kept (first_segment (Name (hdr e0)))) es) eof
    | None => if eof then mret (Ok tt) else mret (Err ErrTar)
    end.
Proof.
  induction es as [| e es IH]; [ done | ].
  unfold wrapper_entry in *. cbn [List.find].
  destruct (is_meta e) eqn:Meta; pose proof Meta as Meta'; unfold is_meta in Meta'.
  { cbn [negb andb]. cbn [extractEntries]. rewrite Meta', IH.
    destruct (List.find _ es) as [e0 |]; [ | done ].
    cbn [List.filter].
    assert (K : kept (first_segment (Name (hdr e0))) e = false)
      by (unfold kept; by rewrite Meta).
    by rewrite K. }
  cbn [negb andb].
  destruct (Str.Contains (Name (hdr e)) "/" && Str.Contains (first_segment (Name (hdr e))) "-")
    eqn:Hy.
  - apply andb_true_iff in Hy as [Slash Hyph].
    rewrite <- extractEntries_under.
    cbn [extractEntries]. rewrite Meta'.
    rewrite (detectRoot_first _ Slash Hyph).
    by rewrite (detectRoot_set _ _ (is_empty_app_slash _)).
  - cbn [extractEntries]. rewrite Meta'.
    rewrite (detectRoot_plain _ Hy). cbn [Str.is_empty negb andb orb].
    rewrite andb_false_r. rewrite IH.
    destruct (List.find _ es) as [e0 |] eqn:F; [ | done ].
    apply find_some in F as [_ F]. apply andb_true_iff in F as [_ Hyph0].
    cbn [List.filter].
    assert (K : kept (first_segment (Name (hdr e0))) e = false).
    { unfold kept. rewrite Meta. cbn [negb andb].
      destruct (Str.HasPrefix (Name (hdr e)) (first_segment (Name (hdr e0)) +:+ "/"))
        eqn:Pre; [ exfalso | done ].
      unfold Str.HasPrefix in Pre.
      rewrite (prefix_slash_Contains _ _ Pre) in Hy.
      by rewrite (first_segment_prefix _ _ (first_segment_no_slash _) Pre), Hyph0 in Hy. }
    by rewrite K.
Qed.

(** X14.  The wrapper is fixed by the first entry, metadata aside, whose
    name contains a separator and whose first segment contains a hyphen;
    entries before it are skipped.  From then on exactly the entries below
    the wrapper are written, each at its name less the wrapper prefix.
    When no entry fixes a wrapper nothing is written at all, and the
    extraction still succeeds if the stream ends properly. *)
Theorem extractTarball_wrapper `{Platform} (body : option string) (tr : tar_stream)
    (dest : path) :
  targz body = Some tr →
  extractTarball body dest
  = (removeAll dest ;;
     m ← fsop (λ f, FS.MkdirAll f dest 493);
     match m with
     | Err err => mret (Err err)
     | Ok _ =>
         match wrapper_entry (entries tr) with
         | Some e0 =>
             write_stripped dest (S (String.length (first_segment (Name (hdr e0)))))
               (List.filter (kept (first_segment (Name (hdr e0)))) (entries tr))
               (clean_eof tr)
         | None => if clean_eof tr then mret (Ok tt) else mret (Err ErrTar)
         end
     end)%cmd.
Proof.
  intros T. unfold extractTarball. rewrite T. by rewrite extractEntries_wrapper.
Qed.

(** An archive without wrapper: nothing is extracted, and the result is
    success. *)
Lemma extractTarball_wrapper_witness :
  let tr := {| entries := [Demo.reg "src/a.txt" "hello"; Demo.reg "README" "x"];
               clean_eof := true |} in
  let P := Demo.platform [] [("flat", tr)] in
  let out : path := (true, ["out"]) in
  targz (Some "flat") = Some tr ∧
  wrapper_entry (entries tr) = None ∧
  ∃ w', extractTarball (Some "flat") out (Demo.world ∅) = (Ret (Ok tt), w') ∧
        fs w' !! (true, ["out"]) = Some (DirNode 493) ∧
        fs w' !! (true, ["out"; "src"; "a.txt"]) = None ∧
        fs w' !! (true, ["out"; "README"]) = None.
Proof.
  intros tr P out.
  assert (T : targz (Some "flat") = Some tr) by reflexivity.
  split; [ exact T | split; [ reflexivity | ] ].
  rewrite (extractTarball_wrapper (Some "flat") tr out T).
  eexists. split; [ vm_compute; reflexivity | ].
  split; [ vm_compute; reflexivity | ].
  split; vm_compute; reflexivity.
Defined.

(** ** Regular files *)

Lemma name_taken_spec (p : path) :
  name_taken p = true ↔
  (∀ s, s ∈ p.2 → FS.has_nul s = false ∧ FS.long_name s = false) ∧
  (FS.path_length p < FS.PATH_MAX)%nat.
Proof.
  unfold name_taken. rewrite !andb_true_iff, !negb_true_iff, !existsb_false, Nat.ltb_lt.
  split.
  - intros [[A B] C]. split; [ intros s Hin; split; auto | done ].
  - intros [A C]. split_and!; [ intros s Hin; by apply A | intros s Hin; by apply A | done ].
Qed.

Lemma name_taken_refused (p : path) : name_taken p = true → FS.refused p = None.
Proof.
  intros [A C]%name_taken_spec. unfold FS.refused.
  assert (E : existsb FS.has_nul p.2 = false).
  { apply existsb_false. intros s Hin. by apply A. }
  rewrite E. destruct (Nat.leb_spec FS.PATH_MAX (FS.path_length p)); [ lia | done ].
Qed.

(** Opening a file whose name the system takes, in a directory that is
    there. *)
Lemma open_checks_ok (f : filesys) (p : path) (pm : Z) :
  name_taken p = true → FS.Stat f (Path.Dir p) = inr (DirNode pm) →
  FS.open_checks f p = None.
Proof.
  intros N S. unfold FS.open_checks. rewrite (name_taken_refused _ N).
  unfold FS.Stat, Path.Dir in S. cbn [fst snd] in S.
  destruct (FS.refused (p.1, removelast p.2)); [ done | ]. rewrite S.
  destruct (last p.2) as [s |] eqn:L; [ | done ].
  apply name_taken_spec in N as [A _].
  destruct (A s) as [_ ->]; [ | done ].
  apply last_Some in L as [l ->]. apply elem_of_app. right. left.
Qed.

(** Opening a file whose name the system does not take. *)
Lemma open_checks_refuses (f f1 : filesys) (p : path) :
  name_taken p = false → p.2 ≠ [] →
  FS.MkdirAll f (Path.Dir p) 493 = (None, f1) →
  ∃ x, FS.open_checks f1 p = Some x ∧ (x = EINVAL ∨ x = ENAMETOOLONG).
Proof.
  intros N Ne M. unfold FS.open_checks, FS.refused.
  destruct (existsb FS.has_nul p.2) eqn:E1; [ eauto | ].
  destruct (Nat.leb_spec FS.PATH_MAX (FS.path_length p)) as [| Lt]; [ eauto | ].
  destruct (MkdirAll_Stat _ _ _ _ M) as [pm S].
  unfold FS.Stat in S. rewrite (MkdirAll_refused _ _ _ _ M) in S.
  unfold Path.Dir in S. cbn [fst snd] in S. rewrite S.
  destruct (exists_last Ne) as (l & s & El). rewrite El, last_snoc.
  destruct (FS.long_name s) eqn:Ls; [ eauto | exfalso ].
  assert (T : name_taken p = true); [ | by rewrite T in N ].
  apply name_taken_spec. split; [ | done ].
  intros t Ht. split; [ by apply (proj1 (existsb_false _ _) E1) | ].
  rewrite El in Ht. apply elem_of_app in Ht as [Ht | Ht].
  - apply (MkdirAll_names _ _ _ _ M). unfold Path.Dir. cbn [snd].
    by rewrite El, removelast_last.
  - apply list_elem_of_singleton in Ht. by subst t.
Qed.

(** X15.  What a regular-file entry leaves at its target, once the
    directories above it are made.  When the system takes the name: on a
    path that did not exist, a file with exactly the entry's content and
    the mode bits the system call is given for the header's mode, its
    permission bits and its set-uid, set-gid and sticky bits; on an
    existing file, the old mode bits and the entry's content followed by
    whatever the old content had beyond its length; on a directory, an
    error.  When the system does not take the name, for a NUL byte or for
    its length, an error and no file. *)
Theorem writeEntry_regular (target : path) (e : tar_entry) (f1 : filesys) (w : World) :
  Typeflag (hdr e) = TypeReg →
  content_ok e = true →
  FS.anchor target.2 = false →
  FS.MkdirAll (fs w) (Path.Dir target) 493 = (None, f1) →
  f1 !! target = fs w !! target ∧
  (name_taken target = true →
   writeEntry target e w
   = match fs w !! target with
     | None =>
         (Ret (Ok tt),
          set_fs w (<[target := FileNode (FileMode (Mode (hdr e))) (content e)]> f1))
     | Some (FileNode pm old) =>
         (Ret (Ok tt),
          set_fs w (<[target := FileNode pm
                       (content e +:+ Str.skip (String.length (content e)) old)]> f1))
     | Some (DirNode _) => (Ret (Err (ErrFS EISDIR)), set_fs w f1)
     end) ∧
  (name_taken target = false →
   ∃ x, writeEntry target e w = (Ret (Err (ErrFS x)), set_fs w f1) ∧
        (x = EINVAL ∨ x = ENAMETOOLONG)).
Proof.
  intros Ty Ok An M.
  assert (Same : f1 !! target = fs w !! target).
  { change f1 with (None (A := errno), f1).2. rewrite <- M. unfold FS.MkdirAll.
    destruct (mkdir_walk_change 493 (Path.Dir target).1 target (Path.Dir target).2 []
                (fs w)) as [-> | (_ & (l & Hl & E) & _)]; [ done | exfalso ].
    destruct target as [r segs]. simpl in *. injection E as ->.
    apply prefix_length in Hl.
    destruct l as [| x l] using rev_ind; [ done | ].
    rewrite removelast_last, length_app in Hl. simpl in Hl. lia. }
  split; [ exact Same | ].
  unfold writeEntry. rewrite Ty, bind_run, fsop_run, M. cbn [fst snd].
  rewrite bind_run, fsop_run. cbn [fs set_fs].
  unfold FS.create_write. split.
  - intros Nm. destruct (MkdirAll_Stat _ _ _ _ M) as [pm S].
    rewrite (open_checks_ok _ _ _ Nm S).
    unfold FS.node_at. rewrite An, Same.
    destruct (fs w !! target) as [[pm' | pm' old] |]; cbn [fst snd]; by rewrite ?Ok.
  - intros Nm.
    destruct (open_checks_refuses (fs w) f1 target Nm) as (x & -> & Hx); [ | exact M | ].
    + intros E. by rewrite E in An.
    + exists x. by split.
Qed.

(** A file of 11 bytes, and an entry of 3 bytes for the same path; a new
    file from a header whose mode has the set-uid bit of a [FileMode]; and
    an entry whose name has 256 bytes. *)
Lemma writeEntry_regular_witness :
  let target : path := (true, ["out"; "a.txt"]) in
  let fresh : path := (true, ["out"; "b"]) in
  let long : path := (true, ["out"; Demo.long_owner]) in
  let w := Demo.world {[ (true, ["out"]) := DirNode 493;
                         target := FileNode 384 "hello world" ]} in
  let e := {| hdr := {| Typeflag := TypeReg; Name := "b"; Mode := 2 ^ 23 + 493 |};
              content := "x"; content_ok := true |} in
  FS.anchor target.2 = false ∧ name_taken target = true ∧ name_taken long = false ∧
  FS.MkdirAll (fs w) (Path.Dir target) 493 = (None, fs w) ∧
  fs (writeEntry target (Demo.reg "a.txt" "bye") w).2 !! target
  = Some (FileNode 384 "byelo world") ∧
  fs (writeEntry fresh e w).2 !! fresh = Some (FileNode 2541 "x") ∧
  (writeEntry long e w).1 = Ret (Err (ErrFS ENAMETOOLONG)) ∧
  fs (writeEntry long e w).2 !! long = None.
Proof.
  intros target fresh long w e.
  assert (An : FS.anchor target.2 = false) by reflexivity.
  assert (Nm : name_taken target = true) by reflexivity.
  assert (Nl : name_taken long = false) by reflexivity.
  assert (M : FS.MkdirAll (fs w) (Path.Dir target) 493 = (None, fs w)) by reflexivity.
  split; [ exact An | split; [ exact Nm | split; [ exact Nl | split; [ exact M | ] ] ] ].
  split_and!.
  - destruct (writeEntry_regular target (Demo.reg "a.txt" "bye") (fs w) w
                eq_refl eq_refl An M) as (_ & E & _).
    rewrite (E Nm). vm_compute. reflexivity.
  - destruct (writeEntry_regular fresh e (fs w) w eq_refl eq_refl eq_refl M)
      as (_ & E & _).
    rewrite (E eq_refl). vm_compute. reflexivity.
  - vm_compute. reflexivity.
  - destruct (writeEntry_regular long e (fs w) w eq_refl eq_refl eq_refl M)
      as (_ & _ & E).
    destruct (E Nl) as (x & -> & _). vm_compute. reflexivity.
Defined.

(** ** After a download *)

#[export] Instance dirs_kept_pre : PreOrder dirs_kept.
Proof. split; [ by intros w q pm | intros a b c Hab Hbc q pm Hq; auto ]. Qed.

Lemma dirs_kept_mkdir (q : path) (perm : Z) :
  steps dirs_kept (fsop (λ f, FS.MkdirAll f q perm)).
Proof.
  intros w x pm Hx. rewrite fsop_run. cbn [snd fs set_fs]. by apply mkdir_walk_grows.
Qed.

Lemma dirs_kept_create (t : path) (perm : Z) (data : string) :
  steps dirs_kept (fsop (λ f, FS.create_write f t perm data)).
Proof.
  intros w x pm Hx. rewrite fsop_run. cbn [snd fs set_fs]. unfold FS.create_write.
  destruct (FS.open_checks (fs w) t) as [e |]; try done.
  destruct (FS.node_at (fs w) t) as [[pm2 | pm2 old] |] eqn:Ht; cbn [snd]; try done;
    (rewrite node_at_insert_ne; [ done | intros ->; congruence ]).
Qed.

Lemma dirs_kept_of_fs_kept {A} (c : M A) : steps fs_kept c → steps dirs_kept c.
Proof. intros Hc w q pm. by rewrite (Hc w). Qed.

Lemma dirs_kept_writeEntry (target : path) (e : tar_entry) :
  steps dirs_kept (writeEntry target e).
Proof.
  unfold writeEntry. destruct (Typeflag (hdr e)).
  - apply steps_bind; [ apply dirs_kept_mkdir | intros [? | ?] ].
    + apply steps_bind; [ apply dirs_kept_create | intros [? | ?] ].
      * destruct (content_ok e); apply steps_ret.
      * apply steps_ret.
    + apply steps_ret.
  - apply dirs_kept_mkdir.
  - apply steps_ret.
  - apply steps_ret.
Qed.

Lemma dirs_kept_extractEntries (dest : path) (eof : bool) (es : list tar_entry)
    (rootDir : string) :
  steps dirs_kept (extractEntries dest rootDir es eof).
Proof.
  revert rootDir. induction es as [| e es IH]; intros rootDir.
  - simpl. destruct eof; apply steps_ret.
  - cbn [extractEntries].
    destruct (is_xglobal _ || _); [ by apply IH | ].
    destruct (is_dir _ && _ && _); [ by apply IH | ].
    destruct (Str.is_empty _ || negb (Str.HasPrefix _ _)); [ by apply IH | ].
    destruct (Str.is_empty (Str.TrimPrefix _ _)); [ by apply IH | ].
    apply steps_bind; [ apply dirs_kept_writeEntry | ].
    intros [? | ?]; [ by apply IH | apply steps_ret ].
Qed.

(** X16.  A download that succeeds leaves the dependency's directory in
    place, whatever the archive held (also when nothing was written into
    it): [checkDependency] reports the dependency as present. *)
Theorem downloadRepo_in_place `{Platform} (owner repo sha k : string) (d : Dependency)
    (w w' : World) :
  downloadRepo owner repo sha k w = (Ret (Ok tt), w') →
  checkDependency k d w' = (Ret (Ok StatusOk), w').
Proof.
  unfold downloadRepo. rewrite bind_run, fsop_run.
  destruct (FS.MkdirAll (fs w) (Path.Clean ".deps") 493) as [[e1 |] f1]; cbn [fst snd];
    [ by rewrite ret_run | ].
  rewrite bind_run. unfold httpGet at 1.
  destruct (remote (tarballAPI owner repo sha)) as [| status body]; [ by rewrite ret_run | ].
  destruct (negb (status =? 200)%Z); [ by rewrite ret_run | ].
  rewrite bind_run. unfold extractTarball.
  rewrite bind_run. unfold removeAll at 1. rewrite bind_run, fsop_run. cbn [fs set_fs log].
  destruct (FS.MkdirAll (FS.RemoveAll f1 (getDepPath k)) (getDepPath k) 493)
    as [[e2 |] f2] eqn:M2; cbn [fst snd]; [ by rewrite !ret_run | ].
  destruct (targz body) as [tr |]; [ | by rewrite !ret_run ].
  match goal with |- context [extractEntries ?dest "" ?es ?eof ?w2] =>
    pose proof (dirs_kept_extractEntries dest eof es "" w2) as K;
    destruct (extractEntries dest "" es eof w2) as [[[[] | err] | n |] w3]
  end; try (by rewrite ?ret_run).
  rewrite bind_run, print_run, ret_run. intros [= <-].
  cbn [snd fs] in K.
  unfold checkDependency. rewrite bind_run. unfold stat at 1. cbn [fs log].
  assert (S : ∃ pm, FS.Stat (fs w3) (getDepPath k) = inr (DirNode pm)).
  { unfold FS.Stat. rewrite (MkdirAll_refused _ _ _ _ M2). apply walk_dirs.
    - intros l Hl.
      destruct (mkdir_walk_ok _ _ _ _ _ _ M2 l Hl) as [pm Hpm]. exists pm. by apply K.
    - intros s Hin. by apply (MkdirAll_names _ _ _ _ M2). }
  destruct S as [pm ->]. done.
Qed.

(** The archive without wrapper: the download succeeds, the directory is
    there and empty, and the dependency counts as present. *)
Lemma downloadRepo_in_place_witness :
  let tr := {| entries := [Demo.reg "src/a.txt" "hello"]; clean_eof := true |} in
  let P := Demo.platform
             [(tarballAPI "o" "r" Demo.sha_a, HttpResp 200 (Some "flat"))] [("flat", tr)] in
  let d := {| Ref := "main"; SHA := Demo.sha_a |} in
  ∃ w', downloadRepo "o" "r" Demo.sha_a "github.com/o/r" (Demo.world ∅) = (Ret (Ok tt), w') ∧
        fs w' !! (false, [".deps"; "github.com"; "o"; "r"; "src"; "a.txt"]) = None ∧
        checkDependency "github.com/o/r" d w' = (Ret (Ok StatusOk), w').
Proof.
  intros tr P d.
  destruct (downloadRepo "o" "r" Demo.sha_a "github.com/o/r" (Demo.world ∅)) as [o w'] eqn:E.
  assert (O : (downloadRepo "o" "r" Demo.sha_a "github.com/o/r" (Demo.world ∅)).1
              = Ret (Ok tt)) by (vm_compute; reflexivity).
  assert (N : fs (downloadRepo "o" "r" Demo.sha_a "github.com/o/r" (Demo.world ∅)).2
              !! (false, [".deps"; "github.com"; "o"; "r"; "src"; "a.txt"]) = None)
    by (vm_compute; reflexivity).
  rewrite E in O, N. cbn [fst snd] in O, N. subst o.
  exists w'. split; [ reflexivity | split; [ exact N | ] ].
  exact (downloadRepo_in_place "o" "r" Demo.sha_a "github.com/o/r" d _ w' E).
Defined.

(** ** Checking *)

Lemma checkEntry_run `{Platform} (b : bool) (kv : string * Dependency) (w : World) :
  (8 ≤ String.length (SHA kv.2))%nat →
  checkEntry b kv w
  = (Ret (b && negb (missing (fs w) kv.1)), log w [check_report (fs w) kv]).
Proof.
  destruct kv as [k d]. intros L. unfold checkEntry, checkDependency, check_report, missing.
  simpl in *. rewrite !bind_run. unfold stat at 1. cbn beta iota.
  destruct (FS.Stat (fs w) (getDepPath k)) as [[] | n]; rewrite ret_run; cbn beta iota;
    rewrite ?bind_run, ?first8_run, ?(slice_long _ L), ?print_run; cbn beta iota;
    rewrite ?bind_run, ?print_run, ?ret_run; cbn beta iota;
    by rewrite ?andb_true_r, ?andb_false_r.
Qed.

Lemma checkLoop_run `{Platform} (l : list (string * Dependency)) (b : bool) (w : World) :
  (∀ kv, kv ∈ l → (8 ≤ String.length (SHA kv.2))%nat) →
  for_fold l b checkEntry w
  = (Ret (b && forallb (λ kv, negb (missing (fs w) kv.1)) l),
     log w (map (check_report (fs w)) l)).
Proof.
  revert b w. induction l as [| kv l IH]; intros b w Hl.
  - simpl. by rewrite ret_run, andb_true_r, log_nil.
  - cbn [for_fold]. rewrite bind_run, checkEntry_run by (apply Hl; by left).
    rewrite IH by (intros kv' Hin; apply Hl; by right).
    cbn [fs log]. rewrite log_log. cbn [forallb map]. by rewrite andb_assoc.
Qed.

Lemma checkEntry_prints `{Platform} (b : bool) (kv : string * Dependency) :
  steps (trace_ext (calls (λ _, False))) (checkEntry b kv).
Proof.
  destruct kv as [k d]. unfold checkEntry, checkDependency. steps_auto.
Qed.

Lemma calls_prints (evs : list event) (e : event) :
  Forall (calls (λ _, False)) evs → e ∈ evs → ∃ m, e = EvPrint m.
Proof.
  intros F Hin. rewrite Forall_forall in F. specialize (F e Hin).
  destruct e; [ done | done | eauto ].
Qed.

Lemma handleCheck_fs_kept `{Platform} : steps fs_kept handleCheck.
Proof.
  unfold handleCheck, loadLockFile, unmarshalLock, dependencies.
  steps_auto; try (apply steps_for_fold; intros; apply checkEntry_fs_kept); steps_auto.
Qed.

Lemma handleCheck_prints `{Platform} : steps (trace_ext (calls (λ _, False))) handleCheck.
Proof.
  unfold handleCheck, loadLockFile, unmarshalLock, dependencies.
  steps_auto; try (apply steps_for_fold; intros; apply checkEntry_prints); steps_auto.
Qed.

Lemma handleCheck_never_exits `{Platform} : never_exits handleCheck.
Proof.
  unfold handleCheck, dependencies.
  apply never_exits_bind; [ apply returns_never_exits, returns_loadLockFile | intros p ].
  never_exits_auto;
    try (apply never_exits_for_fold; intros; apply never_exits_checkEntry);
    never_exits_auto.
Qed.

(** X17.  [handleCheck] only looks: whatever the Ledger and the file
    system, it leaves the file system as it is, makes no request, writes
    no file, and never ends the program through [os.Exit], also when
    dependencies are missing. *)
Theorem handleCheck_read_only `{Platform} (w : World) :
  fs (handleCheck w).2 = fs w ∧
  (∃ evs, trace (handleCheck w).2 = trace w ++ evs ∧
          ∀ e, e ∈ evs → ∃ m, e = EvPrint m) ∧
  ∀ n, (handleCheck w).1 ≠ Exit n.
Proof.
  split; [ exact (handleCheck_fs_kept w) | split; [ | exact (handleCheck_never_exits w) ] ].
  destruct (handleCheck_prints w) as (evs & E & Hev). exists evs. split; [ exact E | ].
  intros e. by apply calls_prints.
Qed.

Lemma handleCheck_run `{Platform} (w : World) :
  ledger (fs w) ≠ ∅ →
  (∀ kv, kv ∈ range_order (ledger (fs w)) → (8 ≤ String.length (SHA kv.2))%nat) →
  ∃ h evs,
    handleCheck w
    = (Ret tt,
       {| fs := fs w; heap := heap w ++ h;
          trace := trace w ++ evs
                   ++ EvPrint (MChecking (size (ledger (fs w))))
                      :: map (check_report (fs w)) (range_order (ledger (fs w)))
                   ++ [EvPrint (if forallb (λ kv, negb (missing (fs w) kv.1))
                                     (range_order (ledger (fs w)))
                                then MAllUpToDate else MNeedAttention)] |}).
Proof.
  intros NE L. unfold handleCheck. enter_handler.
  destruct (size (ledger (fs w)) =? 0)%nat eqn:Z; [ by apply size_zero_empty in Z | ].
  rewrite bind_run, print_run. cbn beta iota.
  rewrite bind_run, (checkLoop_run _ _ _ L). cbn beta iota. cbn [andb fs log].
  exists h, evs.
  destruct (forallb _ _); rewrite print_run; unfold log; cbn [fs heap trace];
    by rewrite <- !app_assoc.
Qed.

(** X18.  With a Ledger that is not empty and identifiers of at least 8
    bytes, [handleCheck] returns normally and prints one line per entry:
    the entry with its ref and short identifier, or that it is missing.
    Its last line says that all dependencies are up to date exactly when
    no entry's directory is missing; a missing dependency does not change
    how the program ends. *)
Theorem handleCheck_verdict `{Platform} (w : World) :
  (∀ m, range_order m ≡ₚ map_to_list m) →
  ledger (fs w) ≠ ∅ →
  (∀ k d, ledger (fs w) !! k = Some d → (8 ≤ String.length (SHA d))%nat) →
  (handleCheck w).1 = Ret tt ∧
  (∀ k d, ledger (fs w) !! k = Some d →
          check_report (fs w) (k, d) ∈ trace (handleCheck w).2) ∧
  ((∀ k d, ledger (fs w) !! k = Some d → missing (fs w) k = false) →
   last (trace (handleCheck w).2) = Some (EvPrint MAllUpToDate)) ∧
  (∀ k d, ledger (fs w) !! k = Some d → missing (fs w) k = true →
          last (trace (handleCheck w).2) = Some (EvPrint MNeedAttention)).
Proof.
  intros Hperm NE L.
  assert (Mem : ∀ k d, (k, d) ∈ range_order (ledger (fs w)) ↔ ledger (fs w) !! k = Some d).
  { intros k d. by rewrite Hperm, elem_of_map_to_list. }
  assert (L' : ∀ kv, kv ∈ range_order (ledger (fs w)) → (8 ≤ String.length (SHA kv.2))%nat).
  { intros [k d] Hin. apply (L k d). by apply Mem. }
  destruct (handleCheck_run w NE L') as (h & evs & ->). cbn [fst snd trace].
  set (l := range_order (ledger (fs w))) in *.
  split_and!.
  - done.
  - intros k d Hk. apply elem_of_app. right. apply elem_of_app. right.
    right. apply elem_of_app. left.
    apply (list_elem_of_fmap_2 (check_report (fs w)) l (k, d)). by apply Mem.
  - intros All.
    assert (X : forallb (λ kv, negb (missing (fs w) kv.1)) l = true).
    { apply forallb_forall. intros [k d] Hin%list_elem_of_In. simpl.
      by rewrite (All k d) by (by apply Mem). }
    rewrite X, app_comm_cons, !app_assoc. apply last_snoc.
  - intros k d Hk Mi.
    assert (X : forallb (λ kv, negb (missing (fs w) kv.1)) l = false).
    { apply not_true_is_false. intros X. rewrite forallb_forall in X.
      assert (Hin : List.In (k, d) l) by (apply list_elem_of_In; by apply Mem).
      specialize (X _ Hin). simpl in X. by rewrite Mi in X. }
    rewrite X, app_comm_cons, !app_assoc. apply last_snoc.
Qed.

Lemma all_long (m : gmap string Dependency) :
  forallb (λ kv, 8 <=? String.length (SHA kv.2))%nat (map_to_list m) = true →
  ∀ k d, m !! k = Some d → (8 ≤ String.length (SHA d))%nat.
Proof.
  intros X k d Hd. rewrite forallb_forall in X. apply Nat.leb_le, (X (k, d)).
  by apply list_elem_of_In, elem_of_map_to_list.
Qed.

Lemma none_missing (f : filesys) (m : gmap string Dependency) :
  forallb (λ kv, negb (missing f kv.1)) (map_to_list m) = true →
  ∀ k d, m !! k = Some d → missing f k = false.
Proof.
  intros X k d Hd. rewrite forallb_forall in X. apply negb_true_iff, (X (k, d)).
  by apply list_elem_of_In, elem_of_map_to_list.
Qed.

(** One dependency in place, one missing.  And a Ledger whose one key has
    an owner of 256 bytes, next to the directory [.deps/github.com]: the
    system refuses the name, which is not the answer that the directory
    does not exist, and the check finds everything up to date. *)
Lemma handleCheck_verdict_witness :
  let P := Demo.platform [] [] in
  let w := Demo.world
             {[ lockPath := FileNode 420 ("github.com/o/r,main," +:+ Demo.sha_a
                                          +:+ ";github.com/x/y,main," +:+ Demo.sha_b +:+ ";");
                (false, [".deps"]) := DirNode 493;
                (false, [".deps"; "github.com"]) := DirNode 493;
                (false, [".deps"; "github.com"; "o"]) := DirNode 493;
                (false, [".deps"; "github.com"; "o"; "r"]) := DirNode 493 ]} in
  let long_key := "github.com/" +:+ Demo.long_owner +:+ "/r" in
  let w2 := Demo.world
              {[ lockPath := FileNode 420 (long_key +:+ ",main," +:+ Demo.sha_a +:+ ";");
                 (false, [".deps"]) := DirNode 493;
                 (false, [".deps"; "github.com"]) := DirNode 493 ]} in
  (∀ m, range_order m ≡ₚ map_to_list m) ∧
  ledger (fs w) !! "github.com/x/y" = Some {| Ref := "main"; SHA := Demo.sha_b |} ∧
  missing (fs w) "github.com/x/y" = true ∧
  missing (fs w) "github.com/o/r" = false ∧
  (handleCheck w).1 = Ret tt ∧
  last (trace (handleCheck w).2) = Some (EvPrint MNeedAttention) ∧
  ledger (fs w2) !! long_key = Some {| Ref := "main"; SHA := Demo.sha_a |} ∧
  FS.Stat (fs w2) (getDepPath long_key) = inl ENAMETOOLONG ∧
  missing (fs w2) long_key = false ∧
  last (trace (handleCheck w2).2) = Some (EvPrint MAllUpToDate).
Proof.
  intros P w long_key w2.
  assert (Hperm : ∀ m, range_order m ≡ₚ map_to_list m) by reflexivity.
  assert (Hk : ledger (fs w) !! "github.com/x/y" = Some {| Ref := "main"; SHA := Demo.sha_b |})
    by (vm_compute; reflexivity).
  assert (Mi : missing (fs w) "github.com/x/y" = true) by (vm_compute; reflexivity).
  assert (NE : ledger (fs w) ≠ ∅).
  { intros E. rewrite E, lookup_empty in Hk. discriminate Hk. }
  assert (X : forallb (λ kv, 8 <=? String.length (SHA kv.2))%nat
                (map_to_list (ledger (fs w))) = true) by (vm_compute; reflexivity).
  pose proof (all_long _ X) as L.
  assert (Hk2 : ledger (fs w2) !! long_key = Some {| Ref := "main"; SHA := Demo.sha_a |})
    by (vm_compute; reflexivity).
  assert (NE2 : ledger (fs w2) ≠ ∅).
  { intros E. rewrite E, lookup_empty in Hk2. discriminate Hk2. }
  assert (X2 : forallb (λ kv, 8 <=? String.length (SHA kv.2))%nat
                 (map_to_list (ledger (fs w2))) = true) by (vm_compute; reflexivity).
  pose proof (all_long _ X2) as L2.
  assert (Y2 : forallb (λ kv, negb (missing (fs w2) kv.1))
                 (map_to_list (ledger (fs w2))) = true) by (vm_compute; reflexivity).
  pose proof (none_missing _ _ Y2) as All2.
  split; [ exact Hperm | split; [ exact Hk | split; [ exact Mi | ] ] ].
  split; [ vm_compute; reflexivity | ].
  destruct (handleCheck_verdict w Hperm NE L) as (R & _ & _ & Last).
  split; [ exact R | split; [ exact (Last _ _ Hk Mi) | ] ].
  split; [ exact Hk2 | split; [ vm_compute; reflexivity | split; [ exact (All2 _ _ Hk2) | ] ] ].
  destruct (handleCheck_verdict w2 Hperm NE2 L2) as (_ & _ & Up & _).
  exact (Up All2).
Defined.

(** ** An empty Ledger *)

(** X19.  When the lock file is absent, unreadable, does not parse or
    holds no entry, [handleCheck], [handleInstall] and [handleUpdate]
    (whatever its target) say that there are no dependencies and return
    normally; nothing else happens, apart from the warning about a lock
    file that does not parse. *)
Theorem empty_ledger_no_work `{Platform} (target : string) (w : World) :
  ledger (fs w) = ∅ →
  let quiet (c : M unit) :=
    ∃ w' evs,
      c w = (Ret tt, w') ∧ fs w' = fs w ∧
      trace w' = trace w ++ evs ++ [EvPrint MNoDependencies] ∧
      (evs = [] ∨ evs = [EvPrint MWarnLockParse]) in
  quiet handleCheck ∧ quiet handleInstall ∧ quiet (handleUpdate target).
Proof.
  intros Em quiet. apply size_zero_empty in Em. subst quiet. cbv beta.
  split_and!.
  - unfold handleCheck. enter_handler. rewrite Em. exec.
    eexists _, evs. split; [ reflexivity | ]. simpl.
    rewrite <- app_assoc. split_and!; auto. destruct Hev as [-> | [-> _]]; auto.
  - unfold handleInstall. enter_handler. rewrite Em. exec.
    eexists _, evs. split; [ reflexivity | ]. simpl.
    rewrite <- app_assoc. split_and!; auto. destruct Hev as [-> | [-> _]]; auto.
  - unfold handleUpdate. enter_handler. rewrite Em. exec.
    eexists _, evs. split; [ reflexivity | ]. simpl.
    rewrite <- app_assoc. split_and!; auto. destruct Hev as [-> | [-> _]]; auto.
Qed.

(** A lock file that does not parse. *)
Lemma empty_ledger_no_work_witness :
  let P := Demo.platform [] [] in
  let w := Demo.world {[ lockPath := FileNode 420 "{broken" ]} in
  ledger (fs w) = ∅ ∧
  handleInstall w
  = (Ret tt, {| fs := fs w; heap := heap (handleInstall w).2;
                trace := [EvPrint MWarnLockParse; EvPrint MNoDependencies] |}).
Proof.
  intros P w.
  assert (Em : ledger (fs w) = ∅) by (apply loaded_emptyLock_ledger; reflexivity).
  split; [ exact Em | ].
  destruct (empty_ledger_no_work "" w Em) as (_ & (w' & evs & E & F & T & Hev) & _).
  rewrite E. simpl. destruct w' as [f' h' t']. simpl in F, T. subst f'. f_equal. f_equal.
  assert (X : trace (handleInstall w).2 = [EvPrint MWarnLockParse; EvPrint MNoDependencies])
    by (vm_compute; reflexivity).
  rewrite E in X. exact X.
Defined.

(** ** Installing *)

Lemma installEntry_present `{Platform} (k : string) (d : Dependency) (w : World) :
  missing (fs w) k = false → (8 ≤ String.length (SHA d))%nat →
  installEntry (k, d) w
  = (Ret tt, log w [EvPrint (MAlreadyInstalled k (Ref d) (String.substring 0 8 (SHA d)))]).
Proof.
  intros Mi L. unfold installEntry, checkDependency, missing in *.
  rewrite !bind_run. unfold stat at 1. cbn beta iota.
  destruct (FS.Stat (fs w) (getDepPath k)) as [[] | n]; try done;
    rewrite ret_run; cbn beta iota;
    by rewrite bind_run, first8_run, (slice_long _ L), print_run.
Qed.

Lemma installLoop_present `{Platform} (l : list (string * Dependency)) (w : World) :
  (∀ kv, kv ∈ l → missing (fs w) kv.1 = false ∧ (8 ≤ String.length (SHA kv.2))%nat) →
  for_each l installEntry w
  = (Ret tt,
     log w (map (λ kv, EvPrint (MAlreadyInstalled kv.1 (Ref kv.2)
                                  (String.substring 0 8 (SHA kv.2)))) l)).
Proof.
  revert w. induction l as [| [k d] l IH]; intros w Hl.
  - simpl. by rewrite ret_run, log_nil.
  - cbn [for_each]. rewrite bind_run.
    destruct (Hl (k, d)) as [Mi L]; [ by left | ].
    rewrite (installEntry_present k d w Mi L).
    rewrite IH by (intros kv Hin; apply Hl; by right).
    by rewrite log_log.
Qed.

(** X20.  When no entry's directory is missing (identifiers of at least
    8 bytes), [handleInstall] fetches nothing: it makes no request, leaves
    the file system as it is, reports every entry as already installed and
    returns normally. *)
Theorem handleInstall_all_present `{Platform} (w : World) :
  (∀ m, range_order m ≡ₚ map_to_list m) →
  (∀ k d, ledger (fs w) !! k = Some d →
          missing (fs w) k = false ∧ (8 ≤ String.length (SHA d))%nat) →
  ∃ w',
    handleInstall w = (Ret tt, w') ∧ fs w' = fs w ∧
    (∀ u, EvGet u ∉ new_events w w') ∧
    ∀ k d, ledger (fs w) !! k = Some d →
           EvPrint (MAlreadyInstalled k (Ref d) (String.substring 0 8 (SHA d)))
             ∈ new_events w w'.
Proof.
  intros Hperm All.
  assert (Mem : ∀ k d, (k, d) ∈ range_order (ledger (fs w)) ↔ ledger (fs w) !! k = Some d).
  { intros k d. by rewrite Hperm, elem_of_map_to_list. }
  unfold handleInstall. enter_handler.
  assert (Nw : ∀ u, EvGet u ∉ evs).
  { intros u Hin. destruct Hev as [-> | [-> _]];
      repeat (apply elem_of_cons in Hin as [? | Hin]; [ done | ]);
      by apply elem_of_nil in Hin. }
  destruct (size (ledger (fs w)) =? 0)%nat eqn:Z.
  { apply size_zero_empty in Z. rewrite print_run.
    eexists. split; [ reflexivity | ]. split; [ done | ].
    unfold new_events, log. cbn [trace]. rewrite <- app_assoc, drop_app_length.
    split.
    - intros u [Hin | Hin]%elem_of_app; [ by apply (Nw u) | ].
      apply elem_of_cons in Hin as [? | Hin]; [ done | by apply elem_of_nil in Hin ].
    - intros k d Hk. by rewrite Z, lookup_empty in Hk. }
  rewrite bind_run, print_run. cbn beta iota. rewrite bind_run.
  rewrite installLoop_present.
  2:{ intros [k d] Hin. cbn [fs log]. apply All. by apply Mem. }
  cbn beta iota. rewrite print_run, !log_log.
  eexists. split; [ reflexivity | ]. split; [ done | ].
  unfold new_events, log. cbn [trace]. rewrite <- app_assoc, drop_app_length.
  set (l := range_order (ledger (fs w))) in *.
  split.
  - intros u [Hin | Hin]%elem_of_app; [ by apply (Nw u) | ].
    apply elem_of_cons in Hin as [? | Hin]; [ done | ].
    apply elem_of_app in Hin as [Hin | Hin].
    + apply list_elem_of_fmap in Hin as (kv & E & _). done.
    + apply elem_of_cons in Hin as [? | Hin]; [ done | by apply elem_of_nil in Hin ].
  - intros k d Hk. apply elem_of_app. right. right. apply elem_of_app. left.
    apply (list_elem_of_fmap_2
             (λ kv, EvPrint (MAlreadyInstalled kv.1 (Ref kv.2)
                               (String.substring 0 8 (SHA kv.2)))) l (k, d)).
    by apply Mem.
Qed.

Lemma all_present (f : filesys) (m : gmap string Dependency) :
  forallb (λ kv, negb (missing f kv.1) && (8 <=? String.length (SHA kv.2))%nat)
    (map_to_list m) = true →
  ∀ k d, m !! k = Some d → missing f k = false ∧ (8 ≤ String.length (SHA d))%nat.
Proof.
  intros X k d Hd. rewrite forallb_forall in X.
  assert (Hin : List.In (k, d) (map_to_list m))
    by (by apply list_elem_of_In, elem_of_map_to_list).
  apply X, andb_true_iff in Hin as [A B]. simpl in *.
  split; [ by apply negb_true_iff | by apply Nat.leb_le ].
Qed.

(** The one dependency of the Ledger is in place. *)
Lemma handleInstall_all_present_witness :
  let P := Demo.platform [] [] in
  let w := Demo.world
             {[ lockPath := FileNode 420 ("github.com/o/r,main," +:+ Demo.sha_a +:+ ";");
                (false, [".deps"]) := DirNode 493;
                (false, [".deps"; "github.com"]) := DirNode 493;
                (false, [".deps"; "github.com"; "o"]) := DirNode 493;
                (false, [".deps"; "github.com"; "o"; "r"]) := DirNode 493 ]} in
  (∀ m, range_order m ≡ₚ map_to_list m) ∧
  ledger (fs w) !! "github.com/o/r" = Some {| Ref := "main"; SHA := Demo.sha_a |} ∧
  missing (fs w) "github.com/o/r" = false ∧
  ∃ w', handleInstall w = (Ret tt, w') ∧ fs w' = fs w ∧
        EvPrint (MAlreadyInstalled "github.com/o/r" "main" "aaaaaaaa") ∈ new_events w w'.
Proof.
  intros P w.
  assert (Hperm : ∀ m, range_order m ≡ₚ map_to_list m) by reflexivity.
  assert (Hk : ledger (fs w) !! "github.com/o/r" = Some {| Ref := "main"; SHA := Demo.sha_a |})
    by (vm_compute; reflexivity).
  assert (X : forallb (λ kv, negb (missing (fs w) kv.1)
                             && (8 <=? String.length (SHA kv.2))%nat)
                (map_to_list (ledger (fs w))) = true) by (vm_compute; reflexivity).
  pose proof (all_present _ _ X) as All.
  split; [ exact Hperm | split; [ exact Hk | split; [ exact (proj1 (All _ _ Hk)) | ] ] ].
  destruct (handleInstall_all_present w Hperm All) as (w' & E & F & _ & R).
  exists w'. split; [ exact E | split; [ exact F | exact (R _ _ Hk) ] ].
Defined.

Lemma for_each_reports {A} (Q : A → event → Prop) (body : A → M unit) (l : list A) :
  (∀ x w, x ∈ l →
     ∃ w' evs e, body x w = (Ret tt, w') ∧ trace w' = trace w ++ evs ∧ e ∈ evs ∧ Q x e) →
  ∀ w, ∃ w' evs,
    for_each l body w = (Ret tt, w') ∧ trace w' = trace w ++ evs ∧
    ∀ x, x ∈ l → ∃ e, e ∈ evs ∧ Q x e.
Proof.
  induction l as [| x l IH]; intros Hb w.
  - exists w, []. rewrite app_nil_r. split_and!; [ done | done | ].
    intros x Hin. by apply elem_of_nil in Hin.
  - destruct (Hb x w) as (w1 & evs1 & e1 & E1 & T1 & In1 & Q1); [ by left | ].
    destruct (IH (λ y w0 Hin, Hb y w0 (list_elem_of_further _ _ _ Hin)) w1)
      as (w2 & evs2 & E2 & T2 & All2).
    exists w2, (evs1 ++ evs2). cbn [for_each].
    rewrite (bind_ret_run _ _ _ _ _ E1). split_and!; [ exact E2 | | ].
    + by rewrite T2, T1, app_assoc.
    + intros y [-> | Hin]%elem_of_cons.
      * exists e1. split; [ apply elem_of_app; by left | done ].
      * destruct (All2 y Hin) as (e & He & Qe). exists e.
        split; [ apply elem_of_app; by right | done ].
Qed.

Lemma installEntry_reports `{Platform} (k : string) (d : Dependency) (w : World) :
  (8 ≤ String.length (SHA d))%nat →
  ∃ w' evs e,
    installEntry (k, d) w = (Ret tt, w') ∧ trace w' = trace w ++ evs ∧
    e ∈ evs ∧ install_report k e.
Proof.
  intros L. unfold installEntry, checkDependency.
  rewrite !bind_run. unfold stat at 1. cbn beta iota.
  assert (Present :
    ∃ w' evs e,
      (s ← first8 (SHA d); print (MAlreadyInstalled k (Ref d) s)) w = (Ret tt, w') ∧
      trace w' = trace w ++ evs ∧ e ∈ evs ∧ install_report k e).
  { rewrite bind_run, first8_run, (slice_long _ L), print_run.
    eexists _, _, _. split; [ reflexivity | ]. split; [ reflexivity | ].
    split; [ apply list_elem_of_here | left; eauto ]. }
  destruct (FS.Stat (fs w) (getDepPath k)) as [[] | n]; rewrite ret_run; cbn beta iota;
    try exact Present.
  rewrite bind_run, first8_run, (slice_long _ L). cbn beta iota.
  rewrite bind_run, print_run. cbn beta iota.
  destruct (parseGitHubURL k) as [[owner repo] | err].
  2:{ rewrite print_run. eexists _, _, _. split; [ reflexivity | ].
      unfold log. cbn [trace]. rewrite <- app_assoc. split; [ reflexivity | ].
      split; [ right; apply list_elem_of_here | right; right; left; eauto ]. }
  rewrite bind_run.
  match goal with |- context [downloadRepo owner repo (SHA d) k ?w0] =>
    destruct (downloadRepo_run owner repo (SHA d) k w0) as (res & f' & evs & -> & _)
  end.
  destruct res as [[] | err].
  - rewrite bind_run, first8_run, (slice_long _ L), print_run.
    eexists _, _, _. split; [ reflexivity | ].
    unfold log. cbn [trace]. rewrite <- !app_assoc. split; [ reflexivity | ].
    split; [ | right; left; eauto ].
    right. apply elem_of_app. right. apply list_elem_of_here.
  - rewrite print_run.
    eexists _, _, _. split; [ reflexivity | ].
    unfold log. cbn [trace]. rewrite <- !app_assoc. split; [ reflexivity | ].
    split; [ | right; right; right; eauto ].
    right. apply elem_of_app. right. apply list_elem_of_here.
Qed.

(** X21.  With identifiers of at least 8 bytes, [handleInstall] goes
    through every entry of the Ledger and returns normally: an entry whose
    address is malformed or whose download fails is reported, and the
    entries after it are still handled.  Each entry ends in one of four
    lines: already installed, installed, address error, download error. *)
Theorem handleInstall_every_entry `{Platform} (w : World) :
  (∀ m, range_order m ≡ₚ map_to_list m) →
  (∀ k d, ledger (fs w) !! k = Some d → (8 ≤ String.length (SHA d))%nat) →
  ∃ w',
    handleInstall w = (Ret tt, w') ∧
    ∀ k d, ledger (fs w) !! k = Some d →
           ∃ e, e ∈ new_events w w' ∧ install_report k e.
Proof.
  intros Hperm L.
  assert (Mem : ∀ k d, (k, d) ∈ range_order (ledger (fs w)) ↔ ledger (fs w) !! k = Some d).
  { intros k d. by rewrite Hperm, elem_of_map_to_list. }
  unfold handleInstall. enter_handler.
  destruct (size (ledger (fs w)) =? 0)%nat eqn:Z.
  { apply size_zero_empty in Z. rewrite print_run.
    eexists. split; [ reflexivity | ].
    intros k d Hk. by rewrite Z, lookup_empty in Hk. }
  rewrite bind_run, print_run. cbn beta iota. rewrite bind_run.
  match goal with |- context [for_each ?l installEntry ?w0] =>
    destruct (for_each_reports (λ kv, install_report kv.1) installEntry l) with (w := w0)
      as (w1 & evs1 & E1 & T1 & All1)
  end.
  { intros [k d] w0 Hin. apply installEntry_reports, (L k d). by apply Mem. }
  rewrite E1. cbn beta iota. rewrite print_run.
  eexists. split; [ reflexivity | ].
  intros k d Hk. destruct (All1 (k, d)) as (e & He & Qe); [ by apply Mem | ].
  exists e. split; [ | exact Qe ].
  unfold new_events, log. cbn [trace]. rewrite T1. cbn [trace log].
  rewrite <- !app_assoc, drop_app_length.
  apply elem_of_app. right. right. apply elem_of_app. by left.
Qed.

(** Two entries: the first cannot be downloaded, the second is in place. *)
Lemma handleInstall_every_entry_witness :
  let P := Demo.platform [] [] in
  let w := Demo.world
             {[ lockPath := FileNode 420 ("github.com/a/b,main," +:+ Demo.sha_a
                                          +:+ ";github.com/o/r,main," +:+ Demo.sha_b +:+ ";");
                (false, [".deps"]) := DirNode 493;
                (false, [".deps"; "github.com"]) := DirNode 493;
                (false, [".deps"; "github.com"; "a"]) := DirNode 493;
                (false, [".deps"; "github.com"; "a"; "b"]) := DirNode 493 ]} in
  (∀ m, range_order m ≡ₚ map_to_list m) ∧
  (handleInstall w).1 = Ret tt ∧
  trace (handleInstall w).2
  = [EvPrint (MInstallingAll 2);
     EvPrint (MInstalling "github.com/o/r" "main" "bbbbbbbb");
     EvGet (tarballAPI "o" "r" Demo.sha_b);
     EvPrint (MInstallErrDownload "github.com/o/r" ErrTransport);
     EvPrint (MAlreadyInstalled "github.com/a/b" "main" "aaaaaaaa");
     EvPrint MInstallComplete].
Proof.
  intros P w.
  assert (Hperm : ∀ m, range_order m ≡ₚ map_to_list m) by reflexivity.
  assert (X : forallb (λ kv, 8 <=? String.length (SHA kv.2))%nat
                (map_to_list (ledger (fs w))) = true) by (vm_compute; reflexivity).
  pose proof (all_long _ X) as L.
  destruct (handleInstall_every_entry w Hperm L) as (w' & E & _).
  split; [ exact Hperm | ]. split; [ by rewrite E | ].
  vm_compute; reflexivity.
Defined.

(** ** Updating *)

Lemma for_fold_inv {A S} (I : World → Prop) (body : S → A → M S) (l : list A) :
  (∀ s x w, x ∈ l → I w → I (body s x w).2) →
  ∀ s w, I w → I (for_fold l s body w).2.
Proof.
  induction l as [| x l IH]; intros Hb s w Hw; [ done | ].
  cbn [for_fold]. rewrite bind_run.
  pose proof (Hb s x w (list_elem_of_here _ _) Hw) as H1.
  destruct (body s x w) as [[s' | n |] w1]; [ | done | done ].
  apply IH; [ | done ]. intros s0 y w0 Hin. apply Hb. by right.
Qed.

Lemma updateDependency_heap `{Platform} (k : string) (d : Dependency) (p : nat)
    (w w' : World) (o : outcome bool) :
  updateDependency k d p w = (o, w') →
  heap w' = heap w ∨
  ∃ sha m,
    heap w !! p = Some {| Dependencies := Some m |} ∧
    heap w' = <[p := {| Dependencies := Some (<[k := {| Ref := Ref d; SHA := sha |}]> m) |}]>
                (heap w).
Proof.
  unfold updateDependency.
  destruct (parseGitHubURL k) as [[owner repo] | err];
    [ | rewrite bind_run, print_run, ret_run; intros [= <- <-]; by left ].
  rewrite (bind_ret_run _ _ _ _ _ (resolveRef_run owner repo (Ref d) w)).
  destruct (resolution owner repo (Ref d)) as [[sha cref] | err];
    [ | rewrite bind_run, print_run, ret_run; intros [= <- <-]; by left ].
  destruct (String.eqb sha (SHA d)).
  { rewrite bind_run, first8_run.
    destruct (Str.slice_to 8 (SHA d));
      [ rewrite bind_run, print_run, ret_run | ]; intros [= <- <-]; by left. }
  rewrite bind_run, print_run. cbn beta iota.
  rewrite bind_run, first8_run.
  destruct (Str.slice_to 8 (SHA d)) as [s |]; [ | intros [= <- <-]; by left ].
  rewrite bind_run, print_run. cbn beta iota.
  rewrite bind_run, first8_run.
  destruct (Str.slice_to 8 sha) as [c |] eqn:Sc; [ | intros [= <- <-]; by left ].
  rewrite bind_run, print_run. cbn beta iota. rewrite bind_run.
  match goal with |- context [downloadRepo owner repo sha k ?w0] =>
    destruct (downloadRepo_run owner repo sha k w0) as (res & f' & evs & -> & _)
  end.
  destruct res as [[] | err];
    [ | rewrite bind_run, print_run, ret_run; intros [= <- <-]; by left ].
  rewrite bind_run. unfold map_assign. rewrite bind_run. unfold deref at 1.
  cbn [heap log].
  destruct (heap w !! p) as [[[m |]] |] eqn:Hp; cbn beta iota;
    try (intros [= <- <-]; by left).
  unfold store at 1. cbn [Dependencies]. cbn beta iota.
  rewrite bind_run, first8_run, Sc, bind_run, print_run, ret_run.
  intros [= <- <-]. right. by exists sha, m.
Qed.

Lemma updateDependency_refs `{Platform} (m0 : gmap string Dependency) (k : string)
    (d : Dependency) (p : nat) (w : World) :
  m0 !! k = Some d →
  (∃ m, heap w !! p = Some {| Dependencies := Some m |} ∧
        ∀ x, Ref <$> m !! x = Ref <$> m0 !! x) →
  ∃ m, heap (updateDependency k d p w).2 !! p = Some {| Dependencies := Some m |} ∧
       ∀ x, Ref <$> m !! x = Ref <$> m0 !! x.
Proof.
  intros Hk (m & Hp & Hm).
  destruct (updateDependency k d p w) as [o w'] eqn:Run. cbn [snd].
  destruct (updateDependency_heap _ _ _ _ _ _ Run) as [-> | (sha & m1 & Hp1 & ->)];
    [ by exists m | ].
  rewrite Hp in Hp1. injection Hp1 as <-.
  eexists. split; [ apply list_lookup_insert_eq; by eapply lookup_lt_Some | ].
  intros x. destruct (decide (x = k)) as [-> | N].
  - by rewrite lookup_insert_eq, Hk.
  - by rewrite lookup_insert_ne.
Qed.

Lemma saveLockFile_never_exits `{Platform} (p : nat) : never_exits (saveLockFile p).
Proof. unfold saveLockFile. never_exits_auto. Qed.

(** X22.  [handleUpdate] ends the program through [os.Exit] in two cases
    only, both with status 1: the named key is not in the Ledger, or the
    lock file could not be saved.  A key that cannot be parsed, resolved or
    downloaded is reported and never ends the program. *)
Theorem handleUpdate_exits `{Platform} (target : string) (w : World) (n : Z) :
  (handleUpdate target w).1 = Exit n →
  n = 1%Z ∧
  (last (trace (handleUpdate target w).2) = Some (EvPrint (MNotInLock target)) ∧
   target ≠ "" ∧ ledger (fs w) !! target = None
   ∨ ∃ e, last (trace (handleUpdate target w).2) = Some (EvPrint (MErrSaving e))).
Proof.
  destruct (handleUpdate target w) as [o w'] eqn:Run. cbn [fst snd]. intros ->.
  revert Run. unfold handleUpdate. enter_handler.
  destruct (size (ledger (fs w)) =? 0)%nat; [ by rewrite print_run | ].
  rewrite bind_run.
  assert (Tail : ∀ (u : bool) w1,
            (if u then
               x ← saveLockFile p;
               match x with
               | Err err => print (MErrSaving err) ;; exit 1
               | Ok _ => mret tt
               end
             else mret tt) w1 = (Exit n, w') →
            n = 1%Z ∧ ∃ e, last (trace w') = Some (EvPrint (MErrSaving e))).
  { intros [] w1; [ | by rewrite ret_run ]. rewrite bind_run.
    pose proof (saveLockFile_never_exits p w1) as Ne.
    destruct (saveLockFile p w1) as [[[[] | err] | n' |] w2]; cbn [fst] in Ne.
    - by rewrite ret_run.
    - rewrite bind_run, print_run. intros [= <- <-]. split; [ done | ].
      exists err. unfold log. cbn [trace]. apply last_snoc.
    - by destruct (Ne n').
    - done. }
  destruct (Str.is_empty target) eqn:T; cbn [negb].
  - rewrite bind_run, print_run. cbn beta iota. rewrite bind_run.
    match goal with |- context [for_fold ?l false ?b ?w0] =>
      pose proof (never_exits_for_fold l false b (never_exits_updateEntry p) w0) as Ne;
      destruct (for_fold l false b w0) as [[u | n' |] w1]; cbn [fst] in Ne
    end.
    + rewrite bind_run.
      destruct u; rewrite ?print_run, ret_run; cbn beta iota; rewrite ?ret_run;
        intros Run;
        [ destruct (Tail true _ Run) as [-> X] | destruct (Tail false _ Run) as [-> X] ];
        by eauto.
    + by destruct (Ne n').
    + done.
  - destruct (ledger (fs w) !! target) as [dep |] eqn:Hk.
    + match goal with |- context [updateDependency target dep p ?w0] =>
        pose proof (never_exits_updateDependency target dep p w0) as Ne;
        destruct (updateDependency target dep p w0) as [[u | n' |] w1]; cbn [fst] in Ne
      end.
      * intros Run; destruct (Tail _ _ Run) as [-> X]; by eauto.
      * by destruct (Ne n').
      * done.
    + rewrite bind_run, print_run. intros [= <- <-]. split; [ done | left ].
      split_and!; [ unfold log; cbn [trace]; apply last_snoc | | done ].
      intros ->. done.
Qed.

Lemma handleUpdate_exits_witness :
  let P := Demo.platform [] [] in
  let w := Demo.world Demo.lock_one in
  (handleUpdate "github.com/x/y" w).1 = Exit 1 ∧
  last (trace (handleUpdate "github.com/x/y" w).2)
  = Some (EvPrint (MNotInLock "github.com/x/y")).
Proof.
  intros P w.
  assert (E : (handleUpdate "github.com/x/y" w).1 = Exit 1) by (vm_compute; reflexivity).
  split; [ exact E | ].
  destruct (handleUpdate_exits "github.com/x/y" w 1 E) as [_ [[L _] | [e L]]];
    [ exact L | ].
  exfalso. revert L. vm_compute. discriminate.
Defined.

Lemma no_save_not_in (evs : list event) (p : path) (data : string) :
  Forall no_save evs → EvWriteFile p data ∉ evs.
Proof.
  intros F Hin. rewrite Forall_forall in F. by specialize (F _ Hin).
Qed.

Lemma update_step_no_save `{Platform} (target : string) (p : nat)
    (deps : gmap string Dependency) :
  steps (trace_ext no_save)
    (if negb (Str.is_empty target) then
       match deps !! target with
       | None => print (MNotInLock target) ;; exit 1
       | Some dep => updateDependency target dep p
       end
     else
       print (MCheckingUpdates (size deps)) ;;
       updated ← for_fold (range_order deps) false (updateEntry p);
       (if (updated : bool) then mret tt else print MAllUpToDate) ;;
       mret updated).
Proof.
  destruct (negb (Str.is_empty target)).
  - destruct (deps !! target); [ apply updateDependency_no_save | steps_auto ].
  - apply steps_bind; [ steps_auto | intros _ ].
    apply steps_bind; [ apply steps_for_fold; intros; apply updateEntry_no_save | intros u ].
    destruct u; steps_auto.
Qed.

Lemma update_step_refs `{Platform} (target : string) (p : nat)
    (m0 : gmap string Dependency) (w : World) :
  (∀ m, range_order m ≡ₚ map_to_list m) →
  let Inv (w : World) :=
    ∃ m, heap w !! p = Some {| Dependencies := Some m |} ∧
         ∀ x, Ref <$> m !! x = Ref <$> m0 !! x in
  Inv w →
  Inv ((if negb (Str.is_empty target) then
          match m0 !! target with
          | None => print (MNotInLock target) ;; exit 1
          | Some dep => updateDependency target dep p
          end
        else
          print (MCheckingUpdates (size m0)) ;;
          updated ← for_fold (range_order m0) false (updateEntry p);
          (if (updated : bool) then mret tt else print MAllUpToDate) ;;
          mret updated) w).2.
Proof.
  intros Hperm Inv. revert w.
  set (R := λ w w' : World, Inv w → Inv w').
  assert (PR : PreOrder R) by (split; [ by intros ? ? | intros a b c Hab Hbc Ha; auto ]).
  assert (Kept : ∀ A (c : M A), steps heap_kept c → steps R c).
  { intros A c Hc w Hi. unfold Inv. by rewrite (Hc w). }
  change (steps R (if negb (Str.is_empty target) then
          match m0 !! target with
          | None => print (MNotInLock target) ;; exit 1
          | Some dep => updateDependency target dep p
          end
        else
          print (MCheckingUpdates (size m0)) ;;
          updated ← for_fold (range_order m0) false (updateEntry p);
          (if (updated : bool) then mret tt else print MAllUpToDate) ;;
          mret updated)).
  destruct (negb (Str.is_empty target)).
  - destruct (m0 !! target) as [dep |] eqn:Hk.
    + intros w Hi. by apply updateDependency_refs.
    + apply Kept. steps_auto.
  - apply steps_bind; [ apply Kept; steps_auto | intros _ ].
    apply steps_bind.
    + apply steps_for_fold. intros s [k d] Hin. unfold updateEntry.
      apply steps_bind; [ | intros u; apply steps_ret ].
      intros w Hi. apply updateDependency_refs; [ | done ].
      simpl. apply elem_of_map_to_list. by rewrite <- Hperm.
    + intros u. apply Kept. destruct u; steps_auto.
Qed.

(** X23.  Whatever [handleUpdate] writes to the lock file is the
    encoding of a Ledger with the keys of the one it loaded and, under
    each key, the ref that was recorded: an update moves identifiers only,
    it adds no entry, drops none and never replaces a ref by the canonical
    one. *)
Theorem handleUpdate_keeps_refs `{Platform} (target data : string) (w : World) :
  (∀ m, range_order m ≡ₚ map_to_list m) →
  EvWriteFile lockPath data ∈ new_events w (handleUpdate target w).2 →
  ∃ m, json_indent {| Dependencies := Some m |} = Some data ∧
       ∀ k, Ref <$> m !! k = Ref <$> ledger (fs w) !! k.
Proof.
  intros Hperm.
  destruct (handleUpdate target w) as [o w'] eqn:Run. cbn [snd]. unfold new_events.
  revert Run. unfold handleUpdate. enter_handler.
  assert (Nev : ∀ x, EvWriteFile lockPath data ∉ evs ++ [EvPrint x]).
  { intros x [Hin | Hin]%elem_of_app.
    - destruct Hev as [-> | [-> _]];
        repeat (apply elem_of_cons in Hin as [? | Hin]; [ done | ]);
        by apply elem_of_nil in Hin.
    - apply elem_of_cons in Hin as [? | Hin]; [ done | by apply elem_of_nil in Hin ]. }
  destruct (size (ledger (fs w)) =? 0)%nat eqn:Z.
  { rewrite print_run. intros [= <- <-]. unfold log. cbn [trace].
    rewrite <- app_assoc, drop_app_length. intros Hin. by apply Nev in Hin. }
  assert (NE : ledger (fs w) ≠ ∅).
  { intros E. apply size_zero_empty in E. congruence. }
  assert (Hl : loaded (fs w) = {| Dependencies := Some (ledger (fs w)) |}).
  { unfold ledger, deps_of in *. destruct (loaded (fs w)) as [[m |]]; [ done | ].
    by destruct NE. }
  rewrite Hl in Hp.
  rewrite bind_run.
  set (w0 := {| fs := fs w; heap := heap w ++ h; trace := trace w ++ evs |}).
  pose proof (update_step_no_save target p (ledger (fs w)) w0) as (evs1 & T1 & N1).
  pose proof (update_step_refs target p (ledger (fs w)) w0 Hperm) as I1. cbv zeta in I1.
  specialize (I1 (ex_intro _ (ledger (fs w)) (conj Hp (λ x, eq_refl)))).
  destruct I1 as (m & Hm & Refs).
  match type of T1 with trace (?c w0).2 = _ =>
    destruct (c w0) as [[u | n |] w1] eqn:R1
  end; cbn [snd] in T1, Hm.
  2,3: intros [= <- <-]; rewrite T1; unfold w0; cbn [trace];
       rewrite <- app_assoc, drop_app_length; intros Hin;
       apply elem_of_app in Hin as [Hin | Hin];
       [ exfalso; by apply (Nev MNoDependencies), elem_of_app; left
       | by apply no_save_not_in in Hin ].
  destruct u.
  2:{ rewrite ret_run. intros [= <- <-]. rewrite T1. unfold w0. cbn [trace].
      rewrite <- app_assoc, drop_app_length. intros Hin.
      apply elem_of_app in Hin as [Hin | Hin];
        [ exfalso; by apply (Nev MNoDependencies), elem_of_app; left
        | by apply no_save_not_in in Hin ]. }
  rewrite bind_run, (saveLockFile_run p _ w1 Hm).
  destruct (json_indent {| Dependencies := Some m |}) as [data' |] eqn:J.
  2:{ rewrite bind_run, print_run. intros [= <- <-]. unfold log. cbn [trace].
      rewrite T1. unfold w0. cbn [trace].
      rewrite <- !app_assoc, drop_app_length. intros Hin.
      apply elem_of_app in Hin as [Hin | Hin];
        [ exfalso; by apply (Nev MNoDependencies), elem_of_app; left | ].
      apply elem_of_app in Hin as [Hin | Hin]; [ by apply no_save_not_in in Hin | ].
      apply elem_of_cons in Hin as [? | Hin]; [ done | by apply elem_of_nil in Hin ]. }
  cbv zeta.
  assert (Fin : ∀ tl : list event,
            (∀ x, x ∈ tl → ∃ y, x = EvPrint y) →
            EvWriteFile lockPath data
              ∈ drop (length (trace w))
                  ((trace w1 ++ [EvWriteFile lockPath data']) ++ tl) →
            ∃ m1, json_indent {| Dependencies := Some m1 |} = Some data ∧
                  ∀ k, Ref <$> m1 !! k = Ref <$> ledger (fs w) !! k).
  { intros tl Htl. rewrite T1. unfold w0. cbn [trace].
    rewrite <- !app_assoc, drop_app_length. intros Hin.
    apply elem_of_app in Hin as [Hin | Hin];
      [ exfalso; by apply (Nev MNoDependencies), elem_of_app; left | ].
    apply elem_of_app in Hin as [Hin | Hin]; [ by apply no_save_not_in in Hin | ].
    apply elem_of_cons in Hin as [[= ->] | Hin]; [ by exists m | ].
    destruct (Htl _ Hin) as [y ?]. done. }
  destruct (FS.WriteFile (fs w1) lockPath data' 420) as [[e |] f2]; cbn [fst snd].
  - rewrite bind_run, print_run. intros [= <- <-]. unfold log. cbn [trace].
    apply Fin. intros x Hx.
    apply elem_of_cons in Hx as [-> | Hx]; [ eauto | by apply elem_of_nil in Hx ].
  - rewrite ret_run. intros [= <- <-]. cbn [trace].
    rewrite <- (app_nil_r (trace w1 ++ _)). apply Fin.
    intros x Hx. by apply elem_of_nil in Hx.
Qed.

(** The branch has moved: what is written still records [main]. *)
Lemma handleUpdate_keeps_refs_witness :
  let P := Demo.platform
             [(branchAPI "o" "r" "main", HttpResp 200 (Some Demo.sha_b));
              (tarballAPI "o" "r" Demo.sha_b, HttpResp 200 (Some "ex"))]
             [("ex", Demo.example_archive)] in
  let w := Demo.world Demo.lock_one in
  let data := "github.com/o/r,main," +:+ Demo.sha_b +:+ ";" in
  (∀ m, range_order m ≡ₚ map_to_list m) ∧
  EvWriteFile lockPath data ∈ new_events w (handleUpdate "" w).2 ∧
  ∃ m, json_indent {| Dependencies := Some m |} = Some data ∧
       Ref <$> m !! "github.com/o/r" = Some "main".
Proof.
  intros P w data.
  assert (Hperm : ∀ m, range_order m ≡ₚ map_to_list m) by reflexivity.
  assert (Hin : EvWriteFile lockPath data ∈ new_events w (handleUpdate "" w).2).
  { assert (L : last (new_events w (handleUpdate "" w).2) = Some (EvWriteFile lockPath data))
      by (vm_compute; reflexivity).
    revert L. generalize (new_events w (handleUpdate "" w).2). intros l L.
    destruct l as [| x l] using rev_ind; [ done | ].
    rewrite last_snoc in L. injection L as ->. apply elem_of_app. right. by left. }
  split; [ exact Hperm | split; [ exact Hin | ] ].
  destruct (handleUpdate_keeps_refs "" data w Hperm Hin) as (m & J & Refs).
  exists m. split; [ exact J | ]. rewrite Refs.
  assert (X : Ref <$> ledger (fs w) !! "github.com/o/r" = Some "main")
    by (vm_compute; reflexivity).
  exact X.
Defined.

(** ** Rejected specs and the command line *)

Lemma Split_three (a b t : string) (c : ascii) :
  ∃ x y z l, Str.Split (a +:+ String c (b +:+ String c t)) c = x :: y :: z :: l.
Proof.
  rewrite !Split_app.
  pose proof (Split_not_nil a c). pose proof (Split_not_nil b c).
  pose proof (Split_not_nil t c).
  destruct (Str.Split a c) as [| a1 [| a2 [| a3 la]]],
           (Str.Split b c) as [| b1 [| b2 lb]],
           (Str.Split t c) as [| t1 lt]; try done; simpl; eauto.
Qed.

Lemma prefix_of_first_field (spec u r : string) :
  parseGitHubSpec spec = Ok (u, r) →
  Str.HasPrefix u "github.com/" = true → Str.HasPrefix spec "github.com/" = true.
Proof.
  intros Hx Pre. apply (proj1 (parseGitHubSpec_cases spec)) in Hx as (_ & _ & Hs).
  unfold Str.HasPrefix in *. apply prefix_skip in Pre. rewrite Pre in Hs.
  destruct Hs as [[-> _] | ->]; rewrite ?append_assoc; apply string_prefix_app.
Qed.

(** X24.  A spec that does not begin with [github.com/], or that has
    more than one [@], is rejected at once: [handleGet] prints the parse
    error and ends the program with status 1, without any request and
    without touching the file system or the Ledger. *)
Theorem handleGet_rejects `{Platform} (spec : string) (w : World) :
  Str.HasPrefix spec "github.com/" = false ∨
  (∃ a b t, spec = a +:+ "@" +:+ b +:+ "@" +:+ t) →
  ∃ e, handleGet spec w = (Exit 1, log w [EvPrint (MErrParsingSpec e)]) ∨
       handleGet spec w = (Exit 1, log w [EvPrint (MErrParsingURL e)]).
Proof.
  intros Bad. unfold handleGet.
  destruct (parseGitHubSpec spec) as [[u r] | e] eqn:Hs.
  2:{ exists e. left. by rewrite bind_run, print_run. }
  destruct Bad as [Pre | (a & b & t & ->)].
  - destruct (parseGitHubURL u) as [[owner repo] | e] eqn:Hu.
    2:{ exists e. right. by rewrite bind_run, print_run. }
    exfalso. apply parseGitHubURL_shape in Hu as (_ & _ & _ & _ & Hu).
    assert (X : Str.HasPrefix u "github.com/" = true)
      by (destruct Hu as [-> | ->]; apply string_prefix_app).
    rewrite (prefix_of_first_field _ _ _ Hs X) in Pre. done.
  - exfalso. unfold parseGitHubSpec in Hs.
    rewrite !append_cons, !append_nil in Hs.
    destruct (Split_three a b t "@") as (x & y & z & l & E). by rewrite E in Hs.
Qed.

Lemma handleGet_rejects_witness :
  let P := Demo.platform [] [] in
  Str.HasPrefix "gitlab.com/o/r" "github.com/" = false ∧
  handleGet "gitlab.com/o/r" (Demo.world ∅)
  = (Exit 1, log (Demo.world ∅) [EvPrint (MErrParsingURL ErrInvalidURL)]).
Proof.
  intros P.
  assert (Pre : Str.HasPrefix "gitlab.com/o/r" "github.com/" = false) by reflexivity.
  split; [ exact Pre | ].
  destruct (handleGet_rejects "gitlab.com/o/r" (Demo.world ∅) (or_introl Pre))
    as (e & [E | E]); rewrite E.
  - exfalso. revert E. vm_compute. discriminate.
  - assert (X : (handleGet "gitlab.com/o/r" (Demo.world ∅)).2
                = log (Demo.world ∅) [EvPrint (MErrParsingURL ErrInvalidURL)])
      by reflexivity.
    rewrite E in X. cbn [snd] in X. by rewrite X.
Defined.

(** X25.  Only [get], [install] and [update] can touch the file system
    or the network.  With any other command, with none, or with [get]
    lacking its argument, [main] leaves the file system as it is and makes
    no request; it ends with status 1 exactly when the command is missing
    or unknown or [get] lacks its argument, and then prints a usage
    text. *)
Theorem main_harmless `{Platform} (version : string) (args : list string) (w : World) :
  let command := args !! 1%nat in
  let r := main version args w in
  (command = Some "install" ∨ command = Some "update" → False) →
  (command = Some "get" → length args = 2%nat) →
  fs r.2.2 = fs w ∧
  (∃ evs, trace r.2.2 = trace w ++ evs ∧ ∀ e, e ∈ evs → ∃ m, e = EvPrint m) ∧
  (r.2.1 = Exit 1 ∨ ∀ n, r.2.1 ≠ Exit n) ∧
  (r.2.1 = Exit 1 ↔
   command ∉ (Some <$> ["version"; "--version"; "-v"; "help"; "--help"; "-h"; "check"])) ∧
  (r.2.1 = Exit 1 → r.1 ≠ []).
Proof.
  intros command r Hmod Hget. subst command r.
  assert (Same : ∀ o : outcome unit,
            fs (o, w).2 = fs w ∧
            ∃ evs, trace (o, w).2 = trace w ++ evs ∧ ∀ e, e ∈ evs → ∃ m, e = EvPrint m).
  { intros o. split; [ done | ]. exists []. rewrite app_nil_r. split; [ done | ].
    intros e Hin. by apply elem_of_nil in Hin. }
  destruct args as [| a0 [| command rest]].
  - cbn. destruct (Same (Exit 1)) as [F T]. split_and!; try done; auto.
    split; [ intros _ | done ]. intros Hin.
    repeat (apply elem_of_cons in Hin as [? | Hin]; [ done | ]). by apply elem_of_nil in Hin.
  - cbn. destruct (Same (Exit 1)) as [F T]. split_and!; try done; auto.
    split; [ intros _ | done ]. intros Hin.
    repeat (apply elem_of_cons in Hin as [? | Hin]; [ done | ]). by apply elem_of_nil in Hin.
  - cbn [lookup list_lookup] in *. unfold main.
    assert (In : ∀ c : string,
              Some c ∈ (Some <$> ["version"; "--version"; "-v"; "help"; "--help"; "-h";
                                  "check"]) ↔
              c = "version" ∨ c = "--version" ∨ c = "-v" ∨ c = "help" ∨ c = "--help"
              ∨ c = "-h" ∨ c = "check").
    { intros c. cbn [fmap list_fmap]. rewrite !elem_of_cons, elem_of_nil.
      split; intros X; repeat (destruct X as [X | X]; [ try injection X as X; subst; tauto | ]);
        try done; subst; tauto. }
    rewrite In.
    destruct (String.eqb_spec command "version") as [-> | N1];
      [ cbn; destruct (Same (Ret tt)); split_and!;
        [ done | done | right; done | split; [ done | intros X; destruct X; tauto ] | done ] | ].
    destruct (String.eqb_spec command "--version") as [-> | N2];
      [ cbn; destruct (Same (Ret tt)); split_and!;
        [ done | done | right; done | split; [ done | intros X; destruct X; tauto ] | done ] | ].
    destruct (String.eqb_spec command "-v") as [-> | N3];
      [ cbn; destruct (Same (Ret tt)); split_and!;
        [ done | done | right; done | split; [ done | intros X; destruct X; tauto ] | done ] | ].
    cbn [orb].
    destruct (String.eqb_spec command "help") as [-> | N4];
      [ cbn; destruct (Same (Ret tt)); split_and!;
        [ done | done | right; done | split; [ done | intros X; destruct X; tauto ] | done ] | ].
    destruct (String.eqb_spec command "--help") as [-> | N5];
      [ cbn; destruct (Same (Ret tt)); split_and!;
        [ done | done | right; done | split; [ done | intros X; destruct X; tauto ] | done ] | ].
    destruct (String.eqb_spec command "-h") as [-> | N6];
      [ cbn; destruct (Same (Ret tt)); split_and!;
        [ done | done | right; done | split; [ done | intros X; destruct X; tauto ] | done ] | ].
    cbn [orb].
    destruct (String.eqb_spec command "get") as [-> | N7].
    { specialize (Hget eq_refl). destruct rest as [| x rest]; [ | done ].
      cbn. destruct (Same (Exit 1)) as [F T]. split_and!; try done; auto.
      split; [ intros _ | done ]. intros X.
      repeat (destruct X as [X | X]; [ done | ]). done. }
    destruct (String.eqb_spec command "check") as [-> | N8].
    { cbn [fst snd]. split_and!.
      - exact (handleCheck_fs_kept w).
      - destruct (handleCheck_prints w) as (evs & E & Hev). exists evs.
        split; [ exact E | ]. intros e. by apply calls_prints.
      - right. exact (handleCheck_never_exits w).
      - split; [ intros X; by destruct (handleCheck_never_exits w 1%Z) | ].
        intros X. destruct X. tauto.
      - intros X. by destruct (handleCheck_never_exits w 1%Z). }
    destruct (String.eqb_spec command "install") as [-> | N9]; [ destruct Hmod; auto | ].
    destruct (String.eqb_spec command "update") as [-> | N10]; [ destruct Hmod; auto | ].
    cbn. destruct (Same (Exit 1)) as [F T]. split_and!; try done; auto.
    split; [ intros _ | done ]. intros X.
    repeat (destruct X as [X | X]; [ done | ]). done.
Qed.

Lemma main_harmless_witness :
  let P := Demo.platform [] [] in
  let args := ["deps"; "frobnicate"] in
  (args !! 1%nat = Some "install" ∨ args !! 1%nat = Some "update" → False) ∧
  (args !! 1%nat = Some "get" → length args = 2%nat) ∧
  (main "dev" args (Demo.world ∅)).2.1 = Exit 1 ∧
  head (main "dev" args (Demo.world ∅)).1 = Some "Unknown command: frobnicate".
Proof.
  intros P args.
  assert (Hmod : args !! 1%nat = Some "install" ∨ args !! 1%nat = Some "update" → False)
    by (intros [X | X]; discriminate X).
  assert (Hget : args !! 1%nat = Some "get" → length args = 2%nat) by (intros X; discriminate X).
  split; [ exact Hmod | split; [ exact Hget | ] ].
  destruct (main_harmless "dev" args (Demo.world ∅) Hmod Hget) as (_ & _ & _ & Ex & _).
  split; [ | reflexivity ].
  apply Ex. intros Hin.
  repeat (apply elem_of_cons in Hin as [X | Hin]; [ discriminate X | ]).
  by apply elem_of_nil in Hin.
Defined.

(** ** Where the requests go *)

Lemma trace_ext_writeFile `{Platform} (ok : event → Prop) (p : path) (data : string)
    (perm : Z) :
  ok (EvWriteFile p data) → steps (trace_ext ok) (writeFile p data perm).
Proof.
  intros Hok w. unfold writeFile. rewrite fsop_run. cbn [snd set_fs trace log].
  exists [EvWriteFile p data]. split; [ done | by constructor ].
Qed.

Lemma resolveRef_below `{Platform} (owner repo ref : string) :
  steps (trace_ext (gets (λ u, Str.HasPrefix u (repoAPI owner repo) = true)))
    (resolveRef owner repo ref).
Proof.
  assert (B : ∀ x, Str.HasPrefix (branchAPI owner repo x) (repoAPI owner repo) = true)
    by (intros x; apply string_prefix_app).
  assert (T : ∀ x, Str.HasPrefix (tagAPI owner repo x) (repoAPI owner repo) = true)
    by (intros x; apply string_prefix_app).
  assert (R : Str.HasPrefix (repoAPI owner repo) (repoAPI owner repo) = true)
    by apply string_prefix_refl.
  unfold resolveRef, getLatestCommitSHA, getBranchCommitSHA, getTagCommitSHA.
  steps_auto.
Qed.

Lemma downloadRepo_below `{Platform} (owner repo sha k : string) :
  steps (trace_ext (gets (λ u, Str.HasPrefix u (repoAPI owner repo) = true)))
    (downloadRepo owner repo sha k).
Proof.
  eapply steps_mono; [ | apply (steps_both_r _ _ _ (downloadRepo_quiet owner repo sha k)) ].
  intros a b. apply trace_ext_mono. intros e [-> | ->]; [ | done ].
  apply string_prefix_app.
Qed.

Lemma map_assign_silent (ok : event → Prop) (p : nat) (k : string) (d : Dependency) :
  steps (trace_ext ok) (map_assign p k d).
Proof. unfold map_assign. steps_auto. Qed.

Lemma updateDependency_below `{Platform} (k : string) (d : Dependency) (p : nat) :
  steps (trace_ext (gets (λ u, ∃ owner repo,
           parseGitHubURL k = Ok (owner, repo) ∧
           Str.HasPrefix u (repoAPI owner repo) = true)))
    (updateDependency k d p).
Proof.
  unfold updateDependency.
  destruct (parseGitHubURL k) as [[owner repo] | err] eqn:Hk; [ | steps_auto ].
  eapply (steps_mono (trace_ext (gets (λ u, Str.HasPrefix u (repoAPI owner repo) = true)))).
  { intros a b. apply trace_ext_mono. intros [u | |]; simpl; eauto. }
  pose proof (resolveRef_below owner repo). pose proof (downloadRepo_below owner repo).
  pose proof (map_assign_silent
                (gets (λ u, Str.HasPrefix u (repoAPI owner repo) = true))).
  steps_auto.
Qed.

(** X26.  An update of one named key asks the remote about that
    repository only: every request [handleUpdate] makes goes to an address
    below that of the key's owner and repository, and none is made when
    the key is not a well-formed address. *)
Theorem handleUpdate_target_only `{Platform} (k u : string) (w : World) :
  k ≠ "" →
  EvGet u ∈ new_events w (handleUpdate k w).2 →
  ∃ owner repo,
    parseGitHubURL k = Ok (owner, repo) ∧ Str.HasPrefix u (repoAPI owner repo) = true.
Proof.
  intros NE.
  set (U := λ u, ∃ owner repo,
           parseGitHubURL k = Ok (owner, repo) ∧
           Str.HasPrefix u (repoAPI owner repo) = true).
  assert (S : steps (trace_ext (gets U)) (handleUpdate k)).
  { pose proof (updateDependency_below k).
    unfold handleUpdate, loadLockFile, unmarshalLock, dependencies, saveLockFile.
    rewrite (is_empty_false _ NE). cbn [negb].
    steps_auto. by apply trace_ext_writeFile. }
  destruct (S w) as (evs & E & F). unfold new_events. rewrite E, drop_app_length.
  intros Hin. rewrite Forall_forall in F. exact (F _ Hin).
Qed.

Lemma handleUpdate_target_only_witness :
  let P := Demo.platform
             [(branchAPI "o" "r" "main", HttpResp 200 (Some Demo.sha_b));
              (tarballAPI "o" "r" Demo.sha_b, HttpResp 200 (Some "ex"))]
             [("ex", Demo.example_archive)] in
  let w := Demo.world Demo.lock_one in
  "github.com/o/r" ≠ "" ∧
  EvGet (tarballAPI "o" "r" Demo.sha_b) ∈ new_events w (handleUpdate "github.com/o/r" w).2 ∧
  Str.HasPrefix (tarballAPI "o" "r" Demo.sha_b) (repoAPI "o" "r") = true.
Proof.
  intros P w.
  assert (NE : "github.com/o/r" ≠ "") by discriminate.
  assert (Hin : EvGet (tarballAPI "o" "r" Demo.sha_b)
                  ∈ new_events w (handleUpdate "github.com/o/r" w).2).
  { assert (L : new_events w (handleUpdate "github.com/o/r" w).2 !! 4%nat
                = Some (EvGet (tarballAPI "o" "r" Demo.sha_b))) by (vm_compute; reflexivity).
    by apply list_elem_of_lookup_2 in L. }
  split; [ exact NE | split; [ exact Hin | ] ].
  destruct (handleUpdate_target_only "github.com/o/r" _ w NE Hin) as (o & r & Hk & Pre).
  assert (X : parseGitHubURL "github.com/o/r" = Ok ("o", "r")) by reflexivity.
  rewrite X in Hk. injection Hk as <- <-. exact Pre.
Defined.

(** ** A lock file that holds a null map *)





(** ** A stream that breaks off *)

Lemma writeEntry_returns (target : path) (e : tar_entry) (w : World) :
  ∃ r w', writeEntry target e w = (Ret r, w').
Proof.
  destruct (returns_writeEntry target e w) as [r Hr].
  destruct (writeEntry target e w) as [o w']. simpl in Hr. subst o. eauto.
Qed.

Lemma extractEntries_cut (dest : path) (es : list tar_entry) (rootDir : string)
    (w : World) :
  ∃ e, extractEntries dest rootDir es false w
       = (Ret (Err e), (extractEntries dest rootDir es true w).2).
Proof.
  revert rootDir w. induction es as [| x es IH]; intros rootDir w.
  - by exists ErrTar.
  - cbn [extractEntries].
    destruct (is_xglobal _ || _); [ by apply IH | ].
    destruct (is_dir _ && _ && _); [ by apply IH | ].
    destruct (Str.is_empty _ || negb (Str.HasPrefix _ _)); [ by apply IH | ].
    destruct (Str.is_empty (Str.TrimPrefix _ _)); [ by apply IH | ].
    rewrite !bind_run.
    match goal with |- context [writeEntry ?t x w] =>
      destruct (writeEntry_returns t x w) as ([[] | err] & w1 & ->)
    end.
    + apply IH.
    + by exists err.
Qed.

(** X28.  Extraction is not undone when the stream breaks off: the
    result is an error, and everything is left as after the extraction of
    the same entries followed by a proper end of the stream. *)
Theorem extractTarball_cut `{Platform} (body body' : option string) (tr tr' : tar_stream)
    (dest : path) (w : World) :
  targz body = Some tr → clean_eof tr = false →
  targz body' = Some tr' → entries tr' = entries tr → clean_eof tr' = true →
  ∃ e, extractTarball body dest w = (Ret (Err e), (extractTarball body' dest w).2).
Proof.
  intros T C T' E' C'. unfold extractTarball. rewrite !bind_run. unfold removeAll.
  rewrite !bind_run, !fsop_run. cbn [fs set_fs]. rewrite T, C, T', E', C'.
  destruct (FS.MkdirAll (FS.RemoveAll (fs w) dest) dest 493) as [[e |] f2]; cbn [fst snd].
  - by eexists.
  - apply extractEntries_cut.
Qed.

(** The archive of the specification's example, served whole and cut
    short: the cut one fails and leaves the same file. *)
Lemma extractTarball_cut_witness :
  let cut := {| entries := entries Demo.example_archive; clean_eof := false |} in
  let P := Demo.platform [] [("whole", Demo.example_archive); ("cut", cut)] in
  let out : path := (true, ["out"]) in
  targz (Some "cut") = Some cut ∧ targz (Some "whole") = Some Demo.example_archive ∧
  (extractTarball (Some "whole") out (Demo.world ∅)).1 = Ret (Ok tt) ∧
  ∃ e w', extractTarball (Some "cut") out (Demo.world ∅) = (Ret (Err e), w') ∧
          fs w' !! (true, ["out"; "src"; "a.txt"]) = Some (FileNode 420 "hello").
Proof.
  intros cut P out.
  assert (T : targz (Some "cut") = Some cut) by reflexivity.
  assert (T' : targz (Some "whole") = Some Demo.example_archive) by reflexivity.
  split; [ exact T | split; [ exact T' | split; [ vm_compute; reflexivity | ] ] ].
  destruct (extractTarball_cut (Some "cut") (Some "whole") cut Demo.example_archive out
              (Demo.world ∅) T eq_refl T' eq_refl eq_refl) as [e E].
  eexists e, _. split; [ exact E | ]. vm_compute. reflexivity.
Defined.

(** ** An installation that failed *)



(** ** A short identifier from the remote *)

(** X30.  [handleGet] prints the first 8 bytes of the resolved identifier
    before it downloads.  When the remote resolves the ref to an identifier
    of fewer than 8 bytes, [handleGet] panics right after the resolution:
    nothing is downloaded, and the file system and the Ledger are as they
    were. *)
Theorem handleGet_short_sha `{Platform} (spec repoURL ref owner repo sha cref : string)
    (w : World) :
  parseGitHubSpec spec = Ok (repoURL, ref) →
  parseGitHubURL repoURL = Ok (owner, repo) →
  resolution owner repo ref = Ok (sha, cref) →
  (String.length sha < 8)%nat →
  handleGet spec w
  = (Panic, log w (EvPrint (MFetching repoURL ref) :: resolution_calls owner repo ref)).
Proof.
  intros Hs Hu Hr L. unfold handleGet. rewrite Hs, Hu.
  rewrite bind_run, print_run. cbn beta iota.
  rewrite (bind_ret_run _ _ _ _ _ (resolveRef_run owner repo ref _)), Hr.
  rewrite bind_run, first8_run, (slice_short _ L). by rewrite log_log.
Qed.

(** A remote that answers the branch lookup with an abbreviated
    identifier. *)
Lemma handleGet_short_sha_witness :
  let P := Demo.platform [(branchAPI "o" "r" "main", HttpResp 200 (Some "abc1234"))] [] in
  let w := Demo.world ∅ in
  parseGitHubSpec "github.com/o/r@main" = Ok ("github.com/o/r", "main") ∧
  parseGitHubURL "github.com/o/r" = Ok ("o", "r") ∧
  resolution "o" "r" "main" = Ok ("abc1234", "main") ∧
  (String.length "abc1234" < 8)%nat ∧
  handleGet "github.com/o/r@main" w
  = (Panic, log w [EvPrint (MFetching "github.com/o/r" "main");
                   EvGet (branchAPI "o" "r" "main")]).
Proof.
  intros P w.
  assert (Hs : parseGitHubSpec "github.com/o/r@main" = Ok ("github.com/o/r", "main"))
    by reflexivity.
  assert (Hu : parseGitHubURL "github.com/o/r" = Ok ("o", "r")) by reflexivity.
  assert (Hr : resolution "o" "r" "main" = Ok ("abc1234", "main")) by reflexivity.
  assert (L : (String.length "abc1234" < 8)%nat) by (simpl; lia).
  split_and!; [ exact Hs | exact Hu | exact Hr | exact L | ].
  rewrite (handleGet_short_sha _ _ _ _ _ _ _ w Hs Hu Hr L).
  reflexivity.
Defined.
